(** * Mobinogi MML converter: the front end (src/src/App.svelte)

    A shallow embedding of the script block of [App.svelte] and the
    properties of its view functions, event handlers and settings effects.

    Conventions of the embedding.
    - A JavaScript string is a [string] holding its UTF-8 bytes.  The source
      only cuts strings at ASCII characters (parentheses, slashes, a dot and
      Latin letters) or compares them with whole, well-formed literals, and
      no byte of an ASCII character occurs inside a multi-byte UTF-8 sequence,
      so prefix, suffix and search tests agree with the UTF-16 ones.
    - An integer-valued number ([note_count], [char_count], [charLimit]) is a
      [Z]; a duration is a rational [Q] (every finite double is one).  Where
      the code turns a number into text or text into a number, the integer
      is rounded to a double the way the language does ([JsNumber]).
    - An array is a cell of a store ([heap]); [filter] and the spread syntax
      allocate, [sort] updates in place.
    - Calls that leave the component (clipboard, file system, engine) are
      recorded as a list of [Effect]s; their answers come from an [Env].
    - [step] and [run] take a handler to its end, awaited answers
      included, before the next event.  [tick] and [interleaved] let the
      answers arrive in any order, other events in between: what depends on
      the state at the end of a conversion is proved there.
    - [localeCompare] belongs to the host; it is a parameter. *)

From Stdlib Require Import ZArith QArith Qround Lia Lqa Ascii String.
From Stdlib.Strings Require Import Byte.
From stdpp Require Import base option list sorting gmap strings.

Local Open Scope Z_scope.

(** ** JavaScript strings *)

Module JsString.

(** [s.startsWith(p)] *)
Definition startsWith (s p : string) : bool := String.prefix p s.

(** [s.endsWith(p)] *)
Definition endsWith (s p : string) : bool :=
  String.prefix (String.rev p) (String.rev s).

(** One character of [toLowerCase].  Only the Latin capitals are mapped: the
    remaining code points are multi-byte here and their lower-case mappings
    contain none of the characters the source looks for, except U+0130,
    which maps to "i" followed by U+0307 and so cannot complete a suffix
    ".mid" or ".midi" either. *)
Definition lowerChar (c : ascii) : ascii :=
  let n := N_of_ascii c in
  if ((65 <=? n) && (n <=? 90))%N then ascii_of_N (n + 32) else c.

(** [s.toLowerCase()] *)
Fixpoint toLowerCase (s : string) : string :=
  match s with
  | EmptyString => EmptyString
  | String c r => String (lowerChar c) (toLowerCase r)
  end.

(** The characters of [s] up to, not including, the first [stop]; and what
    follows from that [stop] on. *)
Fixpoint span_until (stop : ascii) (s : string) : string * string :=
  match s with
  | EmptyString => (EmptyString, EmptyString)
  | String c r =>
      if Ascii.eqb c stop then (EmptyString, s)
      else let '(a, b) := span_until stop r in (String c a, b)
  end.

(** An attempt of [/\(([^)]+)\)/] right after an opening parenthesis: the
    greedy class takes every character up to the first ")", needs at least
    one, and the ")" must be there. *)
Definition match_group_here (r : string) : option string :=
  match span_until ")" r with
  | (String c g, String _ _) => Some (String c g)
  | _ => None
  end.

(** [s.match(/\(([^)]+)\)/)?.[1]]: capture group 1 of the leftmost match,
    [None] for [undefined]. *)
Fixpoint match_paren_group (s : string) : option string :=
  match s with
  | EmptyString => None
  | String c r =>
      if Ascii.eqb c "(" then
        match match_group_here r with
        | Some g => Some g
        | None => match_paren_group r
        end
      else match_paren_group r
  end.

(** [s.split(/[\\/]/).pop()]: what follows the last slash or backslash (the
    whole string when there is none). *)
Fixpoint last_segment_go (cur : string) (s : string) : string :=
  match s with
  | EmptyString => String.rev cur
  | String c r =>
      if (Ascii.eqb c "/" || Ascii.eqb c "\")%bool
      then last_segment_go EmptyString r
      else last_segment_go (String c cur) r
  end.
Definition last_segment (s : string) : string := last_segment_go EmptyString s.

(** Whether a character occurs in a string. *)
Fixpoint has_char (c : ascii) (s : string) : bool :=
  match s with
  | EmptyString => false
  | String d r => (Ascii.eqb d c || has_char c r)%bool
  end.

(** Truthiness of a string: only the empty one is falsy. *)
Definition truthy (s : string) : bool :=
  match s with EmptyString => false | _ => true end.

End JsString.

(** ** The result records of the engine *)

Record VoiceResult := {
  name : string;
  content : string;
  char_count : Z;
  note_count : Z;
  duration : Q;
}.

Record ConversionResult := {
  success : bool;
  voices : list VoiceResult;
  error : option string;
  bpm : Q;
  total_notes : Z;
}.

(** ** Arrays *)

Section ArraySort.
Context {A : Type}.


(** [Array.prototype.sort(comparefn)] on the elements of an array.  The
    language fixes the result for a comparator that is [consistent] on the
    elements: the stable ordering of the elements.  It is computed here by
    insertion; an element goes in front of the first one that does not sort
    strictly before it.  For a comparator that is not consistent the
    language leaves the order to the engine, and this is one of the orders
    an engine may answer: what is proved of the order of an answer is
    proved for a consistent comparator. *)
Fixpoint sort_insert (cmp : A → A → Z) (x : A) (l : list A) : list A :=
  match l with
  | [] => [x]
  | y :: t => if cmp y x <? 0 then y :: sort_insert cmp x t else x :: y :: t
  end.

Fixpoint Array_sort (cmp : A → A → Z) (l : list A) : list A :=
  match l with
  | [] => []
  | x :: t => sort_insert cmp x (Array_sort cmp t)
  end.

(** [x] may stand in front of [y]: [y] does not sort strictly before [x]. *)
Definition notAfter (cmp : A → A → Z) (x y : A) : Prop := 0 ≤ cmp y x.
End ArraySort.

(** ** JavaScript numbers *)

(** The numbers the settings code handles.  [Num z] is the double of the
    integer value [z]; the values a variable can hold are the integers a
    double holds exactly ([JsNumber.isDouble]).  [NaN] is what [parseInt]
    answers when it finds no digit, an infinity what it answers for digits
    beyond the largest double.  Zero stands for both zeros: [toString]
    writes "0" for either.  A number with a fraction, and the null that the
    number input gives for an empty field, are outside this type. *)
Inductive number :=
  | Num (z : Z)
  | NaN
  | Infinity (negative : bool).

Module JsNumber.

Definition digitChar (d : Z) : ascii := ascii_of_N (48 + Z.to_N d).

Definition isDigit (c : ascii) : bool :=
  let n := N_of_ascii c in ((48 <=? n) && (n <=? 57))%N.

Definition digitVal (c : ascii) : Z := Z.of_N (N_of_ascii c) - 48.

(** Decimal digits of a non-negative integer, most significant first. *)
Fixpoint digits_fuel (fuel : nat) (n : Z) : list Z :=
  match fuel with
  | O => []
  | S f => if n <? 10 then [n] else digits_fuel f (n / 10) ++ [n mod 10]
  end.
Definition digits (n : Z) : list Z := digits_fuel (S (Z.to_nat (Z.log2 n))) n.

Definition string_of_digits (ds : list Z) : string :=
  string_of_list_ascii (digitChar <$> ds).

Definition decimal (n : Z) : string := string_of_digits (digits n).

Fixpoint strip_leading_zeros (ds : list Z) : list Z :=
  match ds with
  | 0 :: t => strip_leading_zeros t
  | _ => ds
  end.
Definition strip_trailing_zeros (ds : list Z) : list Z :=
  rev (strip_leading_zeros (rev ds)).

(** The double nearest to a non-negative integer, ties to the even one of
    the two 53-bit significands; [None] when the nearest value is beyond
    the largest double. *)
Definition nearestDouble (n : Z) : option Z :=
  let e := Z.log2 n - 52 in
  if e <=? 0 then Some n
  else
    let q := n / 2 ^ e in
    let r := n mod 2 ^ e in
    let half := 2 ^ (e - 1) in
    let q := if ((r <? half) || ((r =? half) && Z.even q))%bool
             then q else q + 1 in
    let v := q * 2 ^ e in
    if v <? 2 ^ 1024 then Some v else None.

(** An integer that a double holds exactly. *)
Definition isDouble (z : Z) : bool :=
  match nearestDouble (Z.abs z) with
  | Some d => d =? Z.abs z
  | None => false
  end.

(** The Number value of the mathematical integer [sign * n], for [n] not
    negative. *)
Definition ofInteger (sign n : Z) : number :=
  match nearestDouble n with
  | Some d => Num (sign * d)
  | None => Infinity (sign <? 0)
  end.

(** The Number value of the integer [v] is [x]. *)
Definition readsAs (x v : Z) : bool :=
  match nearestDouble v with
  | Some d => d =? x
  | None => false
  end.

(** The decimal with [k] significant digits and [n] digits in all whose
    Number value is [x], when there is one: it is the multiple of
    [10^(n-k)] just below or just above [x]; of two, the one closer to [x],
    and the one with the even last digit when they are as close. *)
Definition shortest_at (x n k : Z) : option Z :=
  let scale := 10 ^ (n - k) in
  let lo := x / scale * scale in
  let hi := lo + scale in
  match readsAs x lo, readsAs x hi with
  | true, true =>
      Some (if x - lo <? hi - x then lo
            else if hi - x <? x - lo then hi
            else if Z.even (lo / scale) then lo else hi)
  | true, false => Some lo
  | false, true => Some hi
  | false, false => None
  end.

Fixpoint shortest_from (fuel : nat) (x n k : Z) : Z :=
  match fuel with
  | O => x
  | S f =>
      match shortest_at x n k with
      | Some v => v
      | None => shortest_from f x n (k + 1)
      end
  end.

(** The integer [s * 10^(n-k)] of [Number::toString] for a positive
    integer-valued [x]: its Number value is [x] and [k] is as small as
    possible. *)
Definition shortest (x : Z) : Z :=
  let n := Z.of_nat (length (digits x)) in
  shortest_from (Z.to_nat n) x n 1.

(** The notation of [s * 10^(n-k)]: its [n] digits when [n <= 21], the
    exponential notation beyond. *)
Definition notation (v : Z) : string :=
  let ds := digits v in
  let n := Z.of_nat (length ds) in
  if n <=? 21 then string_of_digits ds
  else
    match strip_trailing_zeros ds with
    | [] => string_of_digits ds
    | [d] => string_of_digits [d] +:+ "e+" +:+ decimal (n - 1)
    | d :: rest =>
        string_of_digits [d] +:+ "." +:+ string_of_digits rest
          +:+ "e+" +:+ decimal (n - 1)
    end.

(** [Number::toString] on a positive integer-valued double. *)
Definition toString_pos (x : Z) : string := notation (shortest x).

(** [x.toString()] *)
Definition toString (x : number) : string :=
  match x with
  | NaN => "NaN"
  | Infinity false => "Infinity"
  | Infinity true => "-Infinity"
  | Num 0 => "0"
  | Num (Zpos p) => toString_pos (Zpos p)
  | Num (Zneg p) => "-" +:+ toString_pos (Zpos p)
  end.

(** One white-space or line-terminator code point at the head of a string
    (its UTF-8 bytes), and what follows it. *)
Definition skip_space (s : string) : option string :=
  match s with
  | String c r =>
      let n := N_of_ascii c in
      if ((9 <=? n) && (n <=? 13) || (n =? 32))%N then Some r
      else
        match r with
        | String c2 r2 =>
            let n2 := N_of_ascii c2 in
            if ((n =? 194) && (n2 =? 160))%N then Some r2
            else
              match r2 with
              | String c3 r3 =>
                  let n3 := N_of_ascii c3 in
                  if ((n =? 225) && (n2 =? 154) && (n3 =? 128)
                      || (n =? 226) && (n2 =? 128)
                           && ((128 <=? n3) && (n3 <=? 138)
                               || (n3 =? 168) || (n3 =? 169) || (n3 =? 175))
                      || (n =? 226) && (n2 =? 129) && (n3 =? 159)
                      || (n =? 227) && (n2 =? 128) && (n3 =? 128)
                      || (n =? 239) && (n2 =? 187) && (n3 =? 191))%N
                  then Some r3 else None
              | _ => None
              end
        | _ => None
        end
  | _ => None
  end.

Fixpoint trimStart_fuel (fuel : nat) (s : string) : string :=
  match fuel with
  | O => s
  | S f => match skip_space s with
           | Some r => trimStart_fuel f r
           | None => s
           end
  end.
Definition trimStart (s : string) : string := trimStart_fuel (String.length s) s.

(** The longest prefix of decimal digits, as digit values. *)
Fixpoint digit_prefix (s : string) : list Z :=
  match s with
  | String c r => if isDigit c then digitVal c :: digit_prefix r else []
  | EmptyString => []
  end.

Definition value_of_digits (ds : list Z) : Z :=
  fold_left (λ acc d, acc * 10 + d) ds 0.

(** [parseInt(s, 10)] *)
Definition parseInt10 (s : string) : number :=
  let t := trimStart s in
  let '(sign, t) :=
    match t with
    | String "-" r => (-1, r)
    | String "+" r => (1, r)
    | _ => (1, t)
    end in
  match digit_prefix t with
  | [] => NaN
  | ds => ofInteger sign (value_of_digits ds)
  end.

(** [Math.max(x, ...xs)] on at least one finite argument. *)
Definition Qmax2 (a b : Q) : Q := if Qle_bool a b then b else a.
Definition Math_max (x : Q) (xs : list Q) : Q := fold_left Qmax2 xs x.

(** [x.toFixed(f)] on a finite number.  From [10^21] on, the answer is
    [x.toString()]; such a double is an integer. *)
Definition toFixed (f : nat) (x : Q) : string :=
  let '(s, x) := if Qle_bool 0 x then (""%string, x) else ("-"%string, Qopp x) in
  if Qle_bool (inject_Z (10 ^ 21)) x then s +:+ toString (Num (Qfloor x))
  else
    let n := Qfloor (x * inject_Z (10 ^ Z.of_nat f) + (1 # 2))%Q in
    let m := digits n in
    let m := if (length m <=? f)%nat
             then replicate (f + 1 - length m)%nat 0 ++ m else m in
    let k := length m in
    match f with
    | O => s +:+ string_of_digits m
    | _ => s +:+ string_of_digits (take (k - f) m) +:+ "."
             +:+ string_of_digits (drop (k - f) m)
    end.

End JsNumber.

(** ** The array store *)

(** Arrays are objects: a variable holds a reference.  [heap] maps the
    references in use to the elements of their arrays. *)
Abbreviation loc := positive.
Abbreviation heap := (gmap loc (list VoiceResult)).

(** A computation over the store; [None] only for a reference that was never
    allocated, which no JavaScript program can hold. *)
Definition St (A : Type) : Type := heap → option (A * heap).

Definition ret {A} (a : A) : St A := λ h, Some (a, h).
Definition bind {A B} (c : St A) (k : A → St B) : St B :=
  λ h, match c h with
       | Some (a, h') => k a h'
       | None => None
       end.

Notation "'let*' x ':=' c 'in' k" := (bind c (λ x, k))
  (at level 10, x pattern, c at level 100, k at level 200).
Notation "c ';;;' k" := (bind c (λ _, k))
  (at level 100, k at level 200, right associativity).

Module Array.

(** An array literal or any built-in that answers a new array. *)
Definition alloc (xs : list VoiceResult) : St loc :=
  λ h, let l := fresh (dom h) in Some (l, <[l := xs]> h).

(** The elements of the array behind a reference. *)
Definition read (l : loc) : St (list VoiceResult) :=
  λ h, match h !! l with
       | Some xs => Some (xs, h)
       | None => None
       end.

Definition write (l : loc) (xs : list VoiceResult) : St unit :=
  λ h, match h !! l with
       | Some _ => Some (tt, <[l := xs]> h)
       | None => None
       end.

(** [a.filter(p)]: a new array. *)
Definition filter (p : VoiceResult → bool) (a : loc) : St loc :=
  let* xs := read a in alloc (List.filter p xs).

(** [a.sort(cmp)]: sorts the array in place. *)
Definition sort (cmp : VoiceResult → VoiceResult → Z) (a : loc) : St unit :=
  let* xs := read a in write a (Array_sort cmp xs).

(** The spread literal of two arrays: a new array. *)
Definition spread2 (a b : loc) : St loc :=
  let* xs := read a in
  let* ys := read b in
  alloc (xs ++ ys).

End Array.

(** ** getSortedVoices *)

Definition MELODY : string := "멜로디".

(** The callback of the first [filter]. *)
Definition isMelody (v : VoiceResult) : bool :=
  (String.eqb (name v) MELODY || JsString.startsWith (name v) MELODY)%bool.

(** The callback of the second [filter]. *)
Definition isOther (v : VoiceResult) : bool :=
  (negb (String.eqb (name v) MELODY)
   && negb (JsString.startsWith (name v) MELODY))%bool.

(** A melody voice, in words: its name is the melody label or goes on from
    it. *)
Definition melodyVoice (v : VoiceResult) : Prop :=
  name v = MELODY ∨ ∃ rest, name v = MELODY +:+ rest.

(** A parenthesised part of the string [s], in words: after [pre] comes
    "(", then [g], which is not empty and holds no ")", then ")". *)
Definition groupAt (s pre g : string) : Prop :=
  ∃ post, s = pre +:+ "(" +:+ g +:+ ")" +:+ post
          ∧ g ≠ "" ∧ JsString.has_char ")" g = false.

(** The comparator of the "notes" order. *)
Definition compareNotes (a b : VoiceResult) : Z :=
  note_count b - note_count a.

(** [v.name.match(...)?.[1] || ""] *)
Definition instrumentOf (v : VoiceResult) : string :=
  match JsString.match_paren_group (name v) with
  | Some g => if JsString.truthy g then g else ""
  | None => ""
  end.

Section Locale.
(** [a.localeCompare(b)] in the locale of the host: negative, zero or
    positive. *)
Variable localeCompare : string → string → Z.

(** The comparator of the "instrument" order. *)
Definition compareInstrument (a b : VoiceResult) : Z :=
  let instA := instrumentOf a in
  let instB := instrumentOf b in
  if String.eqb instA instB then note_count b - note_count a
  else localeCompare instA instB.

(** [getSortedVoices(voices, sortBy)]; [None] stands for a missing
    (null or undefined) argument. *)
Definition getSortedVoices (voices : option loc) (sortBy : string) : St loc :=
  match voices with
  | None => Array.alloc []
  | Some voices =>
      let* vs := Array.read voices in
      if (length vs =? 0)%nat then Array.alloc []
      else
        let* melody := Array.filter isMelody voices in
        let* others := Array.filter isOther voices in
        (if String.eqb sortBy "notes" then Array.sort compareNotes others
         else if String.eqb sortBy "instrument"
              then Array.sort compareInstrument others
              else ret tt);;;
        Array.spread2 melody others
  end.

(** The list a call shows for an array holding [vs]: the call is run on a
    store that has that array only. *)
Definition sortedVoices (vs : list VoiceResult) (sortBy : string)
  : list VoiceResult :=
  match getSortedVoices (Some 1%positive) sortBy {[ 1%positive := vs ]} with
  | Some (r, h) => default [] (h !! r)
  | None => []
  end.

(** The order applied to the voices that are not melodies. *)
Definition sortOthers (sortBy : string) (others : list VoiceResult)
  : list VoiceResult :=
  if String.eqb sortBy "notes" then Array_sort compareNotes others
  else if String.eqb sortBy "instrument"
       then Array_sort compareInstrument others
       else others.

(** The elements of the array a call answers, as a function of the elements
    of its argument ([getSortedVoices_run] below). *)
Definition arranged (vs : list VoiceResult) (sortBy : string)
  : list VoiceResult :=
  match vs with
  | [] => []
  | _ => List.filter isMelody vs ++ sortOthers sortBy (List.filter isOther vs)
  end.
End Locale.

(** ** The component *)

(** The reactive variables of the component. *)
Record State := {
  isDragging : bool;
  isConverting : bool;
  result : option ConversionResult;
  fileName : string;
  conversionMode : string;
  charLimit : number;
  sortBy : string;
  errorMessage : string;
  copiedIndex : Z;
}.

Definition initialState : State := {|
  isDragging := false;
  isConverting := false;
  result := None;
  fileName := "";
  conversionMode := "normal";
  charLimit := Num 1200;
  sortBy := "notes";
  errorMessage := "";
  copiedIndex := -1;
|}.

Definition set_isDragging (b : bool) (st : State) : State :=
  {| isDragging := b; isConverting := isConverting st; result := result st;
     fileName := fileName st; conversionMode := conversionMode st;
     charLimit := charLimit st; sortBy := sortBy st;
     errorMessage := errorMessage st; copiedIndex := copiedIndex st |}.
Definition set_isConverting (b : bool) (st : State) : State :=
  {| isDragging := isDragging st; isConverting := b; result := result st;
     fileName := fileName st; conversionMode := conversionMode st;
     charLimit := charLimit st; sortBy := sortBy st;
     errorMessage := errorMessage st; copiedIndex := copiedIndex st |}.
Definition set_result (r : option ConversionResult) (st : State) : State :=
  {| isDragging := isDragging st; isConverting := isConverting st; result := r;
     fileName := fileName st; conversionMode := conversionMode st;
     charLimit := charLimit st; sortBy := sortBy st;
     errorMessage := errorMessage st; copiedIndex := copiedIndex st |}.
Definition set_fileName (s : string) (st : State) : State :=
  {| isDragging := isDragging st; isConverting := isConverting st;
     result := result st; fileName := s; conversionMode := conversionMode st;
     charLimit := charLimit st; sortBy := sortBy st;
     errorMessage := errorMessage st; copiedIndex := copiedIndex st |}.
Definition set_conversionMode (s : string) (st : State) : State :=
  {| isDragging := isDragging st; isConverting := isConverting st;
     result := result st; fileName := fileName st; conversionMode := s;
     charLimit := charLimit st; sortBy := sortBy st;
     errorMessage := errorMessage st; copiedIndex := copiedIndex st |}.
Definition set_charLimit (n : number) (st : State) : State :=
  {| isDragging := isDragging st; isConverting := isConverting st;
     result := result st; fileName := fileName st;
     conversionMode := conversionMode st; charLimit := n; sortBy := sortBy st;
     errorMessage := errorMessage st; copiedIndex := copiedIndex st |}.
Definition set_sortBy (s : string) (st : State) : State :=
  {| isDragging := isDragging st; isConverting := isConverting st;
     result := result st; fileName := fileName st;
     conversionMode := conversionMode st; charLimit := charLimit st;
     sortBy := s; errorMessage := errorMessage st;
     copiedIndex := copiedIndex st |}.
Definition set_errorMessage (s : string) (st : State) : State :=
  {| isDragging := isDragging st; isConverting := isConverting st;
     result := result st; fileName := fileName st;
     conversionMode := conversionMode st; charLimit := charLimit st;
     sortBy := sortBy st; errorMessage := s; copiedIndex := copiedIndex st |}.
Definition set_copiedIndex (i : Z) (st : State) : State :=
  {| isDragging := isDragging st; isConverting := isConverting st;
     result := result st; fileName := fileName st;
     conversionMode := conversionMode st; charLimit := charLimit st;
     sortBy := sortBy st; errorMessage := errorMessage st; copiedIndex := i |}.

(** *** The settings effects *)

(** [localStorage] is a [gmap string string]: [getItem] is the lookup ([None]
    for [null]), [setItem] the insertion. *)

(** The first effect.  [hasWindow] is [typeof window !== 'undefined']. *)
Definition loadSettings (hasWindow : bool) (ls : gmap string string)
    (st : State) : State :=
  if hasWindow then
    let savedMode := ls !! "conversionMode"%string in
    let savedLimit := ls !! "charLimit"%string in
    let savedSortBy := ls !! "sortBy"%string in
    let st := match savedMode with
              | Some s => if JsString.truthy s then set_conversionMode s st else st
              | None => st
              end in
    let st := match savedLimit with
              | Some s => if JsString.truthy s
                          then set_charLimit (JsNumber.parseInt10 s) st else st
              | None => st
              end in
    match savedSortBy with
    | Some s => if JsString.truthy s then set_sortBy s st else st
    | None => st
    end
  else st.

(** The second effect. *)
Definition saveSettings (hasWindow : bool) (st : State)
    (ls : gmap string string) : gmap string string :=
  if hasWindow then
    <[ "sortBy"%string := sortBy st ]>
      (<[ "charLimit"%string := JsNumber.toString (charLimit st) ]>
         (<[ "conversionMode"%string := conversionMode st ]> ls))
  else ls.

(** *** The world outside the component *)

(** The options object and the arguments of the [convert_midi] command. *)
Record ConversionOptions := {
  mode : string;
  char_limit : number;
  compress_mode : bool;
}.

Record ConvertArgs := {
  midiData : list Byte.byte;
  options : ConversionOptions;
}.

(** How an awaited promise settles; a rejection carries [error.toString()].
    (A rejection with a value that has no [toString], null or undefined, is
    left out: the plug-ins and the engine reject with a string or an
    error.) *)
Inductive Awaited (A : Type) :=
  | Resolved (a : A)
  | Rejected (err : string).
Arguments Resolved {A} a.
Arguments Rejected {A} err.

(** What the file dialog answers. *)
Inductive Selected :=
  | SelNull
  | SelPath (p : string)
  | SelPaths (ps : list string).

(** The calls that leave the component, in the order they are made. *)
Inductive Effect :=
  | FsReadFile (path : string)
  | Invoke (cmd : string) (args : ConvertArgs)
  | ClipboardWriteText (text : string)
  | SetTimeout (ms : Z)
  | DialogOpen
  | ConsoleError (msg : string).

(** The answers of the outside world. *)
Record Env := {
  importFs : Awaited unit;
  readFile : string → Awaited (list Byte.byte);
  invoke : string → ConvertArgs → Awaited ConversionResult;
  writeText : string → Awaited unit;
  openDialog : Awaited Selected;
}.

(** *** The handlers *)

Definition DEFAULT_ERROR : string := "변환 중 오류가 발생했습니다.".
Definition CATCH_PREFIX : string := "변환 오류: ".
Definition NOT_MIDI : string := "MIDI 파일(.mid)만 지원됩니다.".

(** A path that ends in ".mid" or ".midi", whatever the case of the
    letters. *)
Definition midiPath (p : string) : Prop :=
  ∃ pre suf, p = pre +:+ suf
             ∧ (JsString.toLowerCase suf = ".mid"
                ∨ JsString.toLowerCase suf = ".midi").

(** A string without a slash or a backslash. *)
Definition noSeparator (s : string) : Prop :=
  JsString.has_char "/" s = false ∧ JsString.has_char "\" s = false.

(** The directory part of a path: nothing, or a string that ends in a slash
    or a backslash. *)
Definition dirPart (d : string) : Prop :=
  d = "" ∨ ∃ d' c, d = d' +:+ String c "" ∧ (c = "/"%char ∨ c = "\"%char).

(** [conversionResult.error || "..."] *)
Definition error_or_default (e : option string) : string :=
  match e with
  | Some s => if JsString.truthy s then s else DEFAULT_ERROR
  | None => DEFAULT_ERROR
  end.

(** The [catch] and [finally] blocks of [convertFile]. *)
Definition convert_catch (err : string) (st : State) : State :=
  set_isConverting false (set_errorMessage (CATCH_PREFIX +:+ err) st).

(** [convertFile(filePath)] *)
Definition convertFile (env : Env) (filePath : string) (st : State)
    : State * list Effect :=
  let st := set_result None (set_errorMessage "" (set_isConverting true st)) in
  match importFs env with
  | Rejected e => (convert_catch e st, [])
  | Resolved _ =>
      match readFile env filePath with
      | Rejected e => (convert_catch e st, [FsReadFile filePath])
      | Resolved bytes =>
          let args := {| midiData := bytes;
                         options := {| mode := conversionMode st;
                                       char_limit := charLimit st;
                                       compress_mode := false |} |} in
          let effs := [FsReadFile filePath; Invoke "convert_midi" args] in
          match invoke env "convert_midi" args with
          | Rejected e => (convert_catch e st, effs)
          | Resolved conversionResult =>
              let st :=
                if success conversionResult
                then set_result (Some conversionResult) st
                else set_errorMessage
                       (error_or_default (error conversionResult)) st in
              (set_isConverting false st, effs)
          end
      end
  end.

(** [handleFileDrop(paths)] *)
Definition handleFileDrop (env : Env) (paths : list string) (st : State)
    : State * list Effect :=
  let st := set_isDragging false st in
  match paths with
  | [] => (st, [])
  | filePath :: _ =>
      if (negb (JsString.endsWith (JsString.toLowerCase filePath) ".mid")
          && negb (JsString.endsWith (JsString.toLowerCase filePath) ".midi"))%bool
      then (set_errorMessage NOT_MIDI st, [])
      else
        let seg := JsString.last_segment filePath in
        let st := set_fileName (if JsString.truthy seg then seg else "") st in
        convertFile env filePath st
  end.

(** [handleFileSelect()] *)
Definition handleFileSelect (env : Env) (st : State) : State * list Effect :=
  match openDialog env with
  | Rejected e => (st, [DialogOpen; ConsoleError e])
  | Resolved (SelPath p) =>
      if JsString.truthy p
      then let '(st', effs) := handleFileDrop env [p] st in (st', DialogOpen :: effs)
      else (st, [DialogOpen])
  | Resolved _ => (st, [DialogOpen])
  end.

(** [copyToClipboard(content, index)], with the continuation of the promise. *)
Definition copyToClipboard (env : Env) (content : string) (index : Z)
    (st : State) : State * list Effect :=
  match writeText env content with
  | Resolved _ =>
      (set_copiedIndex index st, [ClipboardWriteText content; SetTimeout 2000])
  | Rejected _ => (st, [ClipboardWriteText content])
  end.

(** The callback of the timer set by [copyToClipboard]. *)
Definition copiedTimeout (st : State) : State := set_copiedIndex (-1) st.

(** [reset()] *)
Definition reset (st : State) : State :=
  set_copiedIndex (-1)
    (set_errorMessage "" (set_fileName "" (set_result None st))).

(** [getTotalDuration()] *)
Definition getTotalDuration (st : State) : string :=
  match result st with
  | None => "0초"
  | Some r =>
      match voices r with
      | [] => "0초"
      | v :: vs =>
          let maxDuration := JsNumber.Math_max (duration v) (duration <$> vs) in
          JsNumber.toFixed 1 maxDuration +:+ "초"
      end
  end.

(** *** Events *)

(** The payload of a drag-and-drop event of the window. *)
Inductive DragDropPayload :=
  | DdDrop (paths : list string)
  | DdEnter
  | DdLeave
  | DdOver.

(** The listener registered by the third effect. *)
Definition onDragDropEvent (env : Env) (p : DragDropPayload) (st : State)
    : State * list Effect :=
  match p with
  | DdDrop paths => handleFileDrop env paths (set_isDragging false st)
  | DdEnter => (set_isDragging true st, [])
  | DdLeave => (set_isDragging false st, [])
  | DdOver => (set_isDragging true st, [])
  end.

(** The calls of [handleFileDrop] in the program: by the drop listener,
    which has cleared the dragging flag on the line before, and by
    [handleFileSelect], with the one path that was selected. *)
Inductive dropCall : list string → State → Prop :=
  | call_listener (paths : list string) (st : State) :
      dropCall paths (set_isDragging false st)
  | call_select (p : string) (st : State) :
      JsString.truthy p = true → dropCall [p] st.

(** What the user and the platform can do to the component. *)
Inductive Event :=
  | DragDrop (p : DragDropPayload)
  | ClickSelectFile
  | ClickCopy (idx : nat)
  | ClickReset
  | InputMode (s : string)
  | InputCharLimit (n : number)
  | InputSortBy (s : string)
  | TimerFired.

Section View.
Variable localeCompare : string → string → Z.

(** The voices of the [#each] block, in the order they are shown: the block
    is rendered when there is a result with at least one voice. *)
Definition shownVoices (st : State) : list VoiceResult :=
  match result st with
  | Some r =>
      if (0 <? length (voices r))%nat
      then sortedVoices localeCompare (voices r) (sortBy st)
      else []
  | None => []
  end.

(** One event on the component, following the template: the options and the
    drop zone are rendered without a result, the summary, the reset button
    and the voice list with one. *)
Definition step (env : Env) (ev : Event) (st : State) : State * list Effect :=
  match ev with
  | DragDrop p => onDragDropEvent env p st
  | ClickSelectFile =>
      match result st with
      | None => handleFileSelect env st
      | Some _ => (st, [])
      end
  | ClickCopy idx =>
      match shownVoices st !! idx with
      | Some voice => copyToClipboard env (content voice) (Z.of_nat idx) st
      | None => (st, [])
      end
  | ClickReset =>
      match result st with
      | Some _ => (reset st, [])
      | None => (st, [])
      end
  | InputMode s =>
      match result st with
      | None => (set_conversionMode s st, [])
      | Some _ => (st, [])
      end
  | InputCharLimit n =>
      match result st with
      | None => (set_charLimit n st, [])
      | Some _ => (st, [])
      end
  | InputSortBy s =>
      match result st with
      | Some r => if (0 <? length (voices r))%nat
                  then (set_sortBy s st, []) else (st, [])
      | None => (st, [])
      end
  | TimerFired => (copiedTimeout st, [])
  end.

(** A session: events with the answers the world gives during each. *)
Fixpoint run (evs : list (Env * Event)) (st : State) : State * list Effect :=
  match evs with
  | [] => (st, [])
  | (env, ev) :: rest =>
      let '(st1, e1) := step env ev st in
      let '(st2, e2) := run rest st1 in
      (st2, e1 ++ e2)
  end.
End View.

(** *** Answers that arrive later

    [step] runs a handler to its end, with the answers it awaits.  In the
    browser an [await] gives way: between a call and its answer other
    handlers run, and a file dropped during a conversion starts a second
    conversion.  Here a call that waits for its answer is a [Pending] one,
    and the answer to any waiting call may arrive at any time. *)

(** The rest of [handleFileSelect] after [await open(...)], of [convertFile]
    after each of its three [await]s, and the [then] callback of
    [copyToClipboard]. *)
Inductive Pending :=
  | AwaitOpen
  | AwaitImport (filePath : string)
  | AwaitReadFile (filePath : string)
  | AwaitInvoke (args : ConvertArgs)
  | AwaitWriteText (content : string) (index : Z).

(** A call of [convertFile] that has not ended. *)
Definition converting (t : Pending) : bool :=
  match t with
  | AwaitImport _ | AwaitReadFile _ | AwaitInvoke _ => true
  | AwaitOpen | AwaitWriteText _ _ => false
  end.

(** [convertFile(filePath)] up to its first [await]. *)
Definition convertFile_start (filePath : string) (st : State)
    : State * list Pending :=
  (set_result None (set_errorMessage "" (set_isConverting true st)),
   [AwaitImport filePath]).

(** [handleFileDrop(paths)] up to the first [await]. *)
Definition handleFileDrop_start (paths : list string) (st : State)
    : State * list Pending :=
  let st := set_isDragging false st in
  match paths with
  | [] => (st, [])
  | filePath :: _ =>
      if (negb (JsString.endsWith (JsString.toLowerCase filePath) ".mid")
          && negb (JsString.endsWith (JsString.toLowerCase filePath) ".midi"))%bool
      then (set_errorMessage NOT_MIDI st, [])
      else
        let seg := JsString.last_segment filePath in
        let st := set_fileName (if JsString.truthy seg then seg else "") st in
        convertFile_start filePath st
  end.

(** The rest of a call from the moment its answer arrives, up to its next
    [await] or to its end: the variables, the calls made, and the calls that
    wait from then on. *)
Definition resume (env : Env) (t : Pending) (st : State)
    : State * list Effect * list Pending :=
  match t with
  | AwaitOpen =>
      match openDialog env with
      | Rejected e => (st, [ConsoleError e], [])
      | Resolved (SelPath p) =>
          if JsString.truthy p
          then let '(st', ts) := handleFileDrop_start [p] st in (st', [], ts)
          else (st, [], [])
      | Resolved _ => (st, [], [])
      end
  | AwaitImport filePath =>
      match importFs env with
      | Rejected e => (convert_catch e st, [], [])
      | Resolved _ => (st, [FsReadFile filePath], [AwaitReadFile filePath])
      end
  | AwaitReadFile filePath =>
      match readFile env filePath with
      | Rejected e => (convert_catch e st, [], [])
      | Resolved bytes =>
          let args := {| midiData := bytes;
                         options := {| mode := conversionMode st;
                                       char_limit := charLimit st;
                                       compress_mode := false |} |} in
          (st, [Invoke "convert_midi" args], [AwaitInvoke args])
      end
  | AwaitInvoke args =>
      match invoke env "convert_midi" args with
      | Rejected e => (convert_catch e st, [], [])
      | Resolved conversionResult =>
          let st :=
            if success conversionResult
            then set_result (Some conversionResult) st
            else set_errorMessage
                   (error_or_default (error conversionResult)) st in
          (set_isConverting false st, [], [])
      end
  | AwaitWriteText content index =>
      match writeText env content with
      | Resolved _ => (set_copiedIndex index st, [SetTimeout 2000], [])
      | Rejected _ => (st, [], [])
      end
  end.


(** The component with the calls that wait for an answer. *)
Record Page := {
  vars : State;
  waiting : list Pending;
}.

(** What happens next: an event, or the answer to the waiting call number
    [i]. *)
Inductive Tick :=
  | Ui (ev : Event)
  | Settle (i : nat).

Section Interleaving.
Variable localeCompare : string → string → Z.

Definition tick (env : Env) (t : Tick) (pg : Page) : Page * list Effect :=
  match t with
  | Ui (DragDrop (DdDrop paths)) =>
      let '(st, ts) :=
        handleFileDrop_start paths (set_isDragging false (vars pg)) in
      ({| vars := st; waiting := waiting pg ++ ts |}, [])
  | Ui ClickSelectFile =>
      match result (vars pg) with
      | None =>
          ({| vars := vars pg; waiting := waiting pg ++ [AwaitOpen] |},
           [DialogOpen])
      | Some _ => (pg, [])
      end
  | Ui (ClickCopy idx) =>
      match shownVoices localeCompare (vars pg) !! idx with
      | Some voice =>
          ({| vars := vars pg;
              waiting := waiting pg
                           ++ [AwaitWriteText (content voice) (Z.of_nat idx)] |},
           [ClipboardWriteText (content voice)])
      | None => (pg, [])
      end
  | Ui ev =>
      let '(st, effs) := step localeCompare env ev (vars pg) in
      ({| vars := st; waiting := waiting pg |}, effs)
  | Settle i =>
      match waiting pg !! i with
      | Some t =>
          let '(st, effs, ts) := resume env t (vars pg) in
          ({| vars := st; waiting := delete i (waiting pg) ++ ts |}, effs)
      | None => (pg, [])
      end
  end.

(** A session in which the answers arrive when the world gives them. *)
Fixpoint interleaved (ticks : list (Env * Tick)) (pg : Page)
    : Page * list Effect :=
  match ticks with
  | [] => (pg, [])
  | (env, t) :: rest =>
      let '(pg1, e1) := tick env t pg in
      let '(pg2, e2) := interleaved rest pg1 in
      (pg2, e1 ++ e2)
  end.

(** The answer that arrives is a conversion result that is stored. *)
Definition storesResult (env : Env) (t : Tick) (pg : Page) : bool :=
  match t with
  | Settle i =>
      match waiting pg !! i with
      | Some (AwaitInvoke args) =>
          match invoke env "convert_midi" args with
          | Resolved conversionResult => success conversionResult
          | Rejected _ => false
          end
      | _ => false
      end
  | Ui _ => false
  end.

(** No tick of the session stores a conversion result. *)
Fixpoint quiet (ticks : list (Env * Tick)) (pg : Page) : bool :=
  match ticks with
  | [] => true
  | (env, t) :: rest =>
      negb (storesResult env t pg) && quiet rest (tick env t pg).1
  end.
End Interleaving.

(** The component when it is mounted: nothing waits. *)
Definition initialPage : Page := {| vars := initialState; waiting := [] |}.

(** The order of the "instrument" key, in words: by instrument under the
    locale comparison, and by falling note count within one instrument. *)
Definition instrumentOrder (localeCompare : string → string → Z)
    (a b : VoiceResult) : Prop :=
  localeCompare (instrumentOf a) (instrumentOf b) ≤ 0
  ∧ (instrumentOf a = instrumentOf b → note_count b ≤ note_count a).

(** * The icon generator (src/generate-icons.cjs)

    The script writes into one directory, [iconsDir]; a file of that
    directory is known by its name ([path.join(iconsDir, name)]).  What
    [sharp] writes is a PNG of the requested size; the pixels, which come
    from [icon.png], are left out.  The calls that can fail (creating the
    directory, [sharp], [pngToIco], writing and unlinking) take their
    outcome from a [Host].  A call that writes a file and fails leaves the
    directory as it was when it fails before the file is opened, and a file
    cut short when it fails later: the file is opened for writing, which
    empties it, before anything is written. *)

Module Icons.

#[warnings="-register-all"]
Inductive Image :=
  | Png (width height : Z)
  | Ico (parts : list Image)
  | Truncated.

(** How a call that writes a file ends. *)
Inductive WriteEnd :=
  | Written
  | NotOpened
  | CutShort.

(** The icons directory and the console. *)
Record Fs := {
  dirExists : bool;
  files : gmap string Image;
  console : list string;
}.

Record Host := {
  mkdirOk : bool;
  sharpEnd : string → WriteEnd;
  pngToIcoOk : bool;
  writeEnd : string → WriteEnd;
  unlinkOk : string → bool;
}.

(** How the process ends: the script runs to its end, [process.exit(code)],
    or an exception outside [generateIcons]. *)
Inductive Outcome :=
  | Finished
  | Exited (code : Z)
  | Crashed.

(** A computation inside the [try] block: the directory and the console as
    it leaves them, with the value or the error thrown. *)
Definition Try (A : Type) : Type := Fs → Fs * (string + A).

Definition tret {A} (a : A) : Try A := λ fs, (fs, inr a).
Definition throw {A} (e : string) : Try A := λ fs, (fs, inl e).
Definition tbind {A B} (c : Try A) (k : A → Try B) : Try B :=
  λ fs, match c fs with
        | (fs', inr a) => k a fs'
        | (fs', inl e) => (fs', inl e)
        end.

Notation "'do' x '<-' c ';' k" := (tbind c (λ x, k))
  (at level 10, x pattern, c at level 100, k at level 200).
Notation "c '>>' k" := (tbind c (λ _, k))
  (at level 100, k at level 200, right associativity).

Definition set_files (m : gmap string Image) (fs : Fs) : Fs :=
  {| dirExists := dirExists fs; files := m; console := console fs |}.

(** [console.log(line)] *)
Definition log (line : string) : Try unit :=
  λ fs, ({| dirExists := dirExists fs; files := files fs;
            console := console fs ++ [line] |}, inr tt).

(** [await sharp(inputIcon).resize(size, size, ...).png().toFile(name)] *)
Definition sharpResize (host : Host) (size : Z) (name : string) : Try unit :=
  λ fs, match sharpEnd host name with
        | Written =>
            (set_files (<[name := Png size size]> (files fs)) fs, inr tt)
        | NotOpened => (fs, inl ("sharp: " +:+ name))
        | CutShort =>
            (set_files (<[name := Truncated]> (files fs)) fs,
             inl ("sharp: " +:+ name))
        end.

(** [await pngToIco(paths)]: the images of the files, in the order given. *)
Fixpoint readAll (paths : list string) (m : gmap string Image)
  : option (list Image) :=
  match paths with
  | [] => Some []
  | p :: rest =>
      match m !! p, readAll rest m with
      | Some img, Some imgs => Some (img :: imgs)
      | _, _ => None
      end
  end.

Definition pngToIco (host : Host) (paths : list string) : Try Image :=
  λ fs, match readAll paths (files fs) with
        | Some imgs =>
            if pngToIcoOk host then (fs, inr (Ico imgs))
            else (fs, inl "pngToIco"%string)
        | None => (fs, inl "pngToIco: ENOENT"%string)
        end.

(** [fs.writeFileSync(name, buffer)] *)
Definition writeFileSync (host : Host) (name : string) (buffer : Image)
  : Try unit :=
  λ fs, match writeEnd host name with
        | Written => (set_files (<[name := buffer]> (files fs)) fs, inr tt)
        | NotOpened => (fs, inl ("write: " +:+ name))
        | CutShort =>
            (set_files (<[name := Truncated]> (files fs)) fs,
             inl ("write: " +:+ name))
        end.

(** [fs.unlinkSync(name)] *)
Definition unlinkSync (host : Host) (name : string) : Try unit :=
  λ fs, match files fs !! name with
        | Some _ =>
            if unlinkOk host name
            then (set_files (delete name (files fs)) fs, inr tt)
            else (fs, inl ("unlink: " +:+ name))
        | None => (fs, inl ("unlink: ENOENT " +:+ name))
        end.

(** A [for ... of] loop. *)
Fixpoint forEach {A} (xs : list A) (body : A → Try unit) : Try unit :=
  match xs with
  | [] => tret tt
  | x :: rest => body x >> forEach rest body
  end.

(** The loop that fills [icoPngPaths]. *)
Fixpoint collect {A B} (xs : list A) (body : A → Try B) : Try (list B) :=
  match xs with
  | [] => tret []
  | x :: rest => do y <- body x; do ys <- collect rest body; tret (y :: ys)
  end.

Definition iconSizes : list Z := [32; 128; 256; 512].
Definition icoSizes : list Z := [16; 32; 48; 256].

(** A number in a template literal. *)
Definition show (n : Z) : string := JsNumber.toString (Num n).

Definition pngName (size : Z) : string := show size +:+ "x" +:+ show size +:+ ".png".
Definition tempName (size : Z) : string := "temp_" +:+ show size +:+ ".png".

(** The body of the [try] block of [generateIcons]. *)
Definition generateIcons_try (host : Host) : Try unit :=
  log "🎨 Generating icons..." >>
  forEach iconSizes (λ size,
    let outputPath := pngName size in
    sharpResize host size outputPath >>
    log ("✅ Generated " +:+ show size +:+ "x" +:+ show size +:+ ".png")) >>
  sharpResize host 256 "128x128@2x.png" >>
  log "✅ Generated 128x128@2x.png" >>
  sharpResize host 1024 "icon.png" >>
  log "✅ Generated icon.png" >>
  log "🔧 Generating ICO component PNGs..." >>
  do icoPngPaths <- collect icoSizes (λ size,
    let tempPath := tempName size in
    sharpResize host size tempPath >> tret tempPath);
  log "🔨 Creating ICO file..." >>
  do icoBuffer <- pngToIco host icoPngPaths;
  writeFileSync host "icon.ico" icoBuffer >>
  forEach icoPngPaths (unlinkSync host) >>
  log "✅ Generated icon.ico (16x16, 32x32, 48x48, 256x256)" >>
  sharpResize host 1024 "icon.icns" >>
  log "✅ Generated icon.icns (as PNG, macOS compatible)" >>
  log "🎉 All icons generated successfully!".

(** [generateIcons()], with its [catch]. *)
Definition generateIcons (host : Host) (fs : Fs) : Fs * Outcome :=
  match generateIcons_try host fs with
  | (fs', inr _) => (fs', Finished)
  | (fs', inl e) =>
      ({| dirExists := dirExists fs'; files := files fs';
          console := console fs' ++ ["❌ Error generating icons: " +:+ e] |},
       Exited 1)
  end.

(** The script: the directory is created when it is not there, then
    [generateIcons] is called. *)
Definition script (host : Host) (fs : Fs) : Fs * Outcome :=
  if dirExists fs then generateIcons host fs
  else if mkdirOk host
       then generateIcons host
              {| dirExists := true; files := files fs; console := console fs |}
       else (fs, Crashed).

(** The names the script writes and keeps, and the names of its temporary
    files. *)
Definition outputNames : list string :=
  [ "32x32.png"; "128x128.png"; "256x256.png"; "512x512.png";
    "128x128@2x.png"; "icon.png"; "icon.ico"; "icon.icns" ].
Definition tempNames : list string :=
  [ "temp_16.png"; "temp_32.png"; "temp_48.png"; "temp_256.png" ].

(** What a full run leaves in the directory. *)
Definition products : list (string * Image) :=
  [ ("32x32.png", Png 32 32); ("128x128.png", Png 128 128);
    ("256x256.png", Png 256 256); ("512x512.png", Png 512 512);
    ("128x128@2x.png", Png 256 256); ("icon.png", Png 1024 1024);
    ("icon.ico", Ico [Png 16 16; Png 32 32; Png 48 48; Png 256 256]);
    ("icon.icns", Png 1024 1024) ]%string.

(** What a full run prints. *)
Definition successLines : list string :=
  [ "🎨 Generating icons..."; "✅ Generated 32x32.png";
    "✅ Generated 128x128.png"; "✅ Generated 256x256.png";
    "✅ Generated 512x512.png"; "✅ Generated 128x128@2x.png";
    "✅ Generated icon.png"; "🔧 Generating ICO component PNGs...";
    "🔨 Creating ICO file...";
    "✅ Generated icon.ico (16x16, 32x32, 48x48, 256x256)";
    "✅ Generated icon.icns (as PNG, macOS compatible)";
    "🎉 All icons generated successfully!" ].

(** The files whose names are not in [names] are the same in both
    directories. *)
Definition sameOutside (names : list string) (fs fs' : Fs) : Prop :=
  ∀ name, name ∉ names → files fs' !! name = files fs !! name.

(** A host on which every call succeeds, one whose [pngToIco] fails, and one
    on which the disk is full when [icon.ico] is written. *)
Definition goodHost : Host :=
  {| mkdirOk := true; sharpEnd := λ _, Written; pngToIcoOk := true;
     writeEnd := λ _, Written; unlinkOk := λ _, true |}.
Definition noIcoHost : Host :=
  {| mkdirOk := true; sharpEnd := λ _, Written; pngToIcoOk := false;
     writeEnd := λ _, Written; unlinkOk := λ _, true |}.
Definition fullDiskHost : Host :=
  {| mkdirOk := true; sharpEnd := λ _, Written; pngToIcoOk := true;
     writeEnd := λ _, CutShort; unlinkOk := λ _, true |}.

Definition emptyFs : Fs := {| dirExists := false; files := ∅; console := [] |}.

End Icons.

(** ** Sample data *)

(** A comparison of strings byte by byte, standing for a host locale in the
    examples. *)
Definition byteCompare (a b : string) : Z :=
  match String.compare a b with
  | Lt => -1
  | Eq => 0
  | Gt => 1
  end.

(** The two spellings of the letter e with an acute accent, in UTF-8: the
    code point U+00E9, and "e" followed by the combining accent U+0301.
    They are canonically equivalent, and [localeCompare] answers 0 for
    strings that differ in such spellings only. *)
Definition e_acute : string := String "195" (String "169" "").
Definition e_combining_acute : string :=
  String "e" (String "204" (String "129" "")).

(** A string with the second spelling replaced by the first. *)
Fixpoint compose (s : string) : string :=
  match s with
  | String "e" (String "204" (String "129" r)) => e_acute +:+ compose r
  | String c r => String c (compose r)
  | EmptyString => EmptyString
  end.

(** A comparison that ties the two spellings, standing for a host locale in
    the examples with canonically equivalent names. *)
Definition canonCompare (a b : string) : Z :=
  byteCompare (compose a) (compose b).

Definition sampleVoice (n c : string) (notes : Z) (d : Q) : VoiceResult :=
  {| name := n; content := c; char_count := Z.of_nat (String.length c);
     note_count := notes; duration := d |}.

Definition sampleVoices : list VoiceResult :=
  [ sampleVoice "화음1 (Violin)" "t120o4c4d4" 3 (25 # 10);
    sampleVoice "멜로디 (Piano)" "t120o5e8" 1 (5 # 10);
    sampleVoice "화음2 (Violin)" "t120o3g2" 7 (40 # 10);
    sampleVoice "화음1 (Cello)" "t120o2c1" 2 (40 # 10);
    sampleVoice "멜로디" "t120o4a4" 9 (10 # 10);
    sampleVoice "타악기" "t120o4r4" 1 (123456 # 100000) ].

Definition sampleHeap : heap := {[ 1%positive := sampleVoices ]}.

Definition sampleFailure : ConversionResult :=
  {| success := false; voices := []; error := Some "MalformedHeader"%string;
     bpm := 0; total_notes := 0 |}.

Definition sampleSuccess : ConversionResult :=
  {| success := true; voices := sampleVoices; error := None;
     bpm := 120; total_notes := 23 |}.

Definition sampleEnv (answer : ConversionResult) : Env :=
  {| importFs := Resolved tt;
     readFile := λ _, Resolved ["M"; "T"; "h"; "d"]%byte;
     invoke := λ _ _, Resolved answer;
     writeText := λ _, Resolved tt;
     openDialog := Resolved (SelPath "C:\music\song.MID") |}.

Definition sampleArgs : ConvertArgs :=
  {| midiData := ["M"; "T"; "h"; "d"]%byte;
     options := {| mode := "normal"; char_limit := Num 1200;
                   compress_mode := false |} |}.

Definition sampleShown : State := set_result (Some sampleSuccess) initialState.

(** * Properties *)

(** ** The array store *)

Lemma alloc_run (xs : list VoiceResult) (h : heap) :
  ∃ l, Array.alloc xs h = Some (l, <[l := xs]> h) ∧ h !! l = None.
Proof.
  exists (fresh (dom h)). split; [reflexivity|].
  apply not_elem_of_dom, is_fresh.
Qed.

Lemma insert_frame (h : heap) (l l' : loc) (xs : list VoiceResult) :
  h !! l = None → is_Some (h !! l') → <[l := xs]> h !! l' = h !! l'.
Proof.
  intros Hl [ys Hl']. apply lookup_insert_ne. congruence.
Qed.

Lemma bind_run {A B} (c : St A) (k : A → St B) (h h' : heap) (a : A) :
  c h = Some (a, h') → bind c k h = k a h'.
Proof. intros H. unfold bind. by rewrite H. Qed.

Lemma read_run (l : loc) (h : heap) (xs : list VoiceResult) :
  h !! l = Some xs → Array.read l h = Some (xs, h).
Proof. intros H. unfold Array.read. by rewrite H. Qed.

Lemma filter_run (p : VoiceResult → bool) (a : loc) (h : heap)
    (xs : list VoiceResult) :
  h !! a = Some xs →
  ∃ l, Array.filter p a h = Some (l, <[l := List.filter p xs]> h)
       ∧ h !! l = None.
Proof.
  intros H. unfold Array.filter. rewrite (bind_run _ _ _ _ _ (read_run _ _ _ H)).
  apply alloc_run.
Qed.

Lemma sort_run (cmp : VoiceResult → VoiceResult → Z) (a : loc) (h : heap)
    (xs : list VoiceResult) :
  h !! a = Some xs →
  Array.sort cmp a h = Some (tt, <[a := Array_sort cmp xs]> h).
Proof.
  intros H. unfold Array.sort. rewrite (bind_run _ _ _ _ _ (read_run _ _ _ H)).
  unfold Array.write. by rewrite H.
Qed.

Lemma spread2_run (a b : loc) (h : heap) (xs ys : list VoiceResult) :
  h !! a = Some xs → h !! b = Some ys →
  ∃ l, Array.spread2 a b h = Some (l, <[l := xs ++ ys]> h) ∧ h !! l = None.
Proof.
  intros Ha Hb. unfold Array.spread2.
  rewrite (bind_run _ _ _ _ _ (read_run _ _ _ Ha)).
  rewrite (bind_run _ _ _ _ _ (read_run _ _ _ Hb)).
  apply alloc_run.
Qed.

Section GetSortedVoices.
Variable localeCompare : string → string → Z.

(** The sorting step of a call, on the array of the other voices. *)
Lemma sort_step_run (sortBy : string) (o : loc) (h : heap)
    (xs : list VoiceResult) :
  h !! o = Some xs →
  (if String.eqb sortBy "notes" then Array.sort compareNotes o
   else if String.eqb sortBy "instrument"
        then Array.sort (compareInstrument localeCompare) o
        else ret tt) h
  = Some (tt, <[o := sortOthers localeCompare sortBy xs]> h).
Proof.
  intros H. unfold sortOthers.
  destruct (String.eqb sortBy "notes");
    [|destruct (String.eqb sortBy "instrument")];
    try by apply sort_run.
  unfold ret. by rewrite insert_id.
Qed.

(** A call on an allocated array returns; it answers a reference that was
    not in use, holding [arranged], and leaves every array that existed
    before the call as it was. *)
Lemma getSortedVoices_run (h : heap) (l : loc) (vs : list VoiceResult)
    (sortBy : string) :
  h !! l = Some vs →
  ∃ r h', getSortedVoices localeCompare (Some l) sortBy h = Some (r, h')
          ∧ h !! r = None
          ∧ h' !! r = Some (arranged localeCompare vs sortBy)
          ∧ ∀ l', is_Some (h !! l') → h' !! l' = h !! l'.
Proof.
  intros Hl. unfold getSortedVoices.
  rewrite (bind_run _ _ _ _ _ (read_run _ _ _ Hl)).
  destruct vs as [|v vs'] eqn:Hvs.
  { simpl. destruct (alloc_run [] h) as (r & -> & Hr).
    exists r, (<[r := []]> h). split_and!; auto.
    - apply lookup_insert_eq.
    - intros l' Hl'. by apply insert_frame. }
  rewrite <- Hvs in *. replace (length vs =? 0)%nat with false
    by (subst vs; reflexivity).
  destruct (filter_run isMelody l h vs Hl) as (m & Em & Hm).
  rewrite (bind_run _ _ _ _ _ Em).
  set (h1 := <[m := List.filter isMelody vs]> h).
  assert (Hl1 : h1 !! l = Some vs).
  { unfold h1. rewrite insert_frame; eauto. }
  destruct (filter_run isOther l h1 vs Hl1) as (o & Eo & Ho).
  rewrite (bind_run _ _ _ _ _ Eo).
  set (h2 := <[o := List.filter isOther vs]> h1).
  assert (Hmo : m ≠ o).
  { intros ->. unfold h1 in Ho. by rewrite lookup_insert_eq in Ho. }
  assert (H2o : h2 !! o = Some (List.filter isOther vs))
    by apply lookup_insert_eq.
  rewrite (bind_run _ _ _ _ _ (sort_step_run sortBy o h2 _ H2o)).
  set (h3 := <[o := sortOthers localeCompare sortBy (List.filter isOther vs)]> h2).
  assert (H3m : h3 !! m = Some (List.filter isMelody vs)).
  { unfold h3, h2. rewrite !lookup_insert_ne by congruence.
    apply lookup_insert_eq. }
  assert (H3o : h3 !! o = Some (sortOthers localeCompare sortBy (List.filter isOther vs)))
    by apply lookup_insert_eq.
  destruct (spread2_run m o h3 _ _ H3m H3o) as (r & -> & Hr).
  assert (Hframe : ∀ l', is_Some (h !! l') → h3 !! l' = h !! l').
  { intros l' Hl'. unfold h3, h2. rewrite insert_insert_eq.
    assert (is_Some (h1 !! l')) by (unfold h1; rewrite insert_frame; auto).
    rewrite insert_frame by auto. unfold h1. by apply insert_frame. }
  eexists r, _. split; [reflexivity|]. split_and!.
  - destruct (h !! r) eqn:E; [|done].
    rewrite <- Hframe in E by eauto. congruence.
  - rewrite lookup_insert_eq. by subst vs.
  - intros l' Hl'. rewrite insert_frame; auto.
    rewrite Hframe; auto.
Qed.

(** The list the template iterates over is [arranged]. *)
Lemma sortedVoices_arranged (vs : list VoiceResult) (sortBy : string) :
  sortedVoices localeCompare vs sortBy = arranged localeCompare vs sortBy.
Proof.
  unfold sortedVoices.
  destruct (getSortedVoices_run {[ 1%positive := vs ]} 1%positive vs sortBy)
    as (r & h' & -> & _ & -> & _); [apply lookup_singleton_eq|done].
Qed.
End GetSortedVoices.

(** ** Melody voices *)

Lemma prefix_spec (p s : string) :
  String.prefix p s = true ↔ ∃ rest, s = p +:+ rest.
Proof.
  revert s. induction p as [|c p IH]; intros s.
  - destruct s; simpl; split; eauto.
  - destruct s as [|d s]; simpl.
    + split; [discriminate|]. intros [rest H]. discriminate.
    + destruct (ascii_dec c d) as [->|Hne].
      * rewrite IH. split; intros [rest H]; exists rest.
        -- by rewrite H.
        -- by injection H.
      * split; [discriminate|]. intros [rest H]. injection H. congruence.
Qed.

Lemma isMelody_spec (v : VoiceResult) : isMelody v = true ↔ melodyVoice v.
Proof.
  unfold isMelody, melodyVoice, JsString.startsWith.
  rewrite orb_true_iff, String.eqb_eq, prefix_spec. reflexivity.
Qed.

Lemma isOther_isMelody (v : VoiceResult) : isOther v = negb (isMelody v).
Proof. unfold isOther, isMelody. by rewrite negb_orb. Qed.

Lemma isOther_spec (v : VoiceResult) : isOther v = true ↔ ¬ melodyVoice v.
Proof.
  rewrite isOther_isMelody, negb_true_iff, <- isMelody_spec.
  destruct (isMelody v); split; congruence.
Qed.

#[global] Instance melodyVoice_dec (v : VoiceResult) : Decision (melodyVoice v).
Proof.
  refine (cast_if (decide (isMelody v = true))); by rewrite <- isMelody_spec.
Defined.

Lemma filter_bool_Forall {A} (p : A → bool) (l : list A) :
  Forall (λ x, p x = true) (List.filter p l).
Proof. apply List.Forall_forall. intros x Hx. by apply List.filter_In in Hx as [_ ?]. Qed.

Lemma filter_bool_stdpp {A} (p : A → bool) (P : A → Prop)
    `{∀ x, Decision (P x)} (l : list A) :
  (∀ x, p x = true ↔ P x) → List.filter p l = filter P l.
Proof.
  intros HpP. induction l as [|x l IH]; [done|]. simpl.
  rewrite filter_cons. destruct (p x) eqn:E.
  - rewrite decide_True by (by apply HpP). by f_equal.
  - rewrite decide_False; [done|]. rewrite <- HpP. congruence.
Qed.

(** Splitting a list by a test and its negation keeps the elements. *)
Lemma partition_perm (l : list VoiceResult) :
  List.filter isMelody l ++ List.filter isOther l ≡ₚ l.
Proof.
  induction l as [|x l IH]; [done|]. simpl.
  rewrite isOther_isMelody. destruct (isMelody x); simpl.
  - by constructor.
  - rewrite <- Permutation_middle. by constructor.
Qed.

(** ** Sorting *)

Section SortFacts.
Context {A : Type} (cmp : A → A → Z).

Lemma sort_insert_perm (x : A) (l : list A) : sort_insert cmp x l ≡ₚ x :: l.
Proof.
  induction l as [|y t IH]; [done|]. simpl.
  destruct (cmp y x <? 0); [|done].
  rewrite IH. apply perm_swap.
Qed.

Lemma Array_sort_perm (l : list A) : Array_sort cmp l ≡ₚ l.
Proof.
  induction l as [|x t IH]; [done|]. simpl.
  rewrite sort_insert_perm. by constructor.
Qed.

(** The comparator is consistent on the elements that satisfy [D]. *)
Variable D : A → Prop.
Hypothesis cmp_asym : ∀ x y, D x → D y → cmp x y < 0 → 0 ≤ cmp y x.
Hypothesis notAfter_trans :
  ∀ x y z, D x → D y → D z →
           notAfter cmp x y → notAfter cmp y z → notAfter cmp x z.

Lemma sort_insert_sorted (x : A) (l : list A) :
  D x → Forall D l →
  StronglySorted (notAfter cmp) l →
  StronglySorted (notAfter cmp) (sort_insert cmp x l).
Proof.
  intros Hx Hl Hs. induction Hs as [|y t Ht IH Hy]; simpl.
  - repeat constructor.
  - apply Forall_cons in Hl as [HDy HDt].
    destruct (cmp y x <? 0) eqn:E.
    + apply Z.ltb_lt in E. constructor; [by apply IH|].
      rewrite sort_insert_perm. constructor; [|done].
      by apply cmp_asym.
    + apply Z.ltb_ge in E. constructor; [by constructor|].
      constructor; [done|].
      rewrite Forall_forall in Hy, HDt |- *. intros z Hz.
      apply (notAfter_trans x y z); auto.
Qed.

Lemma Array_sort_sorted (l : list A) :
  Forall D l → StronglySorted (notAfter cmp) (Array_sort cmp l).
Proof.
  induction 1 as [|x t Hx Ht IH]; simpl; [constructor|].
  apply sort_insert_sorted; auto. by rewrite Array_sort_perm.
Qed.
End SortFacts.

(** ** getSortedVoices: the order of the answer *)

Section Arranged.
Variable localeCompare : string → string → Z.
#[local] Abbreviation arranged' := (arranged localeCompare).
#[local] Abbreviation sortOthers' := (sortOthers localeCompare).

Lemma sortOthers_perm (sortBy : string) (l : list VoiceResult) :
  sortOthers' sortBy l ≡ₚ l.
Proof.
  unfold sortOthers.
  destruct (String.eqb sortBy "notes");
    [|destruct (String.eqb sortBy "instrument")];
    auto using Array_sort_perm.
Qed.

Lemma arranged_split (vs : list VoiceResult) (sortBy : string) :
  arranged' vs sortBy
  = List.filter isMelody vs ++ sortOthers' sortBy (List.filter isOther vs).
Proof.
  destruct vs; [|done]. unfold sortOthers. simpl.
  by destruct (String.eqb sortBy "notes"), (String.eqb sortBy "instrument").
Qed.

Lemma arranged_perm (vs : list VoiceResult) (sortBy : string) :
  arranged' vs sortBy ≡ₚ vs.
Proof.
  rewrite arranged_split, sortOthers_perm. apply partition_perm.
Qed.

Lemma sortOthers_others (sortBy : string) (vs : list VoiceResult) :
  Forall (λ v, ¬ melodyVoice v) (sortOthers' sortBy (List.filter isOther vs)).
Proof.
  rewrite sortOthers_perm.
  eapply Forall_impl; [apply filter_bool_Forall|].
  intros v. by rewrite isOther_spec.
Qed.

Lemma arranged_melody_kept (vs : list VoiceResult) (sortBy : string) :
  filter melodyVoice (arranged' vs sortBy) = filter melodyVoice vs.
Proof.
  rewrite arranged_split, filter_app.
  rewrite <- !(filter_bool_stdpp isMelody melodyVoice) by apply isMelody_spec.
  assert (Hm : ∀ l : list VoiceResult,
             List.filter isMelody (List.filter isMelody l) = List.filter isMelody l).
  { intros l. induction l as [|x l IH]; [done|]. simpl.
    destruct (isMelody x) eqn:E; simpl; rewrite ?E; congruence. }
  rewrite Hm.
  assert (Ho : ∀ l : list VoiceResult,
             Forall (λ v, ¬ melodyVoice v) l → List.filter isMelody l = []).
  { intros l Hl. induction Hl as [|x l Hx _ IH]; [done|]. simpl.
    destruct (isMelody x) eqn:E; [|done]. by apply isMelody_spec in E. }
  rewrite (Ho (sortOthers' sortBy (List.filter isOther vs)))
    by apply sortOthers_others.
  by rewrite app_nil_r.
Qed.

Lemma arranged_melody_first (vs : list VoiceResult) (sortBy : string)
    (i j : nat) (a b : VoiceResult) :
  arranged' vs sortBy !! i = Some a → arranged' vs sortBy !! j = Some b →
  melodyVoice a → ¬ melodyVoice b → (i < j)%nat.
Proof.
  rewrite arranged_split. intros Hi Hj Ha Hb.
  pose proof (filter_bool_Forall isMelody vs) as HM.
  pose proof (sortOthers_others sortBy vs) as HO.
  rewrite Forall_lookup in HM, HO.
  apply lookup_app_Some in Hi as [Hi|[_ Hi]].
  2:{ by apply HO in Hi. }
  apply lookup_app_Some in Hj as [Hj|[Hj _]].
  1:{ apply HM, isMelody_spec in Hj. done. }
  apply lookup_lt_Some in Hi. lia.
Qed.

(** C1.  For every store holding the voices [vs] at [l] and every sort key,
    [getSortedVoices] returns an array whose elements are a permutation of
    [vs]; in it every melody voice (name equal to, or starting with, the
    melody label) stands before every voice that is not one, and the melody
    voices come in the order they have in [vs]. *)
Theorem getSortedVoices_melody_first (h : heap) (l : loc)
    (vs : list VoiceResult) (sortBy : string) :
  h !! l = Some vs →
  ∃ r h' out,
    getSortedVoices localeCompare (Some l) sortBy h = Some (r, h')
    ∧ h' !! r = Some out
    ∧ out ≡ₚ vs
    ∧ (∀ i j a b, out !! i = Some a → out !! j = Some b →
                  melodyVoice a → ¬ melodyVoice b → (i < j)%nat)
    ∧ filter melodyVoice out = filter melodyVoice vs.
Proof.
  intros Hl.
  destruct (getSortedVoices_run localeCompare h l vs sortBy Hl)
    as (r & h' & E & _ & Hr & _).
  exists r, h', (arranged' vs sortBy). split_and!; auto.
  - apply arranged_perm.
  - apply arranged_melody_first.
  - apply arranged_melody_kept.
Qed.

(** For a missing argument the answer is a new, empty array and the store
    is otherwise untouched. *)
Lemma getSortedVoices_missing (h : heap) (sortBy : string) :
  ∃ r, getSortedVoices localeCompare None sortBy h = Some (r, <[r := []]> h)
       ∧ h !! r = None.
Proof. apply alloc_run. Qed.

(** C2.  [getSortedVoices] only reads its argument: after a call on the
    array at [l] that array, and every array the store had, holds what it
    held before; the answer is an array that did not exist before the call;
    for an empty array the answer is empty, and so it is for a missing
    argument. *)
Theorem getSortedVoices_read_only (h : heap) (l : loc)
    (vs : list VoiceResult) (sortBy : string) :
  h !! l = Some vs →
  (∃ r h',
     getSortedVoices localeCompare (Some l) sortBy h = Some (r, h')
     ∧ h' !! l = Some vs
     ∧ (∀ l', is_Some (h !! l') → h' !! l' = h !! l')
     ∧ h !! r = None ∧ r ≠ l
     ∧ is_Some (h' !! r)
     ∧ (vs = [] → h' !! r = Some []))
  ∧ (∃ r h',
       getSortedVoices localeCompare None sortBy h = Some (r, h')
       ∧ h' !! r = Some []
       ∧ h !! r = None
       ∧ ∀ l', is_Some (h !! l') → h' !! l' = h !! l').
Proof.
  intros Hl. split.
  - destruct (getSortedVoices_run localeCompare h l vs sortBy Hl)
      as (r & h' & E & Hfresh & Hr & Hframe).
    exists r, h'. split_and!; eauto.
    + rewrite Hframe; eauto.
    + congruence.
    + intros ->. exact Hr.
  - destruct (getSortedVoices_missing h sortBy) as (r & E & Hr).
    exists r, (<[r := []]> h). split_and!; auto.
    + apply lookup_insert_eq.
    + intros l' Hl'. by apply insert_frame.
Qed.

End Arranged.

Lemma getSortedVoices_melody_first_witness :
  sampleHeap !! 1%positive = Some sampleVoices
  ∧ ∃ r h' out,
      getSortedVoices byteCompare (Some 1%positive) "instrument" sampleHeap
        = Some (r, h')
      ∧ h' !! r = Some out
      ∧ out ≡ₚ sampleVoices
      ∧ (∀ i j a b, out !! i = Some a → out !! j = Some b →
                    melodyVoice a → ¬ melodyVoice b → (i < j)%nat)
      ∧ filter melodyVoice out = filter melodyVoice sampleVoices.
Proof.
  split; [reflexivity|].
  apply (getSortedVoices_melody_first byteCompare sampleHeap 1%positive
           sampleVoices "instrument").
  reflexivity.
Defined.

Lemma getSortedVoices_read_only_witness :
  sampleHeap !! 1%positive = Some sampleVoices
  ∧ ∃ r h',
      getSortedVoices byteCompare (Some 1%positive) "notes" sampleHeap
        = Some (r, h')
      ∧ h' !! 1%positive = Some sampleVoices
      ∧ (∀ l', is_Some (sampleHeap !! l') → h' !! l' = sampleHeap !! l')
      ∧ sampleHeap !! r = None ∧ r ≠ 1%positive
      ∧ is_Some (h' !! r)
      ∧ (sampleVoices = [] → h' !! r = Some []).
Proof.
  split; [reflexivity|].
  refine (proj1 (getSortedVoices_read_only byteCompare sampleHeap 1%positive
                   sampleVoices "notes" _)).
  reflexivity.
Defined.


(** Not every computation over the store that takes an array and a key has
    this property: one that answers the array at a fixed reference does
    not. *)
Example store_dependent_call :
  let peek : option loc → string → St loc := λ _ _, ret 2%positive in
  let h1 : heap := {[ 1%positive := sampleVoices; 2%positive := [] ]} in
  let h2 : heap := {[ 1%positive := sampleVoices; 2%positive := sampleVoices ]} in
  h1 !! 1%positive = Some sampleVoices ∧ h2 !! 1%positive = Some sampleVoices
  ∧ ∀ r1 h1' r2 h2',
      peek (Some 1%positive) "notes" h1 = Some (r1, h1') →
      peek (Some 1%positive) "notes" h2 = Some (r2, h2') →
      h1' !! r1 ≠ h2' !! r2.
Proof.
  intros peek h1 h2. split_and!; [done..|].
  intros r1 h1' r2 h2' [= <- <-] [= <- <-]. by vm_compute.
Qed.

(** ** The instrument of a voice *)

Lemma append_cons (c : ascii) (s t : string) :
  String c s +:+ t = String c (s +:+ t).
Proof. reflexivity. Qed.

Lemma span_until_spec (stop : ascii) (s a b : string) :
  JsString.span_until stop s = (a, b) →
  s = a +:+ b ∧ JsString.has_char stop a = false
  ∧ (b = "" ∨ ∃ b', b = String stop b').
Proof.
  revert a b. induction s as [|c r IH]; intros a b; simpl.
  - intros [= <- <-]. auto.
  - destruct (Ascii.eqb_spec c stop) as [->|Hne].
    + intros [= <- <-]. split_and!; eauto.
    + destruct (JsString.span_until stop r) as [a' b'] eqn:E.
      intros [= <- <-]. destruct (IH a' b' eq_refl) as (-> & Ha & Hb).
      split_and!; auto. simpl.
      by apply Ascii.eqb_neq in Hne as ->.
Qed.

Lemma span_until_app (stop : ascii) (g post : string) :
  JsString.has_char stop g = false →
  JsString.span_until stop (g +:+ String stop post) = (g, String stop post).
Proof.
  induction g as [|c g IH]; simpl.
  - intros _. by rewrite Ascii.eqb_refl.
  - intros H. apply orb_false_iff in H as [Hc Hg].
    rewrite Hc, IH; auto.
Qed.

Lemma match_group_here_Some (r g : string) :
  JsString.match_group_here r = Some g →
  ∃ post, r = g +:+ ")" +:+ post ∧ g ≠ "" ∧ JsString.has_char ")" g = false.
Proof.
  unfold JsString.match_group_here.
  destruct (JsString.span_until ")" r) as [a b] eqn:E.
  apply span_until_spec in E as (-> & Ha & Hb).
  destruct a as [|c a]; [done|]. destruct b as [|d b]; [done|].
  intros [= <-]. destruct Hb as [?|[b' [= -> ->]]]; [done|].
  exists b'. split_and!; auto.
Qed.

Lemma match_group_here_app (g post : string) :
  g ≠ "" → JsString.has_char ")" g = false →
  JsString.match_group_here (g +:+ ")" +:+ post) = Some g.
Proof.
  intros Hg Hc. unfold JsString.match_group_here.
  change (")" +:+ post) with (String ")" post).
  rewrite span_until_app by done. by destruct g.
Qed.

(** A capture is a parenthesised part of the name. *)
Lemma match_paren_group_Some (s g : string) :
  JsString.match_paren_group s = Some g → ∃ pre, groupAt s pre g.
Proof.
  induction s as [|c r IH]; simpl; [done|].
  assert (Hrec : JsString.match_paren_group r = Some g →
                 ∃ pre, groupAt (String c r) pre g).
  { intros H. destruct (IH H) as (pre & post & -> & Hg).
    by exists (String c pre), post. }
  destruct (Ascii.eqb_spec c "(") as [->|_]; [|done].
  destruct (JsString.match_group_here r) as [g'|] eqn:E; [|done].
  intros [= ->]. apply match_group_here_Some in E as (post & -> & Hg & Hc).
  by exists "", post.
Qed.

(** The capture is the leftmost parenthesised part. *)
Lemma match_paren_group_leftmost (s pre g : string) :
  groupAt s pre g →
  (∀ pre' g', groupAt s pre' g' → (String.length pre ≤ String.length pre')%nat) →
  JsString.match_paren_group s = Some g.
Proof.
  revert pre. induction s as [|c r IH]; intros pre (post & E & Hg & Hc) Hmin.
  { by destruct pre. }
  destruct pre as [|d pre].
  - change ("" +:+ "(" +:+ g +:+ ")" +:+ post)
      with (String "(" (g +:+ ")" +:+ post)) in E.
    injection E as -> ->. simpl. by rewrite match_group_here_app.
  - rewrite append_cons in E. injection E as <- E.
    assert (Hr : JsString.match_paren_group r = Some g).
    { apply (IH pre); [by exists post|].
      intros pre' g' (post' & E' & Hg' & Hc').
      assert (groupAt (String c r) (String c pre') g') as H.
      { exists post'. by rewrite E'. }
      apply Hmin in H. simpl in H. lia. }
    simpl. destruct (Ascii.eqb_spec c "(") as [->|_]; [|done].
    destruct (JsString.match_group_here r) as [g0|] eqn:E0; [|done].
    apply match_group_here_Some in E0 as (post0 & E0 & Hg0 & Hc0).
    assert (groupAt (String "(" r) "" g0) as H by (exists post0; by rewrite E0).
    apply Hmin in H. simpl in H. lia.
Qed.

Lemma instrumentOf_none (v : VoiceResult) :
  (∀ pre g, ¬ groupAt (name v) pre g) → instrumentOf v = "".
Proof.
  intros H. unfold instrumentOf.
  destruct (JsString.match_paren_group (name v)) as [g|] eqn:E; [|done].
  apply match_paren_group_Some in E as (pre & E).
  by destruct (H pre g).
Qed.

Lemma instrumentOf_leftmost (v : VoiceResult) (pre g : string) :
  groupAt (name v) pre g →
  (∀ pre' g', groupAt (name v) pre' g' →
              (String.length pre ≤ String.length pre')%nat) →
  instrumentOf v = g.
Proof.
  intros Hg Hmin. unfold instrumentOf.
  rewrite (match_paren_group_leftmost _ _ _ Hg Hmin).
  destruct Hg as (_ & _ & Hg & _). by destruct g.
Qed.

(** ** The "instrument" order *)

Section InstrumentOrder.
Variable localeCompare : string → string → Z.

(** The locale comparison is a consistent comparator. *)
Hypothesis lc_refl : ∀ s, localeCompare s s = 0.
Hypothesis lc_antisym : ∀ a b, localeCompare a b < 0 ↔ 0 < localeCompare b a.
Hypothesis lc_trans :
  ∀ a b c, localeCompare a b < 0 → localeCompare b c < 0 → localeCompare a c < 0.

(** It tells the instruments of the voices at hand apart. *)
Variable vs : list VoiceResult.
Hypothesis lc_eq :
  ∀ a b, a ∈ vs → b ∈ vs →
         localeCompare (instrumentOf a) (instrumentOf b) = 0 →
         instrumentOf a = instrumentOf b.

Lemma lc_before (a b : VoiceResult) :
  a ∈ vs → b ∈ vs → instrumentOf a ≠ instrumentOf b →
  0 ≤ localeCompare (instrumentOf b) (instrumentOf a) →
  localeCompare (instrumentOf a) (instrumentOf b) < 0.
Proof.
  intros Ha Hb Hne H. apply lc_antisym.
  destruct (Z.eq_dec (localeCompare (instrumentOf b) (instrumentOf a)) 0)
    as [E|E]; [|lia].
  apply lc_eq in E; auto. congruence.
Qed.

Lemma compareInstrument_asym (x y : VoiceResult) :
  compareInstrument localeCompare x y < 0 →
  0 ≤ compareInstrument localeCompare y x.
Proof.
  unfold compareInstrument. rewrite (String.eqb_sym (instrumentOf y)).
  destruct (String.eqb_spec (instrumentOf x) (instrumentOf y)) as [E|E].
  - lia.
  - intros H. apply lc_antisym in H. lia.
Qed.

Lemma compareInstrument_trans (x y z : VoiceResult) :
  x ∈ vs → y ∈ vs → z ∈ vs →
  notAfter (compareInstrument localeCompare) x y →
  notAfter (compareInstrument localeCompare) y z →
  notAfter (compareInstrument localeCompare) x z.
Proof.
  intros Hx Hy Hz. unfold notAfter, compareInstrument.
  destruct (String.eqb_spec (instrumentOf y) (instrumentOf x)) as [Eyx|Nyx];
    destruct (String.eqb_spec (instrumentOf z) (instrumentOf y)) as [Ezy|Nzy];
    destruct (String.eqb_spec (instrumentOf z) (instrumentOf x)) as [Ezx|Nzx];
    try congruence; try lia.
  - intros Hxy Hyz. exfalso.
    apply lc_before in Hxy; [|done|done|congruence].
    apply lc_before in Hyz; [|done|done|congruence].
    pose proof (lc_trans _ _ _ Hxy Hyz) as H. rewrite Ezx, lc_refl in H. lia.
  - intros Hxy Hyz.
    apply lc_before in Hxy; [|done|done|congruence].
    apply lc_before in Hyz; [|done|done|congruence].
    pose proof (lc_trans _ _ _ Hxy Hyz) as H. apply lc_antisym in H. lia.
Qed.

Lemma notAfter_instrumentOrder (a b : VoiceResult) :
  a ∈ vs → b ∈ vs →
  notAfter (compareInstrument localeCompare) a b →
  instrumentOrder localeCompare a b.
Proof.
  intros Ha Hb. unfold notAfter, compareInstrument, instrumentOrder.
  destruct (String.eqb_spec (instrumentOf b) (instrumentOf a)) as [E|N].
  - rewrite E, lc_refl. intros H. split; [done|]. intros _. lia.
  - intros H. apply lc_before in H; [|done|done|congruence].
    split; [lia|congruence].
Qed.

Lemma sortOthers_instrument_sorted (l : list VoiceResult) :
  l ⊆ vs →
  StronglySorted (instrumentOrder localeCompare)
    (sortOthers localeCompare "instrument" l).
Proof.
  intros Hsub.
  change (sortOthers localeCompare "instrument" l)
    with (Array_sort (compareInstrument localeCompare) l).
  assert (Hin : Forall (λ v, v ∈ vs) (Array_sort (compareInstrument localeCompare) l)).
  { rewrite Array_sort_perm. by apply Forall_forall. }
  assert (Hl : Forall (λ v, v ∈ vs) l) by (by apply Forall_forall).
  pose proof (Array_sort_sorted (compareInstrument localeCompare)
                (λ v, v ∈ vs)
                (λ x y _ _, compareInstrument_asym x y)
                compareInstrument_trans l Hl) as H.
  induction H as [|x t Ht IH Hx]; [constructor|].
  apply Forall_cons in Hin as [Hxin Htin].
  constructor; [by apply IH|].
  rewrite Forall_forall in Hx, Htin |- *. intros y Hy.
  apply notAfter_instrumentOrder; auto.
Qed.


(** C5, as the code has it.  With the "instrument" key the answer is the
    melody voices followed by the other voices, and among these every voice
    stands before the voices whose instrument the locale comparison puts
    later, and before the voices of its own instrument that have no more
    notes, provided the locale comparison ties no two different instruments
    of the voices.  The instrument is the leftmost parenthesised part of
    the name that is not empty, and the empty string when the name has no
    such part. *)
Theorem getSortedVoices_instrument_order (h : heap) (l : loc) :
  h !! l = Some vs →
  (∃ r h' others,
     getSortedVoices localeCompare (Some l) "instrument" h = Some (r, h')
     ∧ h' !! r = Some (filter melodyVoice vs ++ others)
     ∧ others ≡ₚ filter (λ v, ¬ melodyVoice v) vs
     ∧ StronglySorted (instrumentOrder localeCompare) others)
  ∧ (∀ v pre g,
       groupAt (name v) pre g →
       (∀ pre' g', groupAt (name v) pre' g' →
                   (String.length pre ≤ String.length pre')%nat) →
       instrumentOf v = g)
  ∧ (∀ v, (∀ pre g, ¬ groupAt (name v) pre g) → instrumentOf v = "").
Proof.
  intros Hl. split; [|split].
  - destruct (getSortedVoices_run localeCompare h l vs "instrument" Hl)
      as (r & h' & E & _ & Hr & _).
    exists r, h', (sortOthers localeCompare "instrument" (List.filter isOther vs)).
    split_and!; auto.
    + rewrite Hr, arranged_split.
      by rewrite (filter_bool_stdpp isMelody melodyVoice) by apply isMelody_spec.
    + rewrite sortOthers_perm.
      by rewrite (filter_bool_stdpp isOther (λ v, ¬ melodyVoice v))
        by apply isOther_spec.
    + apply sortOthers_instrument_sorted.
      intros v Hv. apply list_elem_of_In, List.filter_In in Hv as [Hv _].
      by apply list_elem_of_In.
  - apply instrumentOf_leftmost.
  - apply instrumentOf_none.
Qed.
End InstrumentOrder.

(** The claim as it is worded fails when the locale comparison ties two
    different instrument names.  The three voices have one instrument, in
    two canonically equivalent spellings; each voice ties with its
    neighbour, so the array is left as it is, and the first voice stands
    before the third, which has the same instrument in the same spelling and
    more notes.  (The order is the one of the insertion above; it is also
    what an engine answers that first looks for a run of neighbours in
    order.)  Besides, a parenthesised part that is empty is passed over: the
    instrument of a name with "()" in front is the next part. *)
Lemma getSortedVoices_instrument_order_ties :
  let a := sampleVoice ("화음1 (Caf" +:+ e_acute +:+ ")") "a" 1 0 in
  let b := sampleVoice ("화음2 (Caf" +:+ e_combining_acute +:+ ")") "b" 1 0 in
  let c := sampleVoice ("화음3 (Caf" +:+ e_acute +:+ ")") "c" 2 0 in
  instrumentOf a ≠ instrumentOf b
  ∧ canonCompare (instrumentOf a) (instrumentOf b) = 0
  ∧ canonCompare (instrumentOf b) (instrumentOf c) = 0
  ∧ (∃ r h',
       getSortedVoices canonCompare (Some 1%positive) "instrument"
         {[ 1%positive := [a; b; c] ]} = Some (r, h')
       ∧ h' !! r = Some [a; b; c])
  ∧ instrumentOf a = instrumentOf c
  ∧ note_count a < note_count c
  ∧ ¬ StronglySorted (instrumentOrder canonCompare) [a; b; c]
  ∧ instrumentOf (sampleVoice "화음4 () (Piano)" "d" 1 0) = "Piano"%string.
Proof.
  intros a b c. split_and!; try by vm_compute.
  - by eexists _, _.
  - intros H. apply StronglySorted_cons in H as [H _].
    apply Forall_cons in H as [_ H]. apply Forall_cons in H as [[_ H] _].
    specialize (H eq_refl). simpl in H. lia.
Qed.

(** The byte-wise comparison has the properties asked of a locale. *)
Lemma byteCompare_refl (s : string) : byteCompare s s = 0.
Proof.
  unfold byteCompare.
  assert (String.compare s s = Eq) as ->; [|done].
  induction s as [|c s IH]; simpl; [done|].
  unfold Ascii.compare. by rewrite N.compare_refl.
Qed.

Lemma byteCompare_antisym (a b : string) :
  byteCompare a b < 0 ↔ 0 < byteCompare b a.
Proof.
  unfold byteCompare. rewrite (String.compare_antisym a b).
  destruct (String.compare b a); simpl; lia.
Qed.

Lemma byteCompare_eq (a b : string) : byteCompare a b = 0 → a = b.
Proof.
  unfold byteCompare. destruct (String.compare a b) eqn:E; try lia.
  intros _. by apply String.compare_eq_iff.
Qed.

Lemma byteCompare_lt (a b : string) :
  byteCompare a b < 0 ↔ String.le a b ∧ a ≠ b.
Proof.
  unfold byteCompare, String.le, String.leb.
  destruct (String.compare a b) eqn:E; simpl.
  - apply String.compare_eq_iff in E. split; [lia|]. intros [_ ?]. done.
  - split; [|lia]. intros _. split; [done|]. intros ->.
    pose proof (byteCompare_refl b) as H. unfold byteCompare in H.
    rewrite E in H. lia.
  - split; [lia|]. intros [[] _].
Qed.

Lemma byteCompare_trans (a b c : string) :
  byteCompare a b < 0 → byteCompare b c < 0 → byteCompare a c < 0.
Proof.
  rewrite !byteCompare_lt. intros [Hab Nab] [Hbc Nbc]. split.
  - by etrans.
  - intros ->. apply Nab. by apply (anti_symm String.le).
Qed.

Lemma getSortedVoices_instrument_order_witness :
  sampleHeap !! 1%positive = Some sampleVoices
  ∧ ∃ r h' others,
      getSortedVoices byteCompare (Some 1%positive) "instrument" sampleHeap
        = Some (r, h')
      ∧ h' !! r = Some (filter melodyVoice sampleVoices ++ others)
      ∧ others ≡ₚ filter (λ v, ¬ melodyVoice v) sampleVoices
      ∧ StronglySorted (instrumentOrder byteCompare) others.
Proof.
  split; [reflexivity|].
  apply (getSortedVoices_instrument_order byteCompare byteCompare_refl
           byteCompare_antisym byteCompare_trans sampleVoices
           (λ a b _ _, byteCompare_eq _ _) sampleHeap 1%positive).
  reflexivity.
Defined.

(** ** convertFile *)


(** ** Answers that arrive later *)

Lemma shownVoices_no_result (localeCompare : string → string → Z) (st : State) :
  result st = None → shownVoices localeCompare st = [].
Proof. intros H. unfold shownVoices. by rewrite H. Qed.

Lemma handleFileDrop_start_result (paths : list string) (st : State) :
  result (handleFileDrop_start paths st).1 = result st
  ∨ result (handleFileDrop_start paths st).1 = None.
Proof.
  unfold handleFileDrop_start. destruct paths as [|p rest]; [by left|].
  destruct (_ && _)%bool; [by left|by right].
Qed.

Section InterleavingFacts.
Variable localeCompare : string → string → Z.

Lemma interleaved_cons_fst (env : Env) (t : Tick) (ticks : list (Env * Tick))
    (pg : Page) :
  (interleaved localeCompare ((env, t) :: ticks) pg).1
  = (interleaved localeCompare ticks (tick localeCompare env t pg).1).1.
Proof.
  simpl. destruct (tick localeCompare env t pg) as [pg1 e1]. simpl.
  by destruct (interleaved localeCompare ticks pg1).
Qed.

Lemma interleaved_app_fst (ticks1 ticks2 : list (Env * Tick)) (pg : Page) :
  (interleaved localeCompare (ticks1 ++ ticks2) pg).1
  = (interleaved localeCompare ticks2
       (interleaved localeCompare ticks1 pg).1).1.
Proof.
  revert pg. induction ticks1 as [|[env t] rest IH]; intros pg; [done|].
  rewrite <- app_comm_cons, !interleaved_cons_fst. apply IH.
Qed.

(** The only answer that stores a result is the answer of the engine to a
    conversion that succeeded; any other leaves [result] as it is or sets it
    to null. *)
Lemma resume_result (env : Env) (t : Pending) (st : State) :
  result (resume env t st).1.1 = result st
  ∨ result (resume env t st).1.1 = None
  ∨ ∃ args cr, t = AwaitInvoke args
               ∧ invoke env "convert_midi" args = Resolved cr
               ∧ success cr = true
               ∧ result (resume env t st).1.1 = Some cr.
Proof.
  destruct t as [|p|p|args|c idx]; unfold resume.
  - destruct (openDialog env) as [[|p|ps]|e]; try by left.
    destruct (JsString.truthy p); [|by left].
    destruct (handleFileDrop_start_result [p] st) as [H|H];
      destruct (handleFileDrop_start [p] st) as [st' ts]; auto.
  - destruct (importFs env); by left.
  - destruct (readFile env p); by left.
  - destruct (invoke env "convert_midi" args) as [cr|e] eqn:E; [|by left].
    destruct (success cr) eqn:Es; [|by left]. right. right. by exists args, cr.
  - destruct (writeText env c); by left.
Qed.

Lemma tick_result (env : Env) (t : Tick) (pg : Page) :
  result (vars (tick localeCompare env t pg).1) = result (vars pg)
  ∨ result (vars (tick localeCompare env t pg).1) = None
  ∨ storesResult env t pg = true.
Proof.
  destruct t as [[[paths| | |]| |idx| |m|n|k|]|i]; unfold tick, storesResult.
  - destruct (handleFileDrop_start_result paths (set_isDragging false (vars pg)))
      as [H|H]; destruct (handleFileDrop_start _ _); auto.
  - by left.
  - by left.
  - by left.
  - destruct (result (vars pg)) eqn:E; by left.
  - destruct (shownVoices localeCompare (vars pg) !! idx); by left.
  - unfold step. destruct (result (vars pg)) eqn:E; auto.
  - unfold step. destruct (result (vars pg)) eqn:E; auto.
  - unfold step. destruct (result (vars pg)) eqn:E; auto.
  - unfold step. destruct (result (vars pg)) as [r|] eqn:E; auto.
    destruct (0 <? length (voices r))%nat; auto.
  - by left.
  - destruct (waiting pg !! i) as [t|] eqn:Ew; [|by left].
    destruct (resume_result env t (vars pg))
      as [H|[H|(args & cr & -> & E & Es & _)]];
      [destruct (resume env t (vars pg)) as [[st effs] ts]; auto..|].
    right. right. by rewrite E.
Qed.

(** A result that is stored is a successful one. *)
Lemma tick_result_successful (env : Env) (t : Tick) (pg : Page) :
  (∀ r, result (vars pg) = Some r → success r = true) →
  ∀ r, result (vars (tick localeCompare env t pg).1) = Some r →
       success r = true.
Proof.
  intros Hpg r. destruct (tick_result env t pg) as [H|[H|H]].
  - rewrite H. apply Hpg.
  - by rewrite H.
  - destruct t as [ev|i]; [done|]. unfold storesResult in H. unfold tick.
    destruct (waiting pg !! i) as [t|] eqn:Ew; [|done].
    destruct (resume_result env t (vars pg))
      as [Hr|[Hr|(args & cr & -> & E & Es & Hr)]];
      destruct (resume env _ (vars pg)) as [[st effs] ts];
      cbn [fst snd vars] in *; rewrite Hr; [apply Hpg|done|].
    by intros [= <-].
Qed.

Lemma interleaved_result_successful (ticks : list (Env * Tick)) (pg : Page) :
  (∀ r, result (vars pg) = Some r → success r = true) →
  ∀ r, result (vars (interleaved localeCompare ticks pg).1) = Some r →
       success r = true.
Proof.
  revert pg. induction ticks as [|[env t] rest IH]; intros pg Hpg; [done|].
  rewrite interleaved_cons_fst. apply IH. by apply tick_result_successful.
Qed.

(** While no result is stored, a result that is null stays null. *)
Lemma quiet_result (ticks : list (Env * Tick)) (pg : Page) :
  result (vars pg) = None → quiet localeCompare ticks pg = true →
  result (vars (interleaved localeCompare ticks pg).1) = None.
Proof.
  revert pg. induction ticks as [|[env t] rest IH]; intros pg Hr Hq; [done|].
  simpl in Hq. apply andb_true_iff in Hq as [Hs Hq].
  apply negb_true_iff in Hs.
  rewrite interleaved_cons_fst. apply IH; [|done].
  destruct (tick_result env t pg) as [H|[H|H]]; congruence.
Qed.
End InterleavingFacts.

(** C3, as the code has it.  A conversion waits for the engine, and the
    engine answers with a result whose [success] is false.  Then the
    conversion ends: the spinner is off, the error message is the answered
    error string itself whenever that string is neither null nor empty, and
    [result] is left as it is at that moment.  It is null, and no voice is
    shown, when it was null at some earlier moment, such as the start of the
    conversion ([convertFile_start]), and no answer stored a result since:
    in particular when no other conversion runs meanwhile.  In any case the
    result on display is not the failed answer: in a session that starts
    without a failed result on display, a result on display is a successful
    one. *)
Theorem convertFile_failure (localeCompare : string → string → Z)
    (ticks : list (Env * Tick)) (pg0 : Page) (env : Env) (i : nat)
    (args : ConvertArgs) (cr : ConversionResult) :
  let pg := (interleaved localeCompare ticks pg0).1 in
  waiting pg !! i = Some (AwaitInvoke args) →
  invoke env "convert_midi" args = Resolved cr →
  success cr = false →
  let pg' := (tick localeCompare env (Settle i) pg).1 in
  isConverting (vars pg') = false
  ∧ (∀ e, error cr = Some e → e ≠ "" → errorMessage (vars pg') = e)
  ∧ result (vars pg') = result (vars pg)
  ∧ waiting pg' = delete i (waiting pg)
  ∧ (tick localeCompare env (Settle i) pg).2 = []
  ∧ (result (vars pg0) = None → quiet localeCompare ticks pg0 = true →
     result (vars pg') = None ∧ shownVoices localeCompare (vars pg') = [])
  ∧ (∀ filePath st, result (convertFile_start filePath st).1 = None)
  ∧ ((∀ r, result (vars pg0) = Some r → success r = true) →
     result (vars pg') ≠ Some cr
     ∧ ∀ r, result (vars pg') = Some r → success r = true).
Proof.
  intros pg Hw Hans Hfail pg'.
  assert (E : tick localeCompare env (Settle i) pg
              = ({| vars := set_isConverting false
                              (set_errorMessage (error_or_default (error cr))
                                 (vars pg));
                    waiting := delete i (waiting pg) ++ [] |}, [])).
  { unfold tick. rewrite Hw. unfold resume. by rewrite Hans, Hfail. }
  unfold pg'. rewrite E. cbn [fst snd vars waiting].
  split_and!; try done.
  - intros e -> He. simpl. by destruct e.
  - apply app_nil_r.
  - intros H0 Hq.
    assert (result (vars pg) = None) as Hr by (by apply quiet_result).
    split; [done|]. by apply shownVoices_no_result.
  - intros H0.
    pose proof (interleaved_result_successful localeCompare ticks pg0 H0) as H.
    split; [|exact H]. intros Hcr. apply H in Hcr. congruence.
Qed.

Lemma convertFile_failure_witness :
  let env := sampleEnv sampleFailure in
  let ticks := [ (env, Ui (DragDrop (DdDrop ["song.mid"%string])));
                 (env, Settle 0%nat); (env, Settle 0%nat) ] in
  let pg := (interleaved byteCompare ticks initialPage).1 in
  let pg' := (tick byteCompare env (Settle 0%nat) pg).1 in
  waiting pg = [AwaitInvoke sampleArgs]
  ∧ isConverting (vars pg') = false
  ∧ errorMessage (vars pg') = "MalformedHeader"%string
  ∧ result (vars pg') = None
  ∧ shownVoices byteCompare (vars pg') = [].
Proof.
  intros env ticks pg pg'.
  destruct (convertFile_failure byteCompare ticks initialPage env 0%nat
              sampleArgs sampleFailure)
    as (H1 & H2 & _ & _ & _ & H3 & _ & _); [reflexivity..|].
  destruct H3 as [H3 H4]; [reflexivity..|].
  split_and!; [reflexivity|exact H1| |exact H3|exact H4].
  apply H2; [reflexivity|discriminate].
Defined.

(** The claim as it is worded fails when two conversions overlap.  A file
    is dropped and read slowly; a second file is dropped meanwhile, and its
    conversion succeeds; then the first file reaches the engine, which
    answers with a failure.  When the first conversion ends, the result of
    the second is on display with its voices, and the error message, set to
    the answered error, is not shown, because the template renders it only
    without a result. *)
Lemma convertFile_failure_overlap :
  let envA := sampleEnv sampleFailure in
  let envB := sampleEnv sampleSuccess in
  let ticks := [ (envA, Ui (DragDrop (DdDrop ["a.mid"%string])));
                 (envA, Settle 0%nat);
                 (envB, Ui (DragDrop (DdDrop ["b.mid"%string])));
                 (envB, Settle 1%nat); (envB, Settle 1%nat);
                 (envB, Settle 1%nat);
                 (envA, Settle 0%nat) ] in
  let pg := (interleaved byteCompare ticks initialPage).1 in
  let pg' := (tick byteCompare envA (Settle 0%nat) pg).1 in
  waiting pg = [AwaitInvoke sampleArgs]
  ∧ invoke envA "convert_midi" sampleArgs = Resolved sampleFailure
  ∧ success sampleFailure = false
  ∧ waiting pg' = []
  ∧ result (vars pg') = Some sampleSuccess
  ∧ shownVoices byteCompare (vars pg') ≠ []
  ∧ errorMessage (vars pg') = "MalformedHeader"%string.
Proof. vm_compute. split_and!; done. Qed.


(** ** The options of a conversion request *)



(** Membership in a list of effects that is written out. *)
Ltac effect_cases H :=
  repeat (apply elem_of_cons in H as [H|H]);
  [try discriminate H .. | apply elem_of_nil in H; contradiction].


Lemma copyToClipboard_effects (env : Env) (text : string) (index : Z)
    (st : State) (eff : Effect) :
  eff ∈ (copyToClipboard env text index st).2 →
  eff = ClipboardWriteText text ∨ eff = SetTimeout 2000.
Proof.
  unfold copyToClipboard. intros H.
  destruct (writeText env text); simpl in H; effect_cases H; auto.
Qed.


Lemma run_cons_fst (localeCompare : string → string → Z) (env : Env)
    (ev : Event) (evs : list (Env * Event)) (st : State) :
  (run localeCompare ((env, ev) :: evs) st).1
  = (run localeCompare evs (step localeCompare env ev st).1).1.
Proof.
  simpl. destruct (step localeCompare env ev st) as [st1 e1]. simpl.
  by destruct (run localeCompare evs st1).
Qed.



(** ** The copy buttons *)

(** C6.  Pressing the copy button of a shown voice asks the clipboard to
    hold the content of that voice, unchanged, and nothing else. *)
Theorem copy_button_writes_content (localeCompare : string → string → Z)
    (env : Env) (st : State) (idx : nat) (voice : VoiceResult) :
  shownVoices localeCompare st !! idx = Some voice →
  ∃ st' rest,
    step localeCompare env (ClickCopy idx) st
      = (st', ClipboardWriteText (content voice) :: rest)
    ∧ ∀ text, ClipboardWriteText text
                ∈ (step localeCompare env (ClickCopy idx) st).2 →
              text = content voice.
Proof.
  intros Hv. simpl. rewrite Hv. split_and?.
  assert (∃ st' rest, copyToClipboard env (content voice) (Z.of_nat idx) st
                      = (st', ClipboardWriteText (content voice) :: rest))
    as (st' & rest & E).
  { unfold copyToClipboard. destruct (writeText env (content voice)); eauto. }
  exists st', rest. split; [done|].
  intros text [[= ->]|[=]]%copyToClipboard_effects. done.
Qed.

Lemma copy_button_writes_content_witness :
  shownVoices byteCompare sampleShown !! 2%nat
    = Some (sampleVoice "화음2 (Violin)" "t120o3g2" 7 (40 # 10))
  ∧ ∃ st' rest,
      step byteCompare (sampleEnv sampleSuccess) (ClickCopy 2) sampleShown
        = (st', ClipboardWriteText "t120o3g2" :: rest)
      ∧ ∀ text, ClipboardWriteText text
                  ∈ (step byteCompare (sampleEnv sampleSuccess) (ClickCopy 2)
                       sampleShown).2 →
                text = "t120o3g2"%string.
Proof.
  split; [reflexivity|].
  apply (copy_button_writes_content byteCompare (sampleEnv sampleSuccess)
           sampleShown 2 (sampleVoice "화음2 (Violin)" "t120o3g2" 7 (40 # 10))).
  reflexivity.
Defined.

(** ** Suffixes and letter case *)

Lemma append_nil_r (s : string) : s +:+ "" = s.
Proof. induction s as [|c s IH]; [done|]. by rewrite append_cons, IH. Qed.

Lemma append_assoc (a b c : string) : (a +:+ b) +:+ c = a +:+ b +:+ c.
Proof.
  induction a as [|x a IH]; [done|]. by rewrite !append_cons, IH.
Qed.

Lemma rev_app_spec (s t : string) : String.rev_app s t = String.rev s +:+ t.
Proof.
  revert t. induction s as [|c s IH]; intros t; [done|].
  unfold String.rev. simpl. rewrite (IH (String c "")), IH.
  by rewrite append_assoc.
Qed.

Lemma rev_cons (c : ascii) (s : string) :
  String.rev (String c s) = String.rev s +:+ String c "".
Proof. unfold String.rev at 1. simpl. apply rev_app_spec. Qed.

Lemma rev_append (a b : string) :
  String.rev (a +:+ b) = String.rev b +:+ String.rev a.
Proof.
  induction a as [|c a IH].
  - change ("" +:+ b) with b. by rewrite append_nil_r.
  - by rewrite append_cons, !rev_cons, IH, append_assoc.
Qed.

Lemma rev_involutive (s : string) : String.rev (String.rev s) = s.
Proof.
  induction s as [|c s IH]; [done|].
  by rewrite rev_cons, rev_append, IH.
Qed.

Lemma endsWith_spec (s p : string) :
  JsString.endsWith s p = true ↔ ∃ pre, s = pre +:+ p.
Proof.
  unfold JsString.endsWith. rewrite prefix_spec. split.
  - intros [r Hr]. exists (String.rev r).
    by rewrite <- (rev_involutive s), Hr, rev_append, rev_involutive.
  - intros [pre ->]. exists (String.rev pre). apply rev_append.
Qed.

Lemma toLowerCase_append (a b : string) :
  JsString.toLowerCase (a +:+ b)
  = JsString.toLowerCase a +:+ JsString.toLowerCase b.
Proof.
  induction a as [|c a IH]; [done|].
  rewrite append_cons. simpl. by rewrite IH.
Qed.

Lemma toLowerCase_split (s a' b' : string) :
  JsString.toLowerCase s = a' +:+ b' →
  ∃ a b, s = a +:+ b ∧ JsString.toLowerCase a = a'
         ∧ JsString.toLowerCase b = b'.
Proof.
  revert s. induction a' as [|c a' IH]; intros s H.
  - by exists "", s.
  - destruct s as [|d s]; [done|].
    rewrite append_cons in H. simpl in H. injection H as Hc Hs.
    destruct (IH s Hs) as (a & b & -> & Ha & Hb).
    exists (String d a), b. split_and!; auto. simpl. by rewrite Hc, Ha.
Qed.

(** The test of [handleFileDrop] is the test for a MIDI path. *)
Lemma midiPath_spec (p : string) :
  (negb (JsString.endsWith (JsString.toLowerCase p) ".mid")
   && negb (JsString.endsWith (JsString.toLowerCase p) ".midi"))%bool = false
  ↔ midiPath p.
Proof.
  rewrite andb_false_iff, !negb_false_iff, !endsWith_spec. unfold midiPath.
  split.
  - intros [[pre H]|[pre H]];
      apply toLowerCase_split in H as (a & b & -> & _ & Hb); eauto.
  - intros (pre & suf & -> & [H|H]); [left|right];
      exists (JsString.toLowerCase pre); by rewrite toLowerCase_append, H.
Qed.

(** ** handleFileDrop *)

(** The calls in the handlers are the calls of [dropCall]. *)
Lemma onDragDropEvent_dropCall (env : Env) (paths : list string) (st : State) :
  ∃ st', dropCall paths st'
         ∧ onDragDropEvent env (DdDrop paths) st = handleFileDrop env paths st'.
Proof. exists (set_isDragging false st). split; [constructor|done]. Qed.

Lemma handleFileSelect_dropCall (env : Env) (st : State) (p : string) :
  openDialog env = Resolved (SelPath p) → JsString.truthy p = true →
  dropCall [p] st
  ∧ handleFileSelect env st
    = ((handleFileDrop env [p] st).1, DialogOpen :: (handleFileDrop env [p] st).2).
Proof.
  intros E Hp. split; [by constructor|].
  unfold handleFileSelect. rewrite E, Hp.
  by destruct (handleFileDrop env [p] st).
Qed.

(** C9.  At every call the program makes, [handleFileDrop] starts a
    conversion exactly when the first path is a MIDI path.  For any other
    first path it sets the error message to the fixed text and calls
    nothing; the result and the file name stay as they were.  For an empty
    list it does nothing: the dragging flag, which the function clears in
    its first statement, has been cleared by the listener before. *)
Theorem handleFileDrop_cases (env : Env) (paths : list string) (st : State) :
  dropCall paths st →
  (paths = [] → handleFileDrop env paths st = (st, []))
  ∧ (∀ p rest, paths = p :: rest → ¬ midiPath p →
       let st' := (handleFileDrop env paths st).1 in
       (handleFileDrop env paths st).2 = []
       ∧ errorMessage st' = NOT_MIDI
       ∧ result st' = result st ∧ fileName st' = fileName st
       ∧ st' = set_errorMessage NOT_MIDI (set_isDragging false st))
  ∧ (∀ p rest, paths = p :: rest → midiPath p →
       handleFileDrop env paths st
       = convertFile env p
           (set_fileName (JsString.last_segment p) (set_isDragging false st)))
  ∧ ((handleFileDrop env paths st).2 ≠ [] →
     ∃ p rest, paths = p :: rest ∧ midiPath p).
Proof.
  intros Hcall.
  assert (Hseg : ∀ p, (if JsString.truthy (JsString.last_segment p)
                       then JsString.last_segment p else "")
                      = JsString.last_segment p).
  { intros p. by destruct (JsString.last_segment p). }
  split_and!.
  - intros ->. inversion Hcall as [paths' st0 E1 E2|]. reflexivity.
  - intros p rest -> Hp. unfold handleFileDrop.
    destruct (_ && _)%bool eqn:E; [done|]. by apply midiPath_spec in E.
  - intros p rest -> Hp. unfold handleFileDrop.
    apply midiPath_spec in Hp. rewrite Hp. by rewrite Hseg.
  - destruct paths as [|p rest]; [done|]. intros H. exists p, rest.
    split; [done|]. apply midiPath_spec. unfold handleFileDrop in H.
    by destruct (_ && _)%bool.
Qed.

Lemma handleFileDrop_cases_witness :
  let env := sampleEnv sampleSuccess in
  let st := set_isDragging false (set_isDragging true sampleShown) in
  let st' := (handleFileDrop env ["C:\music\song.txt"%string] st).1 in
  handleFileDrop env [] st = (st, [])
  ∧ (handleFileDrop env ["C:\music\song.txt"%string] st).2 = []
  ∧ errorMessage st' = NOT_MIDI
  ∧ result st' = result st ∧ fileName st' = fileName st
  ∧ st' = set_errorMessage NOT_MIDI (set_isDragging false st).
Proof.
  intros env st. split.
  - refine (proj1 (handleFileDrop_cases env [] st _) eq_refl).
    apply (call_listener [] (set_isDragging true sampleShown)).
  - refine (proj1 (proj2 (handleFileDrop_cases env ["C:\music\song.txt"%string]
                            st _))
              "C:\music\song.txt"%string [] eq_refl _).
    + apply (call_listener _ (set_isDragging true sampleShown)).
    + rewrite <- midiPath_spec. vm_compute. discriminate.
Defined.

(** ** Decimal digits *)

Lemma digits_fuel_enough (f1 f2 : nat) (n : Z) :
  0 ≤ n → n < 2 ^ Z.of_nat (S f1) → n < 2 ^ Z.of_nat (S f2) →
  JsNumber.digits_fuel (S f1) n = JsNumber.digits_fuel (S f2) n.
Proof.
  revert f2 n. induction f1 as [|f1 IH]; intros f2 n Hn H1 H2.
  - simpl. destruct (n <? 10) eqn:E; [by destruct f2|].
    apply Z.ltb_ge in E. change (2 ^ Z.of_nat 1) with 2 in H1. lia.
  - cbn [JsNumber.digits_fuel]. destruct (n <? 10) eqn:E; [done|].
    apply Z.ltb_ge in E. f_equal.
    assert (Hdiv : n / 10 < 2 ^ Z.of_nat (S f1)).
    { rewrite Nat2Z.inj_succ, Z.pow_succ_r in H1 by lia.
      apply Z.div_lt_upper_bound; lia. }
    destruct f2 as [|f2].
    { change (2 ^ Z.of_nat 1) with 2 in H2. lia. }
    apply IH; [apply Z.div_pos; lia|done|].
    rewrite (Nat2Z.inj_succ (S f2)), Z.pow_succ_r in H2 by lia.
    apply Z.div_lt_upper_bound; lia.
Qed.

Lemma log2_fuel (n : Z) : 0 ≤ n → n < 2 ^ Z.of_nat (S (Z.to_nat (Z.log2 n))).
Proof.
  intros Hn. rewrite Nat2Z.inj_succ, Z2Nat.id by apply Z.log2_nonneg.
  destruct (Z.eq_dec n 0) as [->|Hne]; [done|].
  apply Z.log2_spec. lia.
Qed.

Lemma digits_small (n : Z) : n < 10 → JsNumber.digits n = [n].
Proof.
  intros H. unfold JsNumber.digits. simpl.
  by apply Z.ltb_lt in H as ->.
Qed.

Lemma digits_step (n : Z) :
  10 ≤ n → JsNumber.digits n = JsNumber.digits (n / 10) ++ [n mod 10].
Proof.
  intros H. unfold JsNumber.digits at 1. cbn [JsNumber.digits_fuel].
  apply Z.ltb_ge in H as E. rewrite E. f_equal.
  pose proof (log2_fuel n ltac:(lia)) as Hf.
  assert (0 < Z.log2 n) by (apply Z.log2_pos; lia).
  destruct (Z.to_nat (Z.log2 n)) as [|k] eqn:Ek; [lia|].
  unfold JsNumber.digits. apply digits_fuel_enough.
  - apply Z.div_pos; lia.
  - rewrite (Nat2Z.inj_succ (S k)), Z.pow_succ_r in Hf by lia.
    apply Z.div_lt_upper_bound; lia.
  - apply log2_fuel. apply Z.div_pos; lia.
Qed.

(** Induction along the digits of a number. *)
Lemma digits_ind (P : Z → Prop) :
  (∀ n, 0 ≤ n < 10 → P n) →
  (∀ n, 10 ≤ n → P (n / 10) → P n) →
  ∀ n, 0 ≤ n → P n.
Proof.
  intros Hsmall Hstep. apply (Zlt_0_ind P). intros n IH Hn0.
  destruct (Z_lt_dec n 10) as [Hlt|Hge]; [apply Hsmall; lia|].
  apply Hstep; [lia|]. apply IH.
  split; [apply Z.div_pos; lia|apply Z.div_lt_upper_bound; lia].
Qed.

Lemma digits_range (n : Z) :
  0 ≤ n → Forall (λ d, 0 ≤ d < 10) (JsNumber.digits n).
Proof.
  revert n. apply digits_ind.
  - intros n Hn. rewrite digits_small by lia. by constructor.
  - intros n Hn IH. rewrite digits_step by done.
    apply Forall_app. split; [done|].
    constructor; [|done]. apply Z.mod_pos_bound. lia.
Qed.

Lemma digits_value (n : Z) :
  0 ≤ n → JsNumber.value_of_digits (JsNumber.digits n) = n.
Proof.
  revert n. apply digits_ind; unfold JsNumber.value_of_digits.
  - intros n Hn. rewrite digits_small by lia. simpl. lia.
  - intros n Hn IH. rewrite digits_step by done.
    rewrite fold_left_app, IH. simpl.
    pose proof (Z.div_mod n 10). lia.
Qed.

Lemma digits_length (k : nat) (n : Z) :
  0 ≤ n → n < 10 ^ Z.of_nat (S k) → (length (JsNumber.digits n) ≤ S k)%nat.
Proof.
  revert n. induction k as [|k IH]; intros n Hn Hlt.
  - change (10 ^ Z.of_nat 1) with 10 in Hlt. rewrite digits_small by done.
    simpl. lia.
  - destruct (Z_lt_dec n 10) as [Hs|Hs].
    { rewrite digits_small by done. simpl. lia. }
    rewrite digits_step by lia. rewrite length_app. simpl.
    assert (length (JsNumber.digits (n / 10)) ≤ S k)%nat; [|lia].
    apply IH; [apply Z.div_pos; lia|].
    rewrite (Nat2Z.inj_succ (S k)), Z.pow_succ_r in Hlt by lia.
    apply Z.div_lt_upper_bound; lia.
Qed.

Lemma digits_nonempty (n : Z) : 0 ≤ n → JsNumber.digits n ≠ [].
Proof.
  intros Hn. destruct (Z_lt_dec n 10).
  - by rewrite digits_small.
  - rewrite digits_step by lia. by destruct (JsNumber.digits (n / 10)).
Qed.

Lemma digitChar_digit (d : Z) :
  0 ≤ d < 10 →
  JsNumber.isDigit (JsNumber.digitChar d) = true
  ∧ JsNumber.digitVal (JsNumber.digitChar d) = d.
Proof.
  intros H.
  assert (d = 0 ∨ d = 1 ∨ d = 2 ∨ d = 3 ∨ d = 4 ∨ d = 5 ∨ d = 6 ∨ d = 7
          ∨ d = 8 ∨ d = 9) as Hd by lia.
  repeat destruct Hd as [->|Hd]; try subst d; by vm_compute.
Qed.

Lemma digit_prefix_digits (ds : list Z) :
  Forall (λ d, 0 ≤ d < 10) ds →
  JsNumber.digit_prefix (JsNumber.string_of_digits ds) = ds.
Proof.
  unfold JsNumber.string_of_digits.
  induction 1 as [|d ds Hd _ IH]; [done|].
  rewrite fmap_cons. cbn [string_of_list_ascii JsNumber.digit_prefix].
  destruct (digitChar_digit d Hd) as [-> ->]. by rewrite IH.
Qed.

(** A digit or a minus sign is no white space. *)
Lemma skip_space_digit (d : Z) (r : string) :
  0 ≤ d < 10 → JsNumber.skip_space (String (JsNumber.digitChar d) r) = None.
Proof.
  intros H.
  assert (d = 0 ∨ d = 1 ∨ d = 2 ∨ d = 3 ∨ d = 4 ∨ d = 5 ∨ d = 6 ∨ d = 7
          ∨ d = 8 ∨ d = 9) as Hd by lia.
  repeat destruct Hd as [->|Hd]; try subst d;
    by destruct r as [|c2 [|c3 r]].
Qed.

Lemma trimStart_no_space (s : string) :
  JsNumber.skip_space s = None → JsNumber.trimStart s = s.
Proof.
  intros H. unfold JsNumber.trimStart.
  destruct (String.length s); simpl; [done|]. by rewrite H.
Qed.

Lemma parseInt10_decimal (n : Z) :
  0 ≤ n → JsNumber.parseInt10 (JsNumber.decimal n) = JsNumber.ofInteger 1 n.
Proof.
  intros Hn. unfold JsNumber.parseInt10, JsNumber.decimal.
  pose proof (digits_range n Hn) as Hr.
  pose proof (digits_nonempty n Hn) as Hne.
  pose proof (digits_value n Hn) as Hv.
  pose proof (digit_prefix_digits _ Hr) as Hp.
  destruct (JsNumber.digits n) as [|d ds] eqn:Ed; [done|].
  assert (0 ≤ d < 10) as Hd by (by apply Forall_cons in Hr as [? _]).
  unfold JsNumber.string_of_digits in *. rewrite fmap_cons in *.
  cbn [string_of_list_ascii] in *.
  rewrite trimStart_no_space by (by apply skip_space_digit).
  assert (JsNumber.digitChar d ≠ "-"%char ∧ JsNumber.digitChar d ≠ "+"%char)
    as [Hm Hpl].
  { assert (d = 0 ∨ d = 1 ∨ d = 2 ∨ d = 3 ∨ d = 4 ∨ d = 5 ∨ d = 6 ∨ d = 7
            ∨ d = 8 ∨ d = 9) as Hd' by lia.
    repeat destruct Hd' as [->|Hd']; try subst d; by vm_compute. }
  replace (match JsNumber.digitChar d with
           | "-"%char => _ | "+"%char => _ | _ => _ end)
    with (1, String (JsNumber.digitChar d)
               (string_of_list_ascii (JsNumber.digitChar <$> ds))).
  2:{ assert (d = 0 ∨ d = 1 ∨ d = 2 ∨ d = 3 ∨ d = 4 ∨ d = 5 ∨ d = 6 ∨ d = 7
              ∨ d = 8 ∨ d = 9) as Hd' by lia.
      repeat destruct Hd' as [->|Hd']; try subst d; reflexivity. }
  by rewrite Hp, Hv.
Qed.

(** ** Doubles *)

(** Up to 2^53 every integer is a double. *)
Lemma nearestDouble_exact (n : Z) :
  0 ≤ n < 2 ^ 53 → JsNumber.nearestDouble n = Some n.
Proof.
  intros [Hn Hlt]. unfold JsNumber.nearestDouble.
  assert (Z.log2 n < 53).
  { destruct (Z.eq_dec n 0) as [->|Hne]; [done|].
    apply Z.log2_lt_pow2; lia. }
  destruct (Z.leb_spec (Z.log2 n - 52) 0); [done|lia].
Qed.

(** From 2^53 on the nearest double is at least 2^53. *)
Lemma nearestDouble_large (v d : Z) :
  2 ^ 53 ≤ v → JsNumber.nearestDouble v = Some d → 2 ^ 53 ≤ d.
Proof.
  intros Hv. unfold JsNumber.nearestDouble.
  destruct (Z.leb_spec (Z.log2 v - 52) 0) as [He|He].
  { by intros [= <-]. }
  set (e := Z.log2 v - 52) in *.
  assert (Hpow : 2 ^ 52 * 2 ^ e ≤ v).
  { rewrite <- Z.pow_add_r by lia. replace (52 + e) with (Z.log2 v) by lia.
    apply Z.log2_spec. lia. }
  assert (H2e : 2 ≤ 2 ^ e).
  { change 2 with (2 ^ 1) at 1. apply Z.pow_le_mono_r; lia. }
  assert (Hq : 2 ^ 52 ≤ v / 2 ^ e) by (apply Z.div_le_lower_bound; lia).
  cbv zeta.
  match goal with
  | |- context [if ?b then v / 2 ^ e else v / 2 ^ e + 1] => destruct b
  end;
    (destruct (_ <? 2 ^ 1024); [|done];
     intros [= <-]; change (2 ^ 53) with (2 ^ 52 * 2); nia).
Qed.

(** Below 2^53 only the integer itself has it as its Number value. *)
Lemma readsAs_exact (x v : Z) :
  0 ≤ x < 2 ^ 53 → 0 ≤ v → JsNumber.readsAs x v = true → v = x.
Proof.
  intros Hx Hv. unfold JsNumber.readsAs.
  destruct (JsNumber.nearestDouble v) as [d|] eqn:E; [|done].
  intros ->%Z.eqb_eq.
  destruct (Z_lt_dec v (2 ^ 53)) as [Hs|Hs].
  - rewrite nearestDouble_exact in E by lia. congruence.
  - apply nearestDouble_large in E; lia.
Qed.

Lemma ofInteger_exact (sign n : Z) :
  0 ≤ n < 2 ^ 53 → JsNumber.ofInteger sign n = Num (sign * n).
Proof.
  intros Hn. unfold JsNumber.ofInteger. by rewrite nearestDouble_exact.
Qed.

Lemma ofInteger_readsAs (sign x v : Z) :
  JsNumber.readsAs x v = true → JsNumber.ofInteger sign v = Num (sign * x).
Proof.
  unfold JsNumber.readsAs, JsNumber.ofInteger.
  destruct (JsNumber.nearestDouble v); [|done]. by intros ->%Z.eqb_eq.
Qed.

Lemma isDouble_readsAs (x : Z) :
  0 ≤ x → JsNumber.isDouble x = true → JsNumber.readsAs x x = true.
Proof.
  intros Hx. unfold JsNumber.isDouble, JsNumber.readsAs.
  by rewrite Z.abs_eq.
Qed.

Lemma isDouble_exact (x : Z) : - 2 ^ 53 < x < 2 ^ 53 → JsNumber.isDouble x = true.
Proof.
  intros Hx. unfold JsNumber.isDouble.
  rewrite nearestDouble_exact by lia. apply Z.eqb_refl.
Qed.

(** ** toString and parseInt *)

(** A number is below the power of ten of its number of digits. *)
Lemma digits_upper (x : Z) :
  0 ≤ x → x < 10 ^ Z.of_nat (length (JsNumber.digits x)).
Proof.
  revert x. apply digits_ind.
  - intros x Hx. rewrite digits_small by lia. simpl. lia.
  - intros x Hx IH. rewrite digits_step by done.
    rewrite length_app, Nat2Z.inj_add. simpl length.
    rewrite Z.pow_add_r by lia. change (10 ^ Z.of_nat 1) with 10.
    pose proof (Z.div_mod x 10). pose proof (Z.mod_pos_bound x 10). lia.
Qed.

Lemma notation_decimal (v : Z) :
  0 ≤ v < 10 ^ 21 → JsNumber.notation v = JsNumber.decimal v.
Proof.
  intros [Hn Hlt]. unfold JsNumber.notation.
  pose proof (digits_length 20 v Hn Hlt) as Hlen.
  destruct (Z.leb_spec (Z.of_nat (length (JsNumber.digits v))) 21); [done|lia].
Qed.

(** What the search for the shortest decimal answers at one length. *)
Lemma shortest_at_Some (x n k v : Z) :
  0 ≤ x → 0 ≤ n - k →
  JsNumber.shortest_at x n k = Some v →
  JsNumber.readsAs x v = true ∧ 0 ≤ v ≤ (x / 10 ^ (n - k) + 1) * 10 ^ (n - k).
Proof.
  intros Hx Hnk. unfold JsNumber.shortest_at.
  set (scale := 10 ^ (n - k)).
  assert (0 < scale) by (apply Z.pow_pos_nonneg; lia).
  assert (0 ≤ x / scale) by (apply Z.div_pos; lia).
  destruct (JsNumber.readsAs x (x / scale * scale)) eqn:Elo,
           (JsNumber.readsAs x (x / scale * scale + scale)) eqn:Ehi;
    intros [= <-]; try (split; [done|nia]).
  repeat case_match; (split; [done|nia]).
Qed.

Lemma shortest_from_spec (fuel : nat) (x n k : Z) :
  0 ≤ x → x < 10 ^ n → 1 ≤ k → k + Z.of_nat fuel ≤ n + 1 →
  JsNumber.readsAs x x = true →
  JsNumber.readsAs x (JsNumber.shortest_from fuel x n k) = true
  ∧ 0 ≤ JsNumber.shortest_from fuel x n k ≤ 10 ^ n.
Proof.
  intros Hx Hn. revert k. induction fuel as [|fuel IH]; intros k Hk Hf Hr.
  { simpl. split; [done|lia]. }
  simpl. destruct (JsNumber.shortest_at x n k) as [v|] eqn:E.
  - apply shortest_at_Some in E as [Hv Hb]; [|lia..]. split; [done|].
    split; [lia|]. destruct Hb as [_ Hb]. etrans; [exact Hb|].
    replace n with ((n - k) + k) at 3 by lia.
    rewrite Z.pow_add_r by lia.
    assert (0 < 10 ^ (n - k)) by (apply Z.pow_pos_nonneg; lia).
    assert (0 < 10 ^ k) by (apply Z.pow_pos_nonneg; lia).
    assert (x / 10 ^ (n - k) < 10 ^ k).
    { apply Z.div_lt_upper_bound; [done|].
      rewrite <- Z.pow_add_r by lia. by replace (n - k + k) with n by lia. }
    nia.
  - apply IH; [lia|lia|done].
Qed.

Lemma shortest_spec (x : Z) :
  0 ≤ x → JsNumber.isDouble x = true →
  JsNumber.readsAs x (JsNumber.shortest x) = true
  ∧ 0 ≤ JsNumber.shortest x
        ≤ 10 ^ Z.of_nat (length (JsNumber.digits x)).
Proof.
  intros Hx Hd. unfold JsNumber.shortest.
  apply shortest_from_spec; [done|by apply digits_upper|lia|lia|].
  by apply isDouble_readsAs.
Qed.

(** Below 10^21 the shortest decimal is below 10^21 too. *)
Lemma shortest_fixed (x : Z) :
  0 ≤ x < 10 ^ 21 → JsNumber.isDouble x = true →
  0 ≤ JsNumber.shortest x < 10 ^ 21.
Proof.
  intros [Hx Hlt] Hd.
  destruct (shortest_spec x Hx Hd) as [Hr [H0 Hb]].
  split; [done|].
  pose proof (digits_length 20 x Hx Hlt) as Hlen.
  assert (10 ^ Z.of_nat (length (JsNumber.digits x)) ≤ 10 ^ 21)
    by (apply Z.pow_le_mono_r; lia).
  destruct (Z.eq_dec (JsNumber.shortest x) (10 ^ 21)) as [E|E]; [|lia].
  rewrite E in Hr. unfold JsNumber.readsAs in Hr.
  replace (JsNumber.nearestDouble (10 ^ 21)) with (Some (10 ^ 21)) in Hr
    by (by vm_compute).
  apply Z.eqb_eq in Hr. lia.
Qed.

(** Below 2^53 the shortest decimal is the integer itself. *)
Lemma shortest_from_exact (fuel : nat) (x n k : Z) :
  0 ≤ x < 2 ^ 53 → k + Z.of_nat fuel ≤ n + 1 →
  JsNumber.shortest_from fuel x n k = x.
Proof.
  intros Hx. revert k. induction fuel as [|fuel IH]; intros k Hf; [done|].
  simpl. destruct (JsNumber.shortest_at x n k) as [v|] eqn:E.
  - apply shortest_at_Some in E as [Hv Hb]; [|lia..].
    apply (readsAs_exact x v); [done|lia|done].
  - apply IH. lia.
Qed.

Lemma shortest_exact (x : Z) : 0 ≤ x < 2 ^ 53 → JsNumber.shortest x = x.
Proof. intros Hx. unfold JsNumber.shortest. apply shortest_from_exact; lia. Qed.

(** Within the fixed notation [toString] writes a sign and the digits of
    the shortest decimal. *)
Lemma toString_decimal (n : Z) :
  JsNumber.isDouble n = true → - 10 ^ 21 < n < 10 ^ 21 →
  JsNumber.toString (Num n)
  = (if n <? 0 then "-" else "")
      +:+ JsNumber.decimal (JsNumber.shortest (Z.abs n)).
Proof.
  intros Hd H. destruct n as [|p|p]; cbn [JsNumber.toString Z.abs Z.ltb Z.compare].
  - reflexivity.
  - unfold JsNumber.toString_pos.
    rewrite notation_decimal; [done|]. apply shortest_fixed; [lia|done].
  - unfold JsNumber.toString_pos.
    rewrite notation_decimal; [done|]. apply shortest_fixed; [lia|done].
Qed.

(** Up to 2^53 these are the digits of the integer. *)
Lemma toString_exact (n : Z) :
  - 2 ^ 53 < n < 2 ^ 53 →
  JsNumber.toString (Num n)
  = (if n <? 0 then "-" else "") +:+ JsNumber.decimal (Z.abs n).
Proof.
  intros H. rewrite toString_decimal; [|by apply isDouble_exact|lia].
  by rewrite shortest_exact by lia.
Qed.

Lemma skip_space_minus (r : string) :
  JsNumber.skip_space (String "-" r) = None.
Proof. by destruct r as [|c2 [|c3 r]]. Qed.

Lemma parseInt10_minus_decimal (n : Z) :
  0 ≤ n →
  JsNumber.parseInt10 ("-" +:+ JsNumber.decimal n) = JsNumber.ofInteger (-1) n.
Proof.
  intros Hn. unfold JsNumber.parseInt10.
  change ("-" +:+ JsNumber.decimal n) with (String "-" (JsNumber.decimal n)).
  rewrite trimStart_no_space by apply skip_space_minus.
  unfold JsNumber.decimal.
  rewrite digit_prefix_digits by (by apply digits_range).
  pose proof (digits_nonempty n Hn) as Hne.
  pose proof (digits_value n Hn) as Hv.
  destruct (JsNumber.digits n) as [|d ds]; [done|].
  by rewrite Hv.
Qed.

(** Within the fixed notation, reading back what [toString] wrote gives the
    number again. *)
Lemma parseInt10_toString (n : Z) :
  JsNumber.isDouble n = true → - 10 ^ 21 < n < 10 ^ 21 →
  JsNumber.parseInt10 (JsNumber.toString (Num n)) = Num n.
Proof.
  intros Hd H. rewrite toString_decimal by done.
  assert (Hd' : JsNumber.isDouble (Z.abs n) = true).
  { unfold JsNumber.isDouble in *. by rewrite Z.abs_idemp. }
  destruct (shortest_spec (Z.abs n) ltac:(lia) Hd') as [Hr [H0 _]].
  destruct (Z.ltb_spec n 0).
  - rewrite parseInt10_minus_decimal by done.
    rewrite (ofInteger_readsAs _ _ _ Hr). f_equal. lia.
  - change ("" +:+ ?s) with s.
    rewrite parseInt10_decimal by done.
    rewrite (ofInteger_readsAs _ _ _ Hr). f_equal. lia.
Qed.

Lemma parseInt10_truthy (s : string) (n : Z) :
  JsNumber.parseInt10 s = Num n → JsString.truthy s = true.
Proof. by destruct s. Qed.

(** ** The settings effects *)

(** C4, as the code has it.  The save effect writes the three settings under
    the keys 'conversionMode', 'charLimit' and 'sortBy', the limit as a
    decimal string: a sign and the digits of the shortest decimal that reads
    as the limit, which up to 2^53 are the digits of the limit itself.  A
    load effect run on what was saved restores the three values, for a limit
    that is an integer below 10^21 in absolute value (from there on
    [toString] answers the exponential notation, of which [parseInt] reads
    the first digits) and for the strings the component holds, which are
    not empty (an empty item would be skipped by the guards of the load
    effect). *)
Theorem settings_round_trip (st st0 : State) (ls : gmap string string)
    (n : Z) :
  conversionMode st ≠ "" → sortBy st ≠ "" →
  charLimit st = Num n → JsNumber.isDouble n = true →
  - 10 ^ 21 < n < 10 ^ 21 →
  let ls' := saveSettings true st ls in
  ls' !! "conversionMode"%string = Some (conversionMode st)
  ∧ ls' !! "charLimit"%string
    = Some ((if n <? 0 then "-" else "")
              +:+ JsNumber.decimal (JsNumber.shortest (Z.abs n)))
  ∧ JsNumber.readsAs (Z.abs n) (JsNumber.shortest (Z.abs n)) = true
  ∧ (Z.abs n < 2 ^ 53 → JsNumber.shortest (Z.abs n) = Z.abs n)
  ∧ ls' !! "sortBy"%string = Some (sortBy st)
  ∧ JsNumber.parseInt10 (JsNumber.toString (Num n)) = Num n
  ∧ conversionMode (loadSettings true ls' st0) = conversionMode st
  ∧ charLimit (loadSettings true ls' st0) = Num n
  ∧ sortBy (loadSettings true ls' st0) = sortBy st.
Proof.
  intros Hmode Hsort Hlimit Hd Hn ls'.
  assert (Hm : ls' !! "conversionMode"%string = Some (conversionMode st)).
  { unfold ls', saveSettings. rewrite !lookup_insert_ne by done.
    apply lookup_insert_eq. }
  assert (Hl : ls' !! "charLimit"%string = Some (JsNumber.toString (Num n))).
  { unfold ls', saveSettings. rewrite lookup_insert_ne by done.
    rewrite lookup_insert_eq. by rewrite Hlimit. }
  assert (Hs : ls' !! "sortBy"%string = Some (sortBy st)).
  { unfold ls', saveSettings. apply lookup_insert_eq. }
  pose proof (parseInt10_toString n Hd Hn) as Hparse.
  assert (Hd' : JsNumber.isDouble (Z.abs n) = true).
  { unfold JsNumber.isDouble in *. by rewrite Z.abs_idemp. }
  split_and!; [done| | | |done|done|..].
  - by rewrite Hl, toString_decimal.
  - apply shortest_spec; [lia|done].
  - intros Hsafe. apply shortest_exact. lia.
  - unfold loadSettings. rewrite Hm, Hl, Hs.
    rewrite (parseInt10_truthy _ _ Hparse).
    by destruct (conversionMode st), (sortBy st).
  - unfold loadSettings. rewrite Hm, Hl, Hs.
    rewrite (parseInt10_truthy _ _ Hparse), Hparse.
    by destruct (conversionMode st), (sortBy st).
  - unfold loadSettings. rewrite Hm, Hl, Hs.
    rewrite (parseInt10_truthy _ _ Hparse).
    by destruct (conversionMode st), (sortBy st).
Qed.

Lemma settings_round_trip_witness :
  let st := set_charLimit (Num (2 ^ 60)) (set_conversionMode "instrument"
              (set_sortBy "instrument" initialState)) in
  let ls' := saveSettings true st ∅ in
  ls' !! "conversionMode"%string = Some "instrument"%string
  ∧ ls' !! "charLimit"%string = Some "1152921504606847000"%string
  ∧ ls' !! "sortBy"%string = Some "instrument"%string
  ∧ JsNumber.parseInt10 "1152921504606847000" = Num (2 ^ 60)
  ∧ conversionMode (loadSettings true ls' initialState) = "instrument"%string
  ∧ charLimit (loadSettings true ls' initialState) = Num (2 ^ 60)
  ∧ sortBy (loadSettings true ls' initialState) = "instrument"%string.
Proof.
  intros st.
  destruct (settings_round_trip st initialState ∅ (2 ^ 60))
    as (Hm & Hl & _ & _ & Hs & Hp & Lm & Ll & Ls);
    [discriminate|discriminate|reflexivity|by vm_compute|lia|].
  split_and!; [exact Hm|exact Hl|exact Hs|exact Hp|exact Lm|exact Ll|exact Ls].
Defined.

(** The claim as it is worded fails for an integer of 22 digits:
    [(1e21).toString()] is "1e+21", which [parseInt] reads as 1.  Such a
    limit is what the number input gives for the text "1e21". *)
Lemma settings_round_trip_fails :
  let st := set_charLimit (Num (10 ^ 21)) initialState in
  let st' := loadSettings true (saveSettings true st ∅) initialState in
  JsNumber.isDouble (10 ^ 21) = true
  ∧ saveSettings true st ∅ !! "charLimit"%string = Some "1e+21"%string
  ∧ JsNumber.parseInt10 "1e+21" = Num 1
  ∧ charLimit st = Num (10 ^ 21) ∧ charLimit st' = Num 1
  ∧ charLimit st' ≠ charLimit st.
Proof. vm_compute. split_and!; done. Qed.

(** ** getTotalDuration *)

Lemma Qmax2_cases (a b : Q) :
  (JsNumber.Qmax2 a b = b ∧ (a <= b)%Q) ∨ (JsNumber.Qmax2 a b = a ∧ (b <= a)%Q).
Proof.
  unfold JsNumber.Qmax2. destruct (Qle_bool a b) eqn:E.
  - left. split; [done|]. by apply Qle_bool_iff.
  - right. split; [done|]. apply Qlt_le_weak, Qnot_le_lt.
    rewrite <- Qle_bool_iff. congruence.
Qed.

(** [Math.max] answers one of its arguments, and none is greater. *)
Lemma Math_max_spec (x : Q) (xs : list Q) :
  JsNumber.Math_max x xs ∈ x :: xs
  ∧ ∀ d, d ∈ x :: xs → (d <= JsNumber.Math_max x xs)%Q.
Proof.
  unfold JsNumber.Math_max. revert x.
  induction xs as [|y ys IH]; intros x; simpl.
  - split; [by left|]. intros d ->%list_elem_of_singleton. apply Qle_refl.
  - destruct (IH (JsNumber.Qmax2 x y)) as [Hin Hmax].
    destruct (Qmax2_cases x y) as [[E Hle]|[E Hle]]; rewrite E in *.
    + split; [by right|]. intros d [->|Hd]%elem_of_cons; [|by apply Hmax].
      eapply Qle_trans; [exact Hle|]. apply Hmax. by left.
    + split.
      * apply elem_of_cons in Hin as [->|Hin]; [by left|by do 2 right].
      * intros d [->|[->|Hd]%elem_of_cons]%elem_of_cons.
        -- apply Hmax. by left.
        -- eapply Qle_trans; [exact Hle|]. apply Hmax. by left.
        -- apply Hmax. by right.
Qed.

(** One decimal place: for a duration below 10^21 the text is the digits of
    [n / 10], a point and the digit [n mod 10], where [n] is the integer
    nearest to ten times the duration (the upper one of two). *)
Lemma toFixed_one_decimal (x : Q) :
  (0 <= x)%Q → (x < inject_Z (10 ^ 21))%Q →
  ∃ n : Z,
    0 ≤ n
    ∧ (inject_Z n - (1 # 2) <= x * inject_Z 10)%Q
    ∧ (x * inject_Z 10 < inject_Z n + (1 # 2))%Q
    ∧ JsNumber.toFixed 1 x
      = JsNumber.decimal (n / 10) +:+ "." +:+ JsNumber.decimal (n mod 10).
Proof.
  intros H0 Hbig. unfold JsNumber.toFixed.
  apply Qle_bool_iff in H0 as E0. rewrite E0.
  assert (Qle_bool (inject_Z (10 ^ 21)) x = false) as ->.
  { destruct (Qle_bool (inject_Z (10 ^ 21)) x) eqn:E; [|done].
    apply Qle_bool_iff in E. by apply Qle_not_lt in E. }
  change (inject_Z (10 ^ Z.of_nat 1)) with (inject_Z 10).
  set (n := Qfloor (x * inject_Z 10 + (1 # 2))).
  assert (Hn : 0 ≤ n).
  { change 0 with (Qfloor 0). apply Qfloor_resp_le.
    apply Qle_trans with (0 * inject_Z 10 + 0)%Q; [done|].
    apply Qplus_le_compat; [|done].
    apply Qmult_le_compat_r; done. }
  exists n. split; [done|]. split; [|split].
  - pose proof (Qfloor_le (x * inject_Z 10 + (1 # 2))) as H. fold n in H.
    lra.
  - pose proof (Qlt_floor (x * inject_Z 10 + (1 # 2))) as H. fold n in H.
    rewrite inject_Z_plus in H. change (inject_Z 1) with 1%Q in H.
    lra.
  - change ("" +:+ ?s) with s.
    assert (Hlast : JsNumber.decimal (n mod 10)
                    = JsNumber.string_of_digits [n mod 10]).
    { unfold JsNumber.decimal. rewrite digits_small; [done|].
      apply Z.mod_pos_bound. lia. }
    destruct (Z_lt_dec n 10) as [Hs|Hs].
    + rewrite digits_small by done. simpl.
      rewrite Z.div_small, Z.mod_small by lia.
      unfold JsNumber.decimal. rewrite (digits_small n), (digits_small 0) by lia.
      reflexivity.
    + rewrite Hlast, digits_step by lia.
      pose proof (digits_nonempty (n / 10) ltac:(apply Z.div_pos; lia)) as Hne.
      set (ds := JsNumber.digits (n / 10)) in *.
      assert (Hlen : Nat.leb (length (ds ++ [n mod 10])) 1 = false).
      { apply Nat.leb_gt. rewrite length_app. simpl.
        destruct ds; [done|simpl; lia]. }
      rewrite Hlen.
      replace (Nat.sub (length (ds ++ [n mod 10])) 1) with (length ds)
        by (rewrite length_app; simpl; lia).
      rewrite take_app_length, drop_app_length. reflexivity.
Qed.

(** C10.  [getTotalDuration] answers "0초" when there is no result or the
    result has no voice; otherwise it answers [toFixed(1)] of the greatest
    duration among the voices of the result, followed by "초".  Below 10^21
    seconds [toFixed(1)] writes one decimal place ([toFixed_one_decimal]). *)
Theorem getTotalDuration_spec (st : State) :
  (result st = None → getTotalDuration st = "0초")
  ∧ (∀ r, result st = Some r → voices r = [] → getTotalDuration st = "0초")
  ∧ (∀ r, result st = Some r → voices r ≠ [] →
       ∃ m, m ∈ (duration <$> voices r)
            ∧ (∀ d, d ∈ (duration <$> voices r) → (d <= m)%Q)
            ∧ getTotalDuration st = JsNumber.toFixed 1 m +:+ "초"
            ∧ ((0 <= m)%Q → (m < inject_Z (10 ^ 21))%Q →
               ∃ n : Z,
                 0 ≤ n
                 ∧ (inject_Z n - (1 # 2) <= m * inject_Z 10)%Q
                 ∧ (m * inject_Z 10 < inject_Z n + (1 # 2))%Q
                 ∧ getTotalDuration st
                   = JsNumber.decimal (n / 10) +:+ "."
                       +:+ JsNumber.decimal (n mod 10) +:+ "초")).
Proof.
  unfold getTotalDuration. split_and!.
  - by intros ->.
  - by intros r -> ->.
  - intros r -> Hne. destruct (voices r) as [|v vs]; [done|].
    destruct (Math_max_spec (duration v) (duration <$> vs)) as [Hin Hmax].
    exists (JsNumber.Math_max (duration v) (duration <$> vs)).
    split_and!; try done.
    intros H0 Hbig.
    destruct (toFixed_one_decimal _ H0 Hbig) as (n & Hn & Hlo & Hhi & E).
    exists n. split_and!; try done.
    by rewrite E, !append_assoc.
Qed.

Lemma getTotalDuration_spec_witness :
  getTotalDuration initialState = "0초"%string
  ∧ getTotalDuration sampleShown = "4.0초"%string
  ∧ ∃ m, m ∈ (duration <$> sampleVoices)
         ∧ (∀ d, d ∈ (duration <$> sampleVoices) → (d <= m)%Q)
         ∧ getTotalDuration sampleShown = JsNumber.toFixed 1 m +:+ "초".
Proof.
  split; [exact (proj1 (getTotalDuration_spec initialState) eq_refl)|].
  split; [reflexivity|].
  destruct (proj2 (proj2 (getTotalDuration_spec sampleShown))
              sampleSuccess eq_refl ltac:(discriminate))
    as (m & Hin & Hmax & E & _).
  by exists m.
Defined.

(** ** Sample runs *)

Example toString_exponent : JsNumber.toString (Num (10 ^ 21)) = "1e+21"%string.
Proof. reflexivity. Qed.

Example toString_exponent_fraction :
  JsNumber.toString (Num (- 2 ^ 70)) = "-1.1805916207174113e+21"%string.
Proof. by vm_compute. Qed.

(** The double next to 10^23, and the last double below 10^21. *)
Example toString_shortest :
  JsNumber.toString (Num 99999999999999991611392) = "1e+23"%string.
Proof. by vm_compute. Qed.

Example toString_fixed_last :
  JsNumber.toString (Num 999999999999999868928)
  = "999999999999999900000"%string.
Proof. by vm_compute. Qed.

Example toString_rounded_digits :
  JsNumber.toString (Num (2 ^ 60)) = "1152921504606847000"%string.
Proof. by vm_compute. Qed.

Example parseInt10_rounds :
  JsNumber.parseInt10 "9007199254740993" = Num 9007199254740992.
Proof. by vm_compute. Qed.

Example parseInt10_overflows :
  JsNumber.parseInt10 ("-2" +:+ JsNumber.string_of_digits (replicate 308 0))
  = Infinity true.
Proof. by vm_compute. Qed.

Example parseInt10_prefix : JsNumber.parseInt10 "  -0042px" = Num (-42).
Proof. reflexivity. Qed.

Example parseInt10_no_digit : JsNumber.parseInt10 "abc" = NaN.
Proof. reflexivity. Qed.

Example toFixed_rounds_up : JsNumber.toFixed 1 (5 # 100) = "0.1"%string.
Proof. reflexivity. Qed.

Example toFixed_negative : JsNumber.toFixed 1 (- (4 # 100)) = "-0.0"%string.
Proof. reflexivity. Qed.

Example toFixed_exponent :
  JsNumber.toFixed 1 (inject_Z (10 ^ 21)) = "1e+21"%string.
Proof. reflexivity. Qed.

Example match_paren_group_skips_empty :
  JsString.match_paren_group "a () ((b) c)" = Some "(b"%string.
Proof. reflexivity. Qed.

Example last_segment_windows :
  JsString.last_segment "C:\music/live\song.MID" = "song.MID"%string.
Proof. reflexivity. Qed.

Example sortedVoices_by_instrument :
  name <$> sortedVoices byteCompare sampleVoices "instrument"
  = [ "멜로디 (Piano)"; "멜로디"; "타악기"; "화음1 (Cello)";
      "화음2 (Violin)"; "화음1 (Violin)" ]%string.
Proof. reflexivity. Qed.

Example sortedVoices_by_notes :
  name <$> sortedVoices byteCompare sampleVoices "notes"
  = [ "멜로디 (Piano)"; "멜로디"; "화음2 (Violin)"; "화음1 (Violin)";
      "화음1 (Cello)"; "타악기" ]%string.
Proof. reflexivity. Qed.

Example drop_then_copy :
  let '(st, effs) :=
    run byteCompare
      [ (sampleEnv sampleSuccess, DragDrop DdEnter);
        (sampleEnv sampleSuccess, DragDrop (DdDrop ["C:\music\song.MID"%string]));
        (sampleEnv sampleSuccess, ClickCopy 1) ]
      initialState in
  fileName st = "song.MID"%string
  ∧ copiedIndex st = 1
  ∧ getTotalDuration st = "4.0초"%string
  ∧ effs = [ FsReadFile "C:\music\song.MID";
             Invoke "convert_midi" sampleArgs;
             ClipboardWriteText "t120o4a4";
             SetTimeout 2000 ].
Proof. vm_compute. repeat split. Qed.

(** * Further properties *)

(** ** getSortedVoices: the "notes" order and the other keys *)

Section SortMore.
Context {A : Type} (cmp : A → A → Z).

(** Sorting a sorted list changes nothing. *)
Lemma Array_sort_sorted_id (l : list A) :
  StronglySorted (notAfter cmp) l → Array_sort cmp l = l.
Proof.
  induction 1 as [|x t Ht IH Hx]; [done|]. simpl. rewrite IH.
  destruct t as [|y t']; [done|]. simpl.
  apply Forall_cons in Hx as [Hy _]. unfold notAfter in Hy.
  by apply Z.ltb_ge in Hy as ->.
Qed.

(** The elements that tie with the inserted one stay behind it: insertion
    only passes elements that sort strictly before. *)
Lemma sort_insert_filter (P : A → Prop) `{∀ x, Decision (P x)}
    (x : A) (l : list A) :
  (∀ y, P y → cmp y x < 0 → ¬ P x) →
  filter P (sort_insert cmp x l) = filter P (x :: l).
Proof.
  intros Hpass. induction l as [|y t IH]; [done|]. simpl.
  destruct (cmp y x <? 0) eqn:E; [|done].
  apply Z.ltb_lt in E. rewrite filter_cons, IH, !filter_cons.
  destruct (decide (P y)) as [Hy|Hy]; [|done].
  destruct (decide (P x)) as [Hx|Hx]; [|done].
  by destruct (Hpass y Hy E).
Qed.
End SortMore.

Lemma StronglySorted_mono {A} (R1 R2 : A → A → Prop) (l : list A) :
  (∀ a b, R1 a b → R2 a b) → StronglySorted R1 l → StronglySorted R2 l.
Proof.
  intros HR. induction 1 as [|x t Ht IH Hx]; constructor; [done|].
  eapply Forall_impl; [exact Hx|]. apply HR.
Qed.

Lemma compareNotes_sorted (l : list VoiceResult) :
  StronglySorted (λ a b, note_count b ≤ note_count a) (Array_sort compareNotes l).
Proof.
  apply (StronglySorted_mono (notAfter compareNotes)).
  { intros a b. unfold notAfter, compareNotes. lia. }
  apply (Array_sort_sorted compareNotes (λ _, True)).
  - intros x y _ _. unfold compareNotes. lia.
  - intros x y z _ _ _. unfold notAfter, compareNotes. lia.
  - by apply Forall_forall.
Qed.

Lemma compareNotes_stable (k : Z) (l : list VoiceResult) :
  filter (λ v, note_count v = k) (Array_sort compareNotes l)
  = filter (λ v, note_count v = k) l.
Proof.
  induction l as [|x t IH]; [done|]. simpl.
  rewrite sort_insert_filter, !filter_cons, IH; [done|].
  intros y Hy. unfold compareNotes. lia.
Qed.

Section ArrangedMore.
Variable localeCompare : string → string → Z.

Lemma filter_isMelody_arranged (vs : list VoiceResult) (sortBy : string) :
  List.filter isMelody (arranged localeCompare vs sortBy)
  = List.filter isMelody vs.
Proof.
  pose proof (arranged_melody_kept localeCompare vs sortBy) as H.
  by rewrite <- !(filter_bool_stdpp isMelody melodyVoice) in H
    by apply isMelody_spec.
Qed.

Lemma filter_isOther_arranged (vs : list VoiceResult) (sortBy : string) :
  List.filter isOther (arranged localeCompare vs sortBy)
  = sortOthers localeCompare sortBy (List.filter isOther vs).
Proof.
  rewrite arranged_split, List.filter_app.
  assert (Hm : ∀ l : list VoiceResult,
             List.filter isOther (List.filter isMelody l) = []).
  { intros l. induction l as [|x l IH]; [done|]. simpl.
    destruct (isMelody x) eqn:E; [|done]. simpl.
    by rewrite isOther_isMelody, E. }
  assert (Ho : ∀ l : list VoiceResult,
             Forall (λ v, ¬ melodyVoice v) l → List.filter isOther l = l).
  { intros l Hl. induction Hl as [|x l Hx _ IH]; [done|]. simpl.
    apply isOther_spec in Hx as ->. by rewrite IH. }
  rewrite Hm, Ho; [done|]. apply sortOthers_others.
Qed.

(** With the "notes" key the answer is the melody voices followed by the
    other voices by falling note count, and voices with the same count stay
    in the order of the input. *)
Theorem getSortedVoices_notes_order (h : heap) (l : loc)
    (vs : list VoiceResult) :
  h !! l = Some vs →
  ∃ r h' others,
    getSortedVoices localeCompare (Some l) "notes" h = Some (r, h')
    ∧ h' !! r = Some (filter melodyVoice vs ++ others)
    ∧ StronglySorted (λ a b, note_count b ≤ note_count a) others
    ∧ ∀ k, filter (λ v, note_count v = k) others
           = filter (λ v, note_count v = k)
               (filter (λ v, ¬ melodyVoice v) vs).
Proof.
  intros Hl.
  destruct (getSortedVoices_run localeCompare h l vs "notes" Hl)
    as (r & h' & E & _ & Hr & _).
  exists r, h', (Array_sort compareNotes (List.filter isOther vs)).
  split_and!; auto.
  - rewrite Hr, arranged_split.
    by rewrite (filter_bool_stdpp isMelody melodyVoice) by apply isMelody_spec.
  - apply compareNotes_sorted.
  - intros k. rewrite compareNotes_stable.
    by rewrite (filter_bool_stdpp isOther (λ v, ¬ melodyVoice v))
      by apply isOther_spec.
Qed.

(** With any key other than "notes" and "instrument" nothing is sorted: the
    answer is the melody voices followed by the other voices, both in the
    order of the input. *)
Theorem getSortedVoices_unknown_key (h : heap) (l : loc)
    (vs : list VoiceResult) (sortBy : string) :
  h !! l = Some vs → sortBy ≠ "notes" → sortBy ≠ "instrument" →
  ∃ r h',
    getSortedVoices localeCompare (Some l) sortBy h = Some (r, h')
    ∧ h' !! r = Some (filter melodyVoice vs
                        ++ filter (λ v, ¬ melodyVoice v) vs).
Proof.
  intros Hl Hn Hi.
  destruct (getSortedVoices_run localeCompare h l vs sortBy Hl)
    as (r & h' & E & _ & Hr & _).
  exists r, h'. split; [done|].
  rewrite Hr, arranged_split. unfold sortOthers.
  apply String.eqb_neq in Hn as ->. apply String.eqb_neq in Hi as ->.
  rewrite (filter_bool_stdpp isMelody melodyVoice) by apply isMelody_spec.
  by rewrite (filter_bool_stdpp isOther (λ v, ¬ melodyVoice v))
    by apply isOther_spec.
Qed.

Lemma sortOthers_idem (sortBy : string) (l : list VoiceResult) :
  sortBy ≠ "instrument" →
  sortOthers localeCompare sortBy (sortOthers localeCompare sortBy l)
  = sortOthers localeCompare sortBy l.
Proof.
  intros Hi. unfold sortOthers. apply String.eqb_neq in Hi as ->.
  destruct (String.eqb sortBy "notes"); [|done].
  apply Array_sort_sorted_id.
  apply (Array_sort_sorted compareNotes (λ _, True)).
  - intros x y _ _. unfold compareNotes. lia.
  - intros x y z _ _ _. unfold notAfter, compareNotes. lia.
  - by apply Forall_forall.
Qed.

(** Arranging twice is arranging once: a call on the answer of a call, with
    the same key, answers the same list (for every key but "instrument",
    whose order rests on the locale). *)
Theorem getSortedVoices_idempotent (h : heap) (l : loc)
    (vs : list VoiceResult) (sortBy : string) :
  h !! l = Some vs → sortBy ≠ "instrument" →
  ∃ r h' out r2 h2,
    getSortedVoices localeCompare (Some l) sortBy h = Some (r, h')
    ∧ h' !! r = Some out
    ∧ getSortedVoices localeCompare (Some r) sortBy h' = Some (r2, h2)
    ∧ h2 !! r2 = Some out.
Proof.
  intros Hl Hi.
  destruct (getSortedVoices_run localeCompare h l vs sortBy Hl)
    as (r & h' & E & _ & Hr & _).
  destruct (getSortedVoices_run localeCompare h' r _ sortBy Hr)
    as (r2 & h2 & E2 & _ & Hr2 & _).
  exists r, h', (arranged localeCompare vs sortBy), r2, h2.
  split_and!; auto. rewrite Hr2. f_equal.
  rewrite (arranged_split _ (arranged localeCompare vs sortBy)).
  rewrite filter_isMelody_arranged, filter_isOther_arranged.
  by rewrite sortOthers_idem, arranged_split.
Qed.
End ArrangedMore.

Lemma getSortedVoices_notes_order_witness :
  ∃ r h' others,
    getSortedVoices byteCompare (Some 1%positive) "notes" sampleHeap
      = Some (r, h')
    ∧ h' !! r = Some (filter melodyVoice sampleVoices ++ others)
    ∧ StronglySorted (λ a b, note_count b ≤ note_count a) others
    ∧ ∀ k, filter (λ v, note_count v = k) others
           = filter (λ v, note_count v = k)
               (filter (λ v, ¬ melodyVoice v) sampleVoices).
Proof.
  apply (getSortedVoices_notes_order byteCompare sampleHeap 1%positive
           sampleVoices).
  reflexivity.
Defined.

Lemma getSortedVoices_unknown_key_witness :
  ∃ r h',
    getSortedVoices byteCompare (Some 1%positive) "name" sampleHeap
      = Some (r, h')
    ∧ h' !! r = Some (filter melodyVoice sampleVoices
                        ++ filter (λ v, ¬ melodyVoice v) sampleVoices).
Proof.
  apply (getSortedVoices_unknown_key byteCompare sampleHeap 1%positive
           sampleVoices "name"); [reflexivity|discriminate|discriminate].
Defined.

Lemma getSortedVoices_idempotent_witness :
  ∃ r h' out r2 h2,
    getSortedVoices byteCompare (Some 1%positive) "notes" sampleHeap
      = Some (r, h')
    ∧ h' !! r = Some out
    ∧ getSortedVoices byteCompare (Some r) "notes" h' = Some (r2, h2)
    ∧ h2 !! r2 = Some out.
Proof.
  apply (getSortedVoices_idempotent byteCompare sampleHeap 1%positive
           sampleVoices "notes"); [reflexivity|discriminate].
Defined.

(** ** A handler that nothing interrupts *)






(** ** convertFile: how a conversion ends *)

Lemma CATCH_PREFIX_nonempty (e : string) : CATCH_PREFIX +:+ e ≠ "".
Proof. by vm_compute. Qed.

Lemma error_or_default_nonempty (e : option string) : error_or_default e ≠ "".
Proof. destruct e as [[|c s]|]; by vm_compute. Qed.

(** Whenever the answer to one of the three [await]s of a conversion
    arrives, whatever has happened since the call, the conversion either
    goes on to its next call, leaving the variables as they are, or ends.
    When it ends the spinner is off, and either the engine has answered with
    a success, which is stored while the error message is left alone, or
    [result] is left alone and the error message is a text that is not
    empty.  The settings and the file name are never changed. *)
Theorem convertFile_outcome (env : Env) (t : Pending) (st : State) :
  converting t = true →
  let st' := (resume env t st).1.1 in
  let effs := (resume env t st).1.2 in
  let next := (resume env t st).2 in
  conversionMode st' = conversionMode st
  ∧ charLimit st' = charLimit st
  ∧ sortBy st' = sortBy st
  ∧ fileName st' = fileName st
  ∧ ((∃ t' eff, next = [t'] ∧ converting t' = true ∧ effs = [eff] ∧ st' = st)
     ∨ (next = [] ∧ effs = [] ∧ isConverting st' = false
        ∧ ((∃ args cr,
              t = AwaitInvoke args
              ∧ invoke env "convert_midi" args = Resolved cr
              ∧ success cr = true
              ∧ result st' = Some cr
              ∧ errorMessage st' = errorMessage st)
           ∨ (result st' = result st ∧ errorMessage st' ≠ "")))).
Proof.
  destruct t as [|p|p|args|c idx]; try discriminate; intros _; unfold resume.
  - destruct (importFs env) as [u|e]; cbn [fst snd]; split_and!; try done.
    + left. by eexists _, _.
    + right. split_and!; try done. right. split; [done|].
      apply CATCH_PREFIX_nonempty.
  - destruct (readFile env p) as [bytes|e]; cbn [fst snd]; split_and!;
      try done.
    + left. by eexists _, _.
    + right. split_and!; try done. right. split; [done|].
      apply CATCH_PREFIX_nonempty.
  - destruct (invoke env "convert_midi" args) as [cr|e] eqn:E; cbn [fst snd].
    + destruct (success cr) eqn:Es; split_and!; try done; right;
        split_and!; try done.
      * left. by exists args, cr.
      * right. split; [done|]. apply error_or_default_nonempty.
    + split_and!; try done. right. split_and!; try done. right.
      split; [done|]. apply CATCH_PREFIX_nonempty.
Qed.

Lemma convertFile_outcome_witness :
  let env := sampleEnv sampleSuccess in
  let t := AwaitInvoke sampleArgs in
  let st := set_errorMessage "old" initialState in
  let st' := (resume env t st).1.1 in
  let effs := (resume env t st).1.2 in
  let next := (resume env t st).2 in
  conversionMode st' = conversionMode st
  ∧ charLimit st' = charLimit st
  ∧ sortBy st' = sortBy st
  ∧ fileName st' = fileName st
  ∧ ((∃ t' eff, next = [t'] ∧ converting t' = true ∧ effs = [eff] ∧ st' = st)
     ∨ (next = [] ∧ effs = [] ∧ isConverting st' = false
        ∧ ((∃ args cr,
              t = AwaitInvoke args
              ∧ invoke env "convert_midi" args = Resolved cr
              ∧ success cr = true
              ∧ result st' = Some cr
              ∧ errorMessage st' = errorMessage st)
           ∨ (result st' = result st ∧ errorMessage st' ≠ "")))).
Proof.
  intros env t st.
  apply (convertFile_outcome env t st). reflexivity.
Defined.

(** What the user reads when a conversion fails.  When the import of the
    file-system plug-in, the read of the file or the call of the engine is
    rejected, the message is the fixed prefix followed by the error, the
    conversion ends there, so that after a failed import or read the engine
    is not called, and [result] is left as it is.  When the engine answers
    with a failure that has no error text, the message is the default
    text. *)
Theorem convertFile_error_messages (env : Env) (st : State) :
  (∀ p e, importFs env = Rejected e →
     let r := resume env (AwaitImport p) st in
     errorMessage r.1.1 = CATCH_PREFIX +:+ e ∧ result r.1.1 = result st
     ∧ isConverting r.1.1 = false ∧ r.1.2 = [] ∧ r.2 = [])
  ∧ (∀ p e, readFile env p = Rejected e →
       let r := resume env (AwaitReadFile p) st in
       errorMessage r.1.1 = CATCH_PREFIX +:+ e ∧ result r.1.1 = result st
       ∧ isConverting r.1.1 = false ∧ r.1.2 = [] ∧ r.2 = [])
  ∧ (∀ args e, invoke env "convert_midi" args = Rejected e →
       let r := resume env (AwaitInvoke args) st in
       errorMessage r.1.1 = CATCH_PREFIX +:+ e ∧ result r.1.1 = result st
       ∧ isConverting r.1.1 = false ∧ r.1.2 = [] ∧ r.2 = [])
  ∧ (∀ args cr, invoke env "convert_midi" args = Resolved cr →
       success cr = false → (error cr = None ∨ error cr = Some ""%string) →
       let r := resume env (AwaitInvoke args) st in
       errorMessage r.1.1 = DEFAULT_ERROR ∧ result r.1.1 = result st
       ∧ isConverting r.1.1 = false ∧ r.1.2 = [] ∧ r.2 = []).
Proof.
  split_and!.
  - intros p e E. unfold resume. by rewrite E.
  - intros p e E. unfold resume. by rewrite E.
  - intros args e E. unfold resume. by rewrite E.
  - intros args cr E Hs He. unfold resume. rewrite E, Hs.
    by destruct He as [-> | ->].
Qed.

Lemma convertFile_error_messages_witness :
  let env := {| importFs := Resolved tt;
                readFile := λ _, Rejected "No such file or directory";
                invoke := λ _ _, Resolved sampleSuccess;
                writeText := λ _, Resolved tt;
                openDialog := Resolved SelNull |} in
  let st := set_result (Some sampleSuccess) initialState in
  let r := resume env (AwaitReadFile "a.mid") st in
  errorMessage r.1.1 = "변환 오류: No such file or directory"%string
  ∧ result r.1.1 = Some sampleSuccess
  ∧ isConverting r.1.1 = false ∧ r.1.2 = [] ∧ r.2 = [].
Proof.
  intros env st.
  exact (proj1 (proj2 (convertFile_error_messages env st))
           "a.mid"%string "No such file or directory"%string eq_refl).
Defined.

(** ** The spinner *)

Lemma handleFileDrop_start_cases (paths : list string) (st : State) :
  ((handleFileDrop_start paths st).2 = []
   ∧ isConverting (handleFileDrop_start paths st).1 = isConverting st)
  ∨ ∃ p rest, paths = p :: rest ∧ midiPath p
              ∧ (handleFileDrop_start paths st).2 = [AwaitImport p]
              ∧ result (handleFileDrop_start paths st).1 = None.
Proof.
  unfold handleFileDrop_start. destruct paths as [|p rest]; [by left|].
  destruct (_ && _)%bool eqn:E; [by left|]. right.
  exists p, rest. by apply midiPath_spec in E.
Qed.

Lemma Exists_delete_other {A} (P : A → Prop) (l : list A) (i : nat) (y : A) :
  Exists P l → l !! i = Some y → ¬ P y → Exists P (delete i l).
Proof.
  intros H. revert i. induction H as [x l Hx|x l Hl IH]; intros [|i] Hi Hy;
    simpl in *.
  - injection Hi as <-. done.
  - by left.
  - done.
  - right. by apply IH.
Qed.

Section Spinner.
Variable localeCompare : string → string → Z.

(** The spinner is on only while a conversion waits for an answer. *)
Definition spinnerOk (pg : Page) : Prop :=
  isConverting (vars pg) = true →
  Exists (λ t, converting t = true) (waiting pg).

Lemma tick_spinner (env : Env) (t : Tick) (pg : Page) :
  spinnerOk pg → spinnerOk (tick localeCompare env t pg).1.
Proof.
  unfold spinnerOk. intros Hpg.
  destruct t as [[[paths| | |]| |idx| |m|n|k|]|i]; unfold tick.
  - destruct (handleFileDrop_start_cases paths (set_isDragging false (vars pg)))
      as [[H1 H2]|(p & rest & -> & _ & H1 & _)];
      destruct (handleFileDrop_start _ _) as [st ts];
      cbn [fst snd vars waiting] in *; subst ts.
    + rewrite H2, app_nil_r. exact Hpg.
    + intros _. apply Exists_app. right. by left.
  - exact Hpg.
  - exact Hpg.
  - exact Hpg.
  - destruct (result (vars pg)); [exact Hpg|]. cbn [fst vars waiting].
    intros H. apply Exists_app. left. by apply Hpg.
  - destruct (shownVoices localeCompare (vars pg) !! idx); [|exact Hpg].
    cbn [fst vars waiting]. intros H. apply Exists_app. left. by apply Hpg.
  - unfold step. by destruct (result (vars pg)).
  - unfold step. by destruct (result (vars pg)).
  - unfold step. by destruct (result (vars pg)).
  - unfold step. destruct (result (vars pg)) as [r|]; [|done].
    by destruct (0 <? length (voices r))%nat.
  - exact Hpg.
  - destruct (waiting pg !! i) as [t|] eqn:Ew; [|exact Hpg].
    destruct t as [|p|p|args|c idx]; unfold resume.
    + destruct (openDialog env) as [[|p|ps]|e]; cbn [fst vars waiting];
        rewrite ?app_nil_r;
        try (intros H; by apply (Exists_delete_other _ _ _ _ (Hpg H) Ew)).
      destruct (JsString.truthy p); cbn [fst vars waiting];
        rewrite ?app_nil_r;
        try (intros H; by apply (Exists_delete_other _ _ _ _ (Hpg H) Ew)).
      destruct (handleFileDrop_start_cases [p] (vars pg))
        as [[H1 H2]|(p' & rest & _ & _ & H1 & _)];
        destruct (handleFileDrop_start _ _) as [st ts];
        cbn [fst snd vars waiting] in *; subst ts.
      * rewrite H2, app_nil_r. intros H.
        by apply (Exists_delete_other _ _ _ _ (Hpg H) Ew).
      * intros _. apply Exists_app. right. by left.
    + destruct (importFs env); cbn [fst vars waiting]; [|done].
      intros _. apply Exists_app. right. by left.
    + destruct (readFile env p); cbn [fst vars waiting]; [|done].
      intros _. apply Exists_app. right. by left.
    + destruct (invoke env "convert_midi" args) as [cr|];
        cbn [fst vars waiting]; [|done]. by destruct (success cr).
    + destruct (writeText env c); cbn [fst vars waiting]; rewrite app_nil_r;
        intros H; by apply (Exists_delete_other _ _ _ _ (Hpg H) Ew).
Qed.

(** In a session with answers arriving in any order, the spinner is on only
    while a conversion waits for an answer: it is never left on. *)
Theorem spinner_while_waiting (ticks : list (Env * Tick)) (pg : Page) :
  (isConverting (vars pg) = true →
   Exists (λ t, converting t = true) (waiting pg)) →
  let pg' := (interleaved localeCompare ticks pg).1 in
  isConverting (vars pg') = true →
  Exists (λ t, converting t = true) (waiting pg').
Proof.
  revert pg. induction ticks as [|[env t] rest IH]; intros pg Hpg; [done|].
  cbv zeta. rewrite interleaved_cons_fst. apply IH. by apply tick_spinner.
Qed.
End Spinner.

Lemma spinner_while_waiting_witness :
  let ticks := [ (sampleEnv sampleSuccess, Ui (DragDrop (DdDrop ["a.mid"%string])));
                 (sampleEnv sampleSuccess, Ui (DragDrop (DdDrop ["b.mid"%string])));
                 (sampleEnv sampleSuccess, Settle 1%nat);
                 (sampleEnv sampleSuccess, Settle 0%nat) ] in
  let pg' := (interleaved byteCompare ticks initialPage).1 in
  isConverting (vars pg') = true
  ∧ Exists (λ t, converting t = true) (waiting pg').
Proof.
  intros ticks pg'. split; [reflexivity|].
  apply (spinner_while_waiting byteCompare ticks initialPage);
    [discriminate|reflexivity].
Defined.

(** ** Sessions *)

Section Sessions.
Variable localeCompare : string → string → Z.

Lemma convertFile_result_cases (env : Env) (filePath : string) (st : State) :
  result (convertFile env filePath st).1 = None
  ∨ ∃ cr, result (convertFile env filePath st).1 = Some cr ∧ success cr = true.
Proof.
  unfold convertFile.
  destruct (importFs env); [|by left].
  destruct (readFile env filePath); [|by left].
  destruct (invoke env _ _) as [cr|]; [|by left].
  destruct (success cr) eqn:Es; [right; by exists cr|by left].
Qed.

Lemma handleFileDrop_result (env : Env) (paths : list string) (st : State) :
  let st' := (handleFileDrop env paths st).1 in
  result st' = result st
  ∨ result st' = None
  ∨ ∃ cr, result st' = Some cr ∧ success cr = true.
Proof.
  unfold handleFileDrop. destruct paths as [|p rest]; [by left|].
  destruct (_ && _)%bool; [by left|].
  right. apply convertFile_result_cases.
Qed.

Lemma handleFileSelect_result (env : Env) (st : State) :
  let st' := (handleFileSelect env st).1 in
  result st' = result st
  ∨ result st' = None
  ∨ ∃ cr, result st' = Some cr ∧ success cr = true.
Proof.
  unfold handleFileSelect.
  destruct (openDialog env) as [[|p|ps]|e]; try by left.
  destruct (JsString.truthy p); [|by left].
  pose proof (handleFileDrop_result env [p] st) as H.
  by destruct (handleFileDrop env [p] st).
Qed.

Lemma step_result (env : Env) (ev : Event) (st : State) :
  let st' := (step localeCompare env ev st).1 in
  result st' = result st
  ∨ result st' = None
  ∨ ∃ cr, result st' = Some cr ∧ success cr = true.
Proof.
  destruct ev as [[paths| | |]| |idx| |m|n|k|]; simpl; try by left.
  - apply (handleFileDrop_result env paths (set_isDragging false st)).
  - pose proof (handleFileSelect_result env st) as H.
    destruct (result st) eqn:Er; [by left|exact H].
  - destruct (shownVoices localeCompare st !! idx); simpl; [|by left].
    unfold copyToClipboard. destruct (writeText env _); by left.
  - destruct (result st) eqn:E; simpl; [by right; left|by left].
  - destruct (result st) eqn:E; by left.
  - destruct (result st) eqn:E; by left.
  - destruct (result st) as [r|] eqn:E; [|by left].
    destruct (0 <? length (voices r))%nat; by left.
Qed.

(** A result on display is a successful one: in a session that starts
    without a failed result on display, no state ever shows an answer of the
    engine whose [success] is false. *)
Theorem shown_result_successful (evs : list (Env * Event)) (st : State) :
  (∀ r, result st = Some r → success r = true) →
  ∀ r, result (run localeCompare evs st).1 = Some r → success r = true.
Proof.
  revert st. induction evs as [|[env ev] rest IH]; intros st Hst r; [apply Hst|].
  rewrite run_cons_fst. apply IH. intros r'.
  destruct (step_result env ev st) as [->|[->|(cr & -> & Hs)]];
    [apply Hst|done|by intros [= <-]].
Qed.
End Sessions.

Lemma shown_result_successful_witness :
  result (run byteCompare
            [ (sampleEnv sampleFailure, DragDrop (DdDrop ["a.mid"%string]));
              (sampleEnv sampleSuccess, DragDrop (DdDrop ["b.midi"%string])) ]
            initialState).1 = Some sampleSuccess ∧
  success sampleSuccess = true.
Proof.
  split; [reflexivity|].
  apply (shown_result_successful byteCompare
           [ (sampleEnv sampleFailure, DragDrop (DdDrop ["a.mid"%string]));
             (sampleEnv sampleSuccess, DragDrop (DdDrop ["b.midi"%string])) ]
           initialState); [intros r; simpl; discriminate|reflexivity].
Defined.

(** ** What reaches the engine *)

(** What is asked of a call that waits, given the calls made so far: a
    conversion that waits for the plug-in or for the file was started for a
    MIDI path, and the file it waits for has been asked for. *)
Definition pendingOk (made : list Effect) (t : Pending) : Prop :=
  match t with
  | AwaitImport p => midiPath p
  | AwaitReadFile p => midiPath p ∧ FsReadFile p ∈ made
  | _ => True
  end.

Lemma pendingOk_more (made more : list Effect) (t : Pending) :
  pendingOk made t → pendingOk (made ++ more) t.
Proof.
  destruct t; simpl; auto. intros [? ?]. split; [done|].
  apply elem_of_app. by left.
Qed.

Lemma handleFileDrop_start_ok (made : list Effect) (paths : list string)
    (st : State) :
  Forall (pendingOk made) (handleFileDrop_start paths st).2.
Proof.
  destruct (handleFileDrop_start_cases paths st)
    as [[-> _]|(p & rest & _ & Hp & -> & _)]; [constructor|].
  by repeat constructor.
Qed.

Section EngineInput.
Variable localeCompare : string → string → Z.

(** A request to the engine is made when a read is answered. *)
Lemma tick_invoke_source (env : Env) (t : Tick) (pg : Page) (cmd : string)
    (args : ConvertArgs) :
  Invoke cmd args ∈ (tick localeCompare env t pg).2 →
  ∃ i p, t = Settle i ∧ waiting pg !! i = Some (AwaitReadFile p)
         ∧ readFile env p = Resolved (midiData args)
         ∧ cmd = "convert_midi"
         ∧ options args = {| mode := conversionMode (vars pg);
                             char_limit := charLimit (vars pg);
                             compress_mode := false |}.
Proof.
  destruct t as [[[paths| | |]| |idx| |m|n|k|]|i]; unfold tick.
  - destruct (handleFileDrop_start _ _). by intros ?%elem_of_nil.
  - by intros ?%elem_of_nil.
  - by intros ?%elem_of_nil.
  - by intros ?%elem_of_nil.
  - destruct (result (vars pg)); intros H; cbn [snd] in H; effect_cases H.
  - destruct (shownVoices localeCompare (vars pg) !! idx); intros H;
      cbn [snd] in H; effect_cases H.
  - unfold step. destruct (result (vars pg)); by intros ?%elem_of_nil.
  - unfold step. destruct (result (vars pg)); by intros ?%elem_of_nil.
  - unfold step. destruct (result (vars pg)); by intros ?%elem_of_nil.
  - unfold step. destruct (result (vars pg)) as [r|];
      [|by intros ?%elem_of_nil].
    destruct (0 <? length (voices r))%nat; by intros ?%elem_of_nil.
  - by intros ?%elem_of_nil.
  - destruct (waiting pg !! i) as [t|] eqn:Ew; [|by intros ?%elem_of_nil].
    destruct t as [|p|p|args'|c idx]; unfold resume.
    + destruct (openDialog env) as [[|p|ps]|e]; try (intros H; cbn [snd] in H; effect_cases H).
      destruct (JsString.truthy p); [|intros H; cbn [snd] in H; effect_cases H].
      destruct (handleFileDrop_start _ _). intros H. cbn [snd] in H. effect_cases H.
    + destruct (importFs env); intros H; cbn [snd] in H; effect_cases H.
    + destruct (readFile env p) as [bytes|e] eqn:Er; intros H; cbn [snd] in H;
        effect_cases H.
      injection H as -> ->. by exists i, p.
    + destruct (invoke env "convert_midi" args') as [cr|e]; intros H;
        cbn [snd] in H; effect_cases H.
    + destruct (writeText env c); intros H; cbn [snd] in H; effect_cases H.
Qed.

Lemma tick_pendingOk (made : list Effect) (env : Env) (t : Tick) (pg : Page) :
  Forall (pendingOk made) (waiting pg) →
  Forall (pendingOk (made ++ (tick localeCompare env t pg).2))
    (waiting (tick localeCompare env t pg).1).
Proof.
  intros Hpg.
  assert (Hold : ∀ more, Forall (pendingOk (made ++ more)) (waiting pg)).
  { intros more. eapply Forall_impl; [exact Hpg|]. intros t'. apply pendingOk_more. }
  destruct t as [[[paths| | |]| |idx| |m|n|k|]|i]; unfold tick.
  - pose proof (handleFileDrop_start_ok (made ++ []) paths
                  (set_isDragging false (vars pg))) as H.
    destruct (handleFileDrop_start _ _) as [st ts]. cbn [fst snd waiting] in *.
    apply Forall_app. auto.
  - apply Hold.
  - apply Hold.
  - apply Hold.
  - destruct (result (vars pg)); [apply Hold|]. cbn [fst snd waiting].
    apply Forall_app. split; [apply Hold|]. by repeat constructor.
  - destruct (shownVoices localeCompare (vars pg) !! idx); [|apply Hold].
    cbn [fst snd waiting]. apply Forall_app. split; [apply Hold|].
    by repeat constructor.
  - unfold step. destruct (result (vars pg)); apply Hold.
  - unfold step. destruct (result (vars pg)); apply Hold.
  - unfold step. destruct (result (vars pg)); apply Hold.
  - unfold step. destruct (result (vars pg)) as [r|]; [|apply Hold].
    destruct (0 <? length (voices r))%nat; apply Hold.
  - apply Hold.
  - destruct (waiting pg !! i) as [t|] eqn:Ew; [|apply Hold].
    assert (Ht : pendingOk made t).
    { rewrite Forall_lookup in Hpg. by apply (Hpg i). }
    destruct t as [|p|p|args'|c idx]; unfold resume.
    + destruct (openDialog env) as [[|p|ps]|e]; cbn [fst snd waiting];
        rewrite ?app_nil_r; try (apply Forall_delete; first [exact Hpg|apply Hold]).
      destruct (JsString.truthy p); cbn [fst snd waiting];
        rewrite ?app_nil_r; try (apply Forall_delete; first [exact Hpg|apply Hold]).
      pose proof (handleFileDrop_start_ok (made ++ []) [p] (vars pg)) as H.
      destruct (handleFileDrop_start _ _) as [st ts]. cbn [fst snd waiting] in *.
      apply Forall_app. split; [apply Forall_delete; first [exact Hpg|apply Hold]|done].
    + destruct (importFs env); cbn [fst snd waiting]; rewrite ?app_nil_r;
        [|apply Forall_delete; first [exact Hpg|apply Hold]].
      apply Forall_app. split; [apply Forall_delete; first [exact Hpg|apply Hold]|].
      repeat constructor; [exact Ht|].
      apply elem_of_app. right. by left.
    + destruct (readFile env p); cbn [fst snd waiting]; rewrite ?app_nil_r;
        [|apply Forall_delete; first [exact Hpg|apply Hold]].
      apply Forall_app. split; [apply Forall_delete; first [exact Hpg|apply Hold]|].
      by repeat constructor.
    + destruct (invoke env "convert_midi" args') as [cr|e];
        cbn [fst snd waiting]; rewrite ?app_nil_r; apply Forall_delete; first [exact Hpg|apply Hold].
    + destruct (writeText env c); cbn [fst snd waiting]; rewrite ?app_nil_r;
        apply Forall_delete; first [exact Hpg|apply Hold].
Qed.

Lemma interleaved_cons_snd (env : Env) (t : Tick) (ticks : list (Env * Tick))
    (pg : Page) :
  (interleaved localeCompare ((env, t) :: ticks) pg).2
  = (tick localeCompare env t pg).2
      ++ (interleaved localeCompare ticks (tick localeCompare env t pg).1).2.
Proof.
  simpl. destruct (tick localeCompare env t pg) as [pg1 e1]. simpl.
  by destruct (interleaved localeCompare ticks pg1).
Qed.

Lemma invoke_source_from (made : list Effect) (ticks : list (Env * Tick))
    (pg : Page) (cmd : string) (args : ConvertArgs) :
  Forall (pendingOk made) (waiting pg) →
  Invoke cmd args ∈ (interleaved localeCompare ticks pg).2 →
  ∃ before env i after p,
    ticks = before ++ (env, Settle i) :: after
    ∧ let pg1 := (interleaved localeCompare before pg).1 in
      waiting pg1 !! i = Some (AwaitReadFile p)
      ∧ midiPath p
      ∧ FsReadFile p ∈ made ++ (interleaved localeCompare before pg).2
      ∧ readFile env p = Resolved (midiData args)
      ∧ cmd = "convert_midi"
      ∧ options args = {| mode := conversionMode (vars pg1);
                          char_limit := charLimit (vars pg1);
                          compress_mode := false |}.
Proof.
  revert made pg. induction ticks as [|[env t] rest IH]; intros made pg Hpg.
  { by intros ?%elem_of_nil. }
  rewrite interleaved_cons_snd, elem_of_app. intros [Hin|Hin].
  - apply tick_invoke_source in Hin as (i & p & -> & Hw & Hr & -> & Ho).
    exists [], env, i, rest, p. split; [done|]. cbn [interleaved fst snd].
    rewrite Forall_lookup in Hpg. destruct (Hpg i _ Hw) as [Hp Hmade].
    rewrite app_nil_r. by split_and!.
  - destruct (IH _ _ (tick_pendingOk made env t pg Hpg) Hin)
      as (before & env' & i & after & p & -> & Hw & Hp & Hmade & Hr & Hc & Ho).
    exists ((env, t) :: before), env', i, after, p. split; [done|].
    cbv zeta. rewrite interleaved_cons_fst, interleaved_cons_snd.
    rewrite app_assoc. by split_and!.
Qed.

(** In a session with answers arriving in any order, every request to the
    engine is made when the read of a file is answered: the file is a MIDI
    path, it was asked for earlier in the session, the request carries the
    bytes that the read answered, and its options are the mode and the limit
    the component has at that moment, with [compress_mode] false. *)
Theorem invoke_sends_file_bytes (ticks : list (Env * Tick)) (pg : Page)
    (cmd : string) (args : ConvertArgs) :
  waiting pg = [] →
  Invoke cmd args ∈ (interleaved localeCompare ticks pg).2 →
  ∃ before env i after p,
    ticks = before ++ (env, Settle i) :: after
    ∧ let pg1 := (interleaved localeCompare before pg).1 in
      waiting pg1 !! i = Some (AwaitReadFile p)
      ∧ midiPath p
      ∧ FsReadFile p ∈ (interleaved localeCompare before pg).2
      ∧ readFile env p = Resolved (midiData args)
      ∧ cmd = "convert_midi"
      ∧ options args = {| mode := conversionMode (vars pg1);
                          char_limit := charLimit (vars pg1);
                          compress_mode := false |}.
Proof.
  intros Hw Hin.
  apply (invoke_source_from [] ticks pg cmd args); [|done].
  rewrite Hw. constructor.
Qed.
End EngineInput.

Lemma invoke_sends_file_bytes_witness :
  let env := sampleEnv sampleSuccess in
  let ticks := [ (env, Ui (DragDrop (DdDrop ["a.mid"%string])));
                 (env, Settle 0%nat);
                 (env, Ui (InputMode "instrument"));
                 (env, Settle 0%nat) ] in
  let args := {| midiData := ["M"; "T"; "h"; "d"]%byte;
                 options := {| mode := "instrument"; char_limit := Num 1200;
                               compress_mode := false |} |} in
  Invoke "convert_midi" args ∈ (interleaved byteCompare ticks initialPage).2
  ∧ ∃ before env' i after p,
      ticks = before ++ (env', Settle i) :: after
      ∧ let pg1 := (interleaved byteCompare before initialPage).1 in
        waiting pg1 !! i = Some (AwaitReadFile p)
        ∧ midiPath p
        ∧ FsReadFile p ∈ (interleaved byteCompare before initialPage).2
        ∧ readFile env' p = Resolved (midiData args)
        ∧ "convert_midi"%string = "convert_midi"%string
        ∧ options args = {| mode := conversionMode (vars pg1);
                            char_limit := charLimit (vars pg1);
                            compress_mode := false |}.
Proof.
  intros env ticks args.
  assert (Hin : Invoke "convert_midi" args
                  ∈ (interleaved byteCompare ticks initialPage).2).
  { apply list_elem_of_In. vm_compute. right. left. reflexivity. }
  split; [exact Hin|].
  exact (invoke_sends_file_bytes byteCompare ticks initialPage "convert_midi"
           args eq_refl Hin).
Defined.

(** ** The file name on display *)

Lemma has_char_append (c : ascii) (a b : string) :
  JsString.has_char c (a +:+ b)
  = (JsString.has_char c a || JsString.has_char c b)%bool.
Proof.
  induction a as [|d a IH]; [done|].
  rewrite append_cons. simpl. by rewrite IH, orb_assoc.
Qed.

Lemma has_char_rev (c : ascii) (s : string) :
  JsString.has_char c (String.rev s) = JsString.has_char c s.
Proof.
  induction s as [|d s IH]; [done|].
  rewrite rev_cons, has_char_append, IH. simpl.
  by rewrite orb_false_r, orb_comm.
Qed.

Lemma last_segment_go_spec (s cur scanned : string) :
  dirPart scanned → noSeparator cur →
  ∃ dir,
    dirPart dir
    ∧ scanned +:+ String.rev cur +:+ s
      = dir +:+ JsString.last_segment_go cur s
    ∧ noSeparator (JsString.last_segment_go cur s).
Proof.
  revert cur scanned. induction s as [|c r IH]; intros cur scanned Hd Hc.
  - exists scanned. simpl. rewrite append_nil_r. split_and!; auto.
    destruct Hc. split; by rewrite has_char_rev.
  - simpl.
    destruct (Ascii.eqb_spec c "/") as [->|N1];
      [|destruct (Ascii.eqb_spec c "\") as [->|N2]]; simpl.
    + destruct (IH "" (scanned +:+ String.rev cur +:+ String "/" ""))
        as (dir & Hdir & E & Hn); [|done|].
      { right. exists (scanned +:+ String.rev cur), "/"%char.
        split; [by rewrite append_assoc|by left]. }
      exists dir. split_and!; auto. rewrite <- E.
      by rewrite !append_assoc.
    + destruct (IH "" (scanned +:+ String.rev cur +:+ String "\" ""))
        as (dir & Hdir & E & Hn); [|done|].
      { right. exists (scanned +:+ String.rev cur), "\"%char.
        split; [by rewrite append_assoc|by right]. }
      exists dir. split_and!; auto. rewrite <- E.
      by rewrite !append_assoc.
    + destruct (IH (String c cur) scanned) as (dir & Hdir & E & Hn); [done| |].
      { destruct Hc as [H1 H2]. split; simpl.
        - rewrite H1. by apply Ascii.eqb_neq in N1 as ->.
        - rewrite H2. by apply Ascii.eqb_neq in N2 as ->. }
      exists dir. split_and!; auto. rewrite <- E.
      by rewrite rev_cons, !append_assoc.
Qed.

(** The last segment of a path is what follows its last separator. *)
Lemma last_segment_spec (p : string) :
  ∃ dir, dirPart dir ∧ p = dir +:+ JsString.last_segment p
         ∧ noSeparator (JsString.last_segment p).
Proof.
  destruct (last_segment_go_spec p "" "") as (dir & Hd & E & Hn);
    [by left|done|].
  by exists dir.
Qed.

Lemma append_split (a b c d : string) :
  a +:+ b = c +:+ d →
  (∃ x, a = c +:+ x ∧ d = x +:+ b) ∨ (∃ x, c = a +:+ x ∧ b = x +:+ d).
Proof.
  revert c. induction a as [|h a IH]; intros c E.
  - right. by exists c.
  - destruct c as [|k c].
    + left. by exists (String h a).
    + rewrite !append_cons in E. injection E as -> E.
      destruct (IH c E) as [(x & -> & ->)|(x & -> & ->)]; [left|right];
        by exists x.
Qed.

(** A suffix without separators lies within the last segment. *)
Lemma suffix_in_last_segment (dir seg pre suf : string) :
  dirPart dir → noSeparator suf → dir +:+ seg = pre +:+ suf →
  ∃ x, seg = x +:+ suf.
Proof.
  intros Hd [Hs1 Hs2] E.
  destruct (append_split _ _ _ _ E) as [(x & Hdir & Hsuf)|(x & _ & Hseg)];
    [|by exists x].
  destruct x as [|h x]; [exists ""; by rewrite Hsuf|]. exfalso.
  destruct Hd as [->|(d' & c & Hdc & Hc)].
  { by destruct pre. }
  assert (∃ x', String h x = x' +:+ String c "") as [x' Hx].
  { rewrite Hdir in Hdc.
    destruct (append_split _ _ _ _ Hdc) as [(y & Hy & Hc')|(y & _ & Hy)];
      [|by exists y].
    destruct y as [|k y].
    - exists "". by rewrite Hc'.
    - rewrite append_cons in Hc'. injection Hc' as _ Hc'. by destruct y. }
  rewrite Hx, append_assoc in Hsuf. subst suf.
  rewrite !has_char_append in Hs1, Hs2. simpl in Hs1, Hs2.
  destruct Hc as [-> | ->].
  - by rewrite orb_true_r in Hs1.
  - by rewrite orb_true_r in Hs2.
Qed.

Lemma lowerChar_separator (c : ascii) :
  Ascii.eqb (JsString.lowerChar c) "/" = Ascii.eqb c "/"
  ∧ Ascii.eqb (JsString.lowerChar c) "\" = Ascii.eqb c "\".
Proof. by destruct c as [[] [] [] [] [] [] [] []]. Qed.

Lemma toLowerCase_noSeparator (s : string) :
  noSeparator (JsString.toLowerCase s) → noSeparator s.
Proof.
  unfold noSeparator. induction s as [|c s IH]; [done|]. simpl.
  destruct (lowerChar_separator c) as [-> ->].
  rewrite !orb_false_iff. intros [[Ha Hb] [Hc Hd]].
  destruct IH as [IH1 IH2]; [done|]. by rewrite IH1, IH2.
Qed.

Lemma midiPath_last_segment (p : string) :
  midiPath p → midiPath (JsString.last_segment p).
Proof.
  intros (pre & suf & E & Hsuf).
  destruct (last_segment_spec p) as (dir & Hd & Ep & Hn).
  assert (noSeparator suf) as Hs.
  { apply toLowerCase_noSeparator. by destruct Hsuf as [-> | ->]. }
  rewrite Ep in E.
  destruct (suffix_in_last_segment _ _ _ _ Hd Hs E) as [x Hx].
  by exists x, suf.
Qed.

Lemma convertFile_fileName (env : Env) (filePath : string) (st : State) :
  fileName (convertFile env filePath st).1 = fileName st.
Proof.
  unfold convertFile.
  destruct (importFs env); [|done].
  destruct (readFile env filePath); [|done].
  destruct (invoke env _ _) as [cr|]; [|done].
  by destruct (success cr).
Qed.

(** The name on display after a MIDI file was dropped is the last segment
    of its path: what follows the last slash or backslash (the whole path
    when it has none).  The name has no separator in it and still ends in
    ".mid" or ".midi". *)
Theorem handleFileDrop_fileName (env : Env) (p : string) (rest : list string)
    (st : State) :
  midiPath p →
  let shown := fileName (handleFileDrop env (p :: rest) st).1 in
  shown = JsString.last_segment p
  ∧ (∃ dir, dirPart dir ∧ p = dir +:+ shown)
  ∧ noSeparator shown
  ∧ midiPath shown.
Proof.
  intros Hp. cbv zeta.
  assert (fileName (handleFileDrop env (p :: rest) st).1
          = JsString.last_segment p) as ->.
  { unfold handleFileDrop. apply midiPath_spec in Hp as ->.
    rewrite convertFile_fileName. simpl.
    by destruct (JsString.last_segment p). }
  destruct (last_segment_spec p) as (dir & Hd & E & Hn).
  split_and!; auto; [by exists dir|by apply midiPath_last_segment].
Qed.

Lemma handleFileDrop_fileName_witness :
  let shown := fileName (handleFileDrop (sampleEnv sampleSuccess)
                           ["C:\music/live\My Song.MIDI"%string] initialState).1 in
  shown = "My Song.MIDI"%string
  ∧ (∃ dir, dirPart dir ∧ "C:\music/live\My Song.MIDI"%string = dir +:+ shown)
  ∧ noSeparator shown
  ∧ midiPath shown.
Proof.
  apply (handleFileDrop_fileName (sampleEnv sampleSuccess)
           "C:\music/live\My Song.MIDI" [] initialState).
  rewrite <- midiPath_spec. reflexivity.
Defined.

(** ** The "instrument" order keeps ties in place *)




(** ** The settings effects: missing, empty and damaged items *)

(** The load effect changes nothing but the three settings, and a setting
    only when its item is there and not empty: a missing or empty item
    leaves the current value.  Without a window it changes nothing. *)
Theorem loadSettings_frame (hasWindow : bool) (ls : gmap string string)
    (st : State) :
  let st' := loadSettings hasWindow ls st in
  isDragging st' = isDragging st ∧ isConverting st' = isConverting st
  ∧ result st' = result st ∧ fileName st' = fileName st
  ∧ errorMessage st' = errorMessage st ∧ copiedIndex st' = copiedIndex st
  ∧ ((ls !! "conversionMode"%string = None
      ∨ ls !! "conversionMode"%string = Some ""%string) →
     conversionMode st' = conversionMode st)
  ∧ ((ls !! "charLimit"%string = None
      ∨ ls !! "charLimit"%string = Some ""%string) →
     charLimit st' = charLimit st)
  ∧ ((ls !! "sortBy"%string = None ∨ ls !! "sortBy"%string = Some ""%string) →
     sortBy st' = sortBy st)
  ∧ (hasWindow = false → st' = st).
Proof.
  unfold loadSettings. destruct hasWindow; [|by split_and!].
  destruct (ls !! "conversionMode"%string) as [[|c1 m]|];
    destruct (ls !! "charLimit"%string) as [[|c2 n]|];
    destruct (ls !! "sortBy"%string) as [[|c3 k]|]; simpl;
    split_and!; try done; by intros [[=]|[=]].
Qed.

Lemma loadSettings_frame_witness :
  let ls : gmap string string := {[ "sortBy"%string := "instrument"%string ]} in
  let st' := loadSettings true ls initialState in
  conversionMode st' = "normal"%string ∧ charLimit st' = Num 1200
  ∧ sortBy st' = "instrument"%string.
Proof.
  intros ls.
  destruct (loadSettings_frame true ls initialState)
    as (_ & _ & _ & _ & _ & _ & Hm & Hl & _).
  split; [apply Hm; by left|]. split; [apply Hl; by left|reflexivity].
Defined.

(** The save effect writes the three items and leaves every other item of
    the storage as it is; saving the same state again changes nothing. *)
Theorem saveSettings_frame (st : State) (ls : gmap string string)
    (key : string) :
  key ≠ "conversionMode"%string → key ≠ "charLimit"%string →
  key ≠ "sortBy"%string →
  saveSettings true st ls !! key = ls !! key
  ∧ saveSettings true st (saveSettings true st ls) = saveSettings true st ls
  ∧ saveSettings false st ls = ls.
Proof.
  intros H1 H2 H3. unfold saveSettings. split_and!; [|apply map_eq; intros j|done].
  - by rewrite !lookup_insert_ne.
  - destruct (decide (j = "sortBy"%string)) as [->|N3].
    { by rewrite !lookup_insert_eq. }
    rewrite !(lookup_insert_ne _ "sortBy"%string) by done.
    destruct (decide (j = "charLimit"%string)) as [->|N2].
    { by rewrite !lookup_insert_eq. }
    rewrite !(lookup_insert_ne _ "charLimit"%string) by done.
    destruct (decide (j = "conversionMode"%string)) as [->|N1].
    { by rewrite !lookup_insert_eq. }
    by rewrite !lookup_insert_ne by done.
Qed.

Lemma saveSettings_frame_witness :
  let ls : gmap string string := {[ "theme"%string := "dark"%string ]} in
  saveSettings true initialState ls !! "theme"%string = Some "dark"%string.
Proof.
  intros ls.
  exact (proj1 (saveSettings_frame initialState ls "theme"
                  ltac:(discriminate) ltac:(discriminate) ltac:(discriminate))).
Defined.

Lemma loadSettings_charLimit (ls : gmap string string) (st : State)
    (s : string) :
  ls !! "charLimit"%string = Some s → s ≠ "" →
  charLimit (loadSettings true ls st) = JsNumber.parseInt10 s.
Proof.
  intros Hs Hne. unfold loadSettings. rewrite Hs.
  destruct s as [|c r]; [done|].
  destruct (ls !! "conversionMode"%string) as [[|c1 m]|];
    destruct (ls !! "sortBy"%string) as [[|c3 k]|]; done.
Qed.

Lemma decimal_cons (n : Z) :
  0 ≤ n →
  ∃ d ds, 0 ≤ d < 10 ∧ Forall (λ d, 0 ≤ d < 10) ds
          ∧ JsNumber.digits n = d :: ds.
Proof.
  intros Hn. pose proof (digits_range n Hn) as Hr.
  pose proof (digits_nonempty n Hn) as Hne.
  destruct (JsNumber.digits n) as [|d ds]; [done|].
  apply Forall_cons in Hr as [Hd Hds]. by exists d, ds.
Qed.

Lemma digit_prefix_app (ds : list Z) (rest : string) :
  Forall (λ d, 0 ≤ d < 10) ds →
  (rest = "" ∨ ∃ c r, rest = String c r ∧ JsNumber.isDigit c = false) →
  JsNumber.digit_prefix (JsNumber.string_of_digits ds +:+ rest) = ds.
Proof.
  intros Hds Hrest. unfold JsNumber.string_of_digits.
  induction Hds as [|d ds Hd _ IH].
  - simpl. change ("" +:+ rest) with rest.
    destruct Hrest as [->|(c & r & -> & Hc)]; [done|]. simpl. by rewrite Hc.
  - rewrite fmap_cons. cbn [string_of_list_ascii]. rewrite append_cons.
    cbn [JsNumber.digit_prefix].
    destruct (digitChar_digit d Hd) as [-> ->]. by rewrite IH.
Qed.

(** [parseInt] reads the digits at the head of a string and ignores what
    follows them. *)
Lemma parseInt10_leading_digits (n : Z) (rest : string) :
  0 ≤ n →
  (rest = "" ∨ ∃ c r, rest = String c r ∧ JsNumber.isDigit c = false) →
  JsNumber.parseInt10 (JsNumber.decimal n +:+ rest) = JsNumber.ofInteger 1 n.
Proof.
  intros Hn Hrest. unfold JsNumber.parseInt10, JsNumber.decimal.
  pose proof (digits_value n Hn) as Hv.
  pose proof (digit_prefix_app (JsNumber.digits n) rest
                (digits_range n Hn) Hrest) as Hp.
  destruct (decimal_cons n Hn) as (d & ds & Hd & Hds & E).
  rewrite E in *. unfold JsNumber.string_of_digits in *.
  rewrite fmap_cons in *. cbn [string_of_list_ascii] in *.
  rewrite append_cons in *.
  rewrite trimStart_no_space by (by apply skip_space_digit).
  replace (match JsNumber.digitChar d with
           | "-"%char => _ | "+"%char => _ | _ => _ end)
    with (1, String (JsNumber.digitChar d)
               (string_of_list_ascii (JsNumber.digitChar <$> ds) +:+ rest)).
  2:{ assert (d = 0 ∨ d = 1 ∨ d = 2 ∨ d = 3 ∨ d = 4 ∨ d = 5 ∨ d = 6 ∨ d = 7
              ∨ d = 8 ∨ d = 9) as Hd' by lia.
      repeat destruct Hd' as [->|Hd']; try subst d; reflexivity. }
  by rewrite Hp, Hv.
Qed.

(** The load effect takes the stored limit as [parseInt] reads it, without a
    check: at most twenty digits followed by anything else give the double
    nearest to the number the digits spell, which up to 2^53 is that number,
    and an item that starts with anything but white space, a sign or a digit
    makes the limit [NaN].  (Beyond twenty digits the language lets
    [parseInt] read the later digits as zeros.) *)
Theorem loadSettings_limit_parsing (ls : gmap string string) (st : State) :
  (∀ n rest,
     0 ≤ n < 10 ^ 20 →
     ls !! "charLimit"%string = Some (JsNumber.decimal n +:+ rest) →
     (rest = "" ∨ ∃ c r, rest = String c r ∧ JsNumber.isDigit c = false) →
     charLimit (loadSettings true ls st) = JsNumber.ofInteger 1 n
     ∧ (n < 2 ^ 53 → charLimit (loadSettings true ls st) = Num n))
  ∧ (∀ c r,
       ls !! "charLimit"%string = Some (String c r) →
       JsNumber.isDigit c = false → c ≠ "-"%char → c ≠ "+"%char →
       JsNumber.skip_space (String c r) = None →
       charLimit (loadSettings true ls st) = NaN).
Proof.
  split.
  - intros n rest [Hn Hlt] Hs Hrest.
    rewrite (loadSettings_charLimit ls st _ Hs).
    + rewrite parseInt10_leading_digits by done.
      split; [done|]. intros Hsafe. rewrite ofInteger_exact by lia.
      f_equal. lia.
    + destruct (decimal_cons n Hn) as (d & ds & _ & _ & E).
      unfold JsNumber.decimal, JsNumber.string_of_digits. by rewrite E.
  - intros c r Hs Hc Hm Hp Hsp.
    rewrite (loadSettings_charLimit ls st _ Hs) by done.
    unfold JsNumber.parseInt10. rewrite trimStart_no_space by done.
    replace (match c with
             | "-"%char => _ | "+"%char => _ | _ => _ end)
      with (1, String c r).
    2:{ destruct c as [[] [] [] [] [] [] [] []]; done. }
    simpl. by rewrite Hc.
Qed.

Lemma loadSettings_limit_parsing_witness :
  let ls1 : gmap string string := {[ "charLimit"%string := "1200.75"%string ]} in
  let ls2 : gmap string string := {[ "charLimit"%string := "twelve"%string ]} in
  let ls3 : gmap string string :=
    {[ "charLimit"%string := "9007199254740993px"%string ]} in
  charLimit (loadSettings true ls1 initialState) = Num 1200
  ∧ charLimit (loadSettings true ls3 initialState) = Num 9007199254740992
  ∧ charLimit (loadSettings true ls2 initialState) = NaN.
Proof.
  intros ls1 ls2 ls3. split_and!.
  - apply (proj1 (loadSettings_limit_parsing ls1 initialState) 1200 ".75");
      [lia|reflexivity| |lia].
    right. by exists "."%char, "75"%string.
  - refine (proj1 (proj1 (loadSettings_limit_parsing ls3 initialState)
                     9007199254740993 "px" _ _ _));
      [lia|reflexivity|].
    right. by exists "p"%char, "x"%string.
  - apply (proj2 (loadSettings_limit_parsing ls2 initialState) "t"%char "welve");
      [reflexivity|reflexivity|discriminate|discriminate|reflexivity].
Defined.

(** ** getTotalDuration does not depend on the order of the voices *)

Lemma Qle_bool_comp_r (c a b : Q) : (a == b)%Q → Qle_bool c a = Qle_bool c b.
Proof.
  intros E. destruct (Qle_bool c a) eqn:Ha, (Qle_bool c b) eqn:Hb; try done.
  - apply Qle_bool_iff in Ha. rewrite E in Ha. apply Qle_bool_iff in Ha.
    congruence.
  - apply Qle_bool_iff in Hb. rewrite <- E in Hb. apply Qle_bool_iff in Hb.
    congruence.
Qed.

(** Equal numbers are written the same, whatever fractions stand for
    them. *)
Lemma toFixed_comp (f : nat) (x y : Q) :
  (x == y)%Q → JsNumber.toFixed f x = JsNumber.toFixed f y.
Proof.
  intros E. unfold JsNumber.toFixed.
  rewrite (Qle_bool_comp_r 0 x y E).
  assert (∀ a b : Q, (a == b)%Q →
            (if Qle_bool (inject_Z (10 ^ 21)) a
             then JsNumber.toString (Num (Qfloor a))
             else
               let n := Qfloor (a * inject_Z (10 ^ Z.of_nat f) + (1 # 2))%Q in
               let m := JsNumber.digits n in
               let m := if (length m <=? f)%nat
                        then replicate (f + 1 - length m)%nat 0 ++ m else m in
               let k := length m in
               match f with
               | O => JsNumber.string_of_digits m
               | _ => JsNumber.string_of_digits (take (k - f) m) +:+ "."
                        +:+ JsNumber.string_of_digits (drop (k - f) m)
               end)
            = (if Qle_bool (inject_Z (10 ^ 21)) b
               then JsNumber.toString (Num (Qfloor b))
               else
                 let n := Qfloor (b * inject_Z (10 ^ Z.of_nat f) + (1 # 2))%Q in
                 let m := JsNumber.digits n in
                 let m := if (length m <=? f)%nat
                          then replicate (f + 1 - length m)%nat 0 ++ m else m in
                 let k := length m in
                 match f with
                 | O => JsNumber.string_of_digits m
                 | _ => JsNumber.string_of_digits (take (k - f) m) +:+ "."
                          +:+ JsNumber.string_of_digits (drop (k - f) m)
                 end)) as Hbody.
  { intros a b Eab. rewrite (Qle_bool_comp_r _ a b Eab).
    rewrite (Qfloor_comp a b Eab).
    assert (a * inject_Z (10 ^ Z.of_nat f) + (1 # 2)
            == b * inject_Z (10 ^ Z.of_nat f) + (1 # 2))%Q as E2
      by (by rewrite Eab).
    by rewrite (Qfloor_comp _ _ E2). }
  destruct (Qle_bool 0 y).
  - specialize (Hbody x y E). cbv zeta in Hbody.
    destruct (Qle_bool (inject_Z (10 ^ 21)) x), (Qle_bool (inject_Z (10 ^ 21)) y);
      destruct f; by rewrite ?Hbody.
  - assert (- x == - y)%Q as E' by (by rewrite E).
    specialize (Hbody (- x)%Q (- y)%Q E'). cbv zeta in Hbody.
    destruct (Qle_bool (inject_Z (10 ^ 21)) (- x)),
      (Qle_bool (inject_Z (10 ^ 21)) (- y));
      destruct f; by rewrite ?Hbody.
Qed.

Lemma Math_max_perm (x y : Q) (xs ys : list Q) :
  x :: xs ≡ₚ y :: ys →
  (JsNumber.Math_max x xs == JsNumber.Math_max y ys)%Q.
Proof.
  intros Hp.
  destruct (Math_max_spec x xs) as [Hin1 Hmax1].
  destruct (Math_max_spec y ys) as [Hin2 Hmax2].
  apply Qle_antisym.
  - apply Hmax2. by rewrite <- Hp.
  - apply Hmax1. by rewrite Hp.
Qed.

(** The total duration is the same for two results whose voices are the
    same up to their order: it does not depend on how the engine, or a
    sort, orders the voices. *)
Theorem getTotalDuration_perm (st1 st2 : State) (r1 r2 : ConversionResult) :
  result st1 = Some r1 → result st2 = Some r2 →
  voices r1 ≡ₚ voices r2 →
  getTotalDuration st1 = getTotalDuration st2.
Proof.
  intros E1 E2 Hp. unfold getTotalDuration. rewrite E1, E2.
  destruct (voices r1) as [|v1 vs1], (voices r2) as [|v2 vs2]; [done| | |].
  - by apply Permutation_nil_cons in Hp.
  - symmetry in Hp. by apply Permutation_nil_cons in Hp.
  - f_equal. apply toFixed_comp.
    apply Math_max_perm.
    change (duration <$> v1 :: vs1 ≡ₚ duration <$> v2 :: vs2).
    by rewrite Hp.
Qed.

Lemma getTotalDuration_perm_witness :
  getTotalDuration sampleShown
  = getTotalDuration
      (set_result
         (Some {| success := true;
                  voices := sortedVoices byteCompare sampleVoices "instrument";
                  error := None; bpm := 120; total_notes := 23 |})
         initialState).
Proof.
  apply (getTotalDuration_perm sampleShown _ sampleSuccess
           {| success := true;
              voices := sortedVoices byteCompare sampleVoices "instrument";
              error := None; bpm := 120; total_notes := 23 |});
    [reflexivity|reflexivity|].
  simpl. rewrite sortedVoices_arranged. symmetry. apply arranged_perm.
Defined.

(** ** Sessions: the settings and the clipboard *)

Section SessionsMore.
Variable localeCompare : string → string → Z.

Lemma convertFile_settings (env : Env) (filePath : string) (st : State) :
  let st' := (convertFile env filePath st).1 in
  conversionMode st' = conversionMode st ∧ charLimit st' = charLimit st
  ∧ sortBy st' = sortBy st.
Proof.
  unfold convertFile.
  destruct (importFs env); [|done].
  destruct (readFile env filePath); [|done].
  destruct (invoke env _ _) as [cr|]; [|done].
  by destruct (success cr).
Qed.

Lemma handleFileDrop_settings (env : Env) (paths : list string) (st : State) :
  let st' := (handleFileDrop env paths st).1 in
  conversionMode st' = conversionMode st ∧ charLimit st' = charLimit st
  ∧ sortBy st' = sortBy st.
Proof.
  unfold handleFileDrop. destruct paths as [|p rest]; [done|].
  destruct (_ && _)%bool; [done|].
  exact (convertFile_settings env p
           (set_fileName (if JsString.truthy (JsString.last_segment p)
                          then JsString.last_segment p else "")
              (set_isDragging false st))).
Qed.

Lemma handleFileSelect_settings (env : Env) (st : State) :
  let st' := (handleFileSelect env st).1 in
  conversionMode st' = conversionMode st ∧ charLimit st' = charLimit st
  ∧ sortBy st' = sortBy st.
Proof.
  unfold handleFileSelect.
  destruct (openDialog env) as [[|p|ps]|e]; try done.
  destruct (JsString.truthy p); [|done].
  pose proof (handleFileDrop_settings env [p] st) as H.
  by destruct (handleFileDrop env [p] st).
Qed.

(** An event that is not an input in one of the three controls leaves the
    three settings as they are; an input changes its own setting only. *)
Lemma step_settings (env : Env) (ev : Event) (st : State) :
  let st' := (step localeCompare env ev st).1 in
  (conversionMode st' = conversionMode st
   ∨ ∃ s, ev = InputMode s ∧ conversionMode st' = s)
  ∧ (charLimit st' = charLimit st
     ∨ ∃ n, ev = InputCharLimit n ∧ charLimit st' = n)
  ∧ (sortBy st' = sortBy st ∨ ∃ s, ev = InputSortBy s ∧ sortBy st' = s).
Proof.
  destruct ev as [[paths| | |]| |idx| |m|n|k|]; simpl;
    try (split_and!; by left).
  - destruct (handleFileDrop_settings env paths (set_isDragging false st))
      as (H1 & H2 & H3). split_and!; by left.
  - destruct (handleFileSelect_settings env st) as (H1 & H2 & H3).
    destruct (result st); split_and!; by left.
  - destruct (shownVoices localeCompare st !! idx); [|split_and!; by left].
    unfold copyToClipboard. destruct (writeText env _); split_and!; by left.
  - destruct (result st); split_and!; by left.
  - destruct (result st); split_and!; try by left. right. by exists m.
  - destruct (result st); split_and!; try by left. right. by exists n.
  - destruct (result st) as [r|]; [|split_and!; by left].
    destruct (0 <? length (voices r))%nat; split_and!; try by left.
    right. by exists k.
Qed.

(** In every session each setting keeps its first value or has a value the
    user entered in its control: no conversion, copy, reset, drag or timer
    ever changes the mode, the limit or the sort key. *)
Theorem settings_from_inputs (evs : list (Env * Event)) (st : State) :
  let st' := (run localeCompare evs st).1 in
  (conversionMode st' = conversionMode st
   ∨ ∃ env, (env, InputMode (conversionMode st')) ∈ evs)
  ∧ (charLimit st' = charLimit st
     ∨ ∃ env, (env, InputCharLimit (charLimit st')) ∈ evs)
  ∧ (sortBy st' = sortBy st
     ∨ ∃ env, (env, InputSortBy (sortBy st')) ∈ evs).
Proof.
  revert st. induction evs as [|[env ev] rest IH]; intros st.
  { split_and!; by left. }
  cbv zeta. rewrite run_cons_fst.
  destruct (IH (step localeCompare env ev st).1) as (H1 & H2 & H3).
  destruct (step_settings env ev st) as (S1 & S2 & S3).
  split_and!.
  - destruct H1 as [->|[env' H]]; [|right; exists env'; by right].
    destruct S1 as [->|(s & -> & ->)]; [by left|].
    right. exists env. by left.
  - destruct H2 as [->|[env' H]]; [|right; exists env'; by right].
    destruct S2 as [->|(s & -> & ->)]; [by left|].
    right. exists env. by left.
  - destruct H3 as [->|[env' H]]; [|right; exists env'; by right].
    destruct S3 as [->|(s & -> & ->)]; [by left|].
    right. exists env. by left.
Qed.



End SessionsMore.


(** * The icon generator *)

Example icons_names :
  Icons.pngName <$> Icons.iconSizes
  = ["32x32.png"; "128x128.png"; "256x256.png"; "512x512.png"]%string
  ∧ Icons.tempName <$> Icons.icoSizes = Icons.tempNames.
Proof. split; reflexivity. Qed.

Example icons_good_run :
  let '(fs, out) := Icons.script Icons.goodHost Icons.emptyFs in
  out = Icons.Finished
  ∧ Icons.files fs !! "icon.ico"%string
    = Some (Icons.Ico [Icons.Png 16 16; Icons.Png 32 32; Icons.Png 48 48;
                       Icons.Png 256 256])
  ∧ Icons.files fs !! "temp_16.png"%string = None
  ∧ length (Icons.console fs) = 12%nat.
Proof. vm_compute. repeat split. Qed.

Module IconsFacts.
Import Icons.

(** The lookups of a directory after a series of writes and removals. *)
Ltac dir_lookup :=
  repeat first
    [ rewrite lookup_insert_eq
    | rewrite lookup_insert_ne by done
    | rewrite lookup_delete_eq
    | rewrite lookup_delete_ne by done ].

(** *** A run on which every call succeeds *)

Definition goodFiles (m : gmap string Image) : gmap string Image :=
  <["icon.icns"%string := Png 1024 1024]>
    (delete "temp_256.png"%string
       (delete "temp_48.png"%string
          (delete "temp_32.png"%string
             (delete "temp_16.png"%string
                (<["icon.ico"%string :=
                     Ico [Png 16 16; Png 32 32; Png 48 48; Png 256 256]]>
                   (<["temp_256.png"%string := Png 256 256]>
                      (<["temp_48.png"%string := Png 48 48]>
                         (<["temp_32.png"%string := Png 32 32]>
                            (<["temp_16.png"%string := Png 16 16]>
                               (<["icon.png"%string := Png 1024 1024]>
                                  (<["128x128@2x.png"%string := Png 256 256]>
                                     (<["512x512.png"%string := Png 512 512]>
                                        (<["256x256.png"%string := Png 256 256]>
                                           (<["128x128.png"%string := Png 128 128]>
                                              (<["32x32.png"%string := Png 32 32]>
                                                 m))))))))))))))).

Lemma tbind_ok {A B} (c : Try A) (k : A → Try B) (fs fs' : Fs) (a : A) :
  c fs = (fs', inr a) → tbind c k fs = k a fs'.
Proof. intros E. unfold tbind. by rewrite E. Qed.

Lemma tbind_throw {A B} (c : Try A) (k : A → Try B) (fs fs' : Fs) (e : string) :
  c fs = (fs', inl e) → tbind c k fs = (fs', inl e).
Proof. intros E. unfold tbind. by rewrite E. Qed.

Lemma sharpResize_ok (host : Host) (size : Z) (name : string) (fs : Fs) :
  sharpEnd host name = Written →
  sharpResize host size name fs
  = (set_files (<[name := Png size size]> (files fs)) fs, inr tt).
Proof. intros E. unfold sharpResize. by rewrite E. Qed.

Lemma pngToIco_ok (host : Host) (paths : list string) (fs : Fs)
    (imgs : list Image) :
  readAll paths (files fs) = Some imgs → pngToIcoOk host = true →
  pngToIco host paths fs = (fs, inr (Ico imgs)).
Proof. intros E1 E2. unfold pngToIco. by rewrite E1, E2. Qed.

Lemma writeFileSync_ok (host : Host) (name : string) (img : Image) (fs : Fs) :
  writeEnd host name = Written →
  writeFileSync host name img fs
  = (set_files (<[name := img]> (files fs)) fs, inr tt).
Proof. intros E. unfold writeFileSync. by rewrite E. Qed.

Lemma unlinkSync_ok (host : Host) (name : string) (img : Image) (fs : Fs) :
  files fs !! name = Some img → unlinkOk host name = true →
  unlinkSync host name fs = (set_files (delete name (files fs)) fs, inr tt).
Proof. intros E1 E2. unfold unlinkSync. by rewrite E1, E2. Qed.

Ltac names_literal :=
  change (tempName 16) with "temp_16.png"%string;
  change (tempName 32) with "temp_32.png"%string;
  change (tempName 48) with "temp_48.png"%string;
  change (tempName 256) with "temp_256.png"%string;
  change (pngName 32) with "32x32.png"%string;
  change (pngName 128) with "128x128.png"%string;
  change (pngName 256) with "256x256.png"%string;
  change (pngName 512) with "512x512.png"%string;
  change (show 32) with "32"%string;
  change (show 128) with "128"%string;
  change (show 256) with "256"%string;
  change (show 512) with "512"%string.

Lemma good_run (fs : Fs) :
  generateIcons_try goodHost fs
  = ({| dirExists := dirExists fs; files := goodFiles (files fs);
        console := console fs ++ successLines |}, inr tt).
Proof.
  unfold generateIcons_try.
  cbn [forEach collect iconSizes icoSizes tbind tret log sharpResize goodHost
       sharpEnd set_files files dirExists console].
  names_literal.
  erewrite tbind_ok.
  2:{ apply pngToIco_ok; [|reflexivity].
      cbn [files readAll]. dir_lookup. reflexivity. }
  erewrite tbind_ok by (by apply writeFileSync_ok).
  cbn [set_files files dirExists console].
  erewrite tbind_ok.
  2:{ erewrite tbind_ok
        by (eapply unlinkSync_ok;
            [cbn [files set_files]; dir_lookup|]; reflexivity).
      erewrite tbind_ok
        by (eapply unlinkSync_ok;
            [cbn [files set_files]; dir_lookup|]; reflexivity).
      erewrite tbind_ok
        by (eapply unlinkSync_ok;
            [cbn [files set_files]; dir_lookup|]; reflexivity).
      erewrite tbind_ok
        by (eapply unlinkSync_ok;
            [cbn [files set_files]; dir_lookup|]; reflexivity).
      reflexivity. }
  cbn [tbind tret log sharpResize goodHost sharpEnd set_files files dirExists
       console].
  unfold log. cbn [set_files files dirExists console].
  unfold goodFiles, successLines. rewrite <- !app_assoc. reflexivity.
Qed.

(** *** A run that succeeds is the run on which every call succeeds *)

Definition below {A} (c cg : Try A) : Prop :=
  ∀ fs fs' a, c fs = (fs', inr a) → cg fs = (fs', inr a).

Lemma below_refl {A} (c : Try A) : below c c.
Proof. by intros fs fs' a. Qed.

Lemma below_bind {A B} (c cg : Try A) (k kg : A → Try B) :
  below c cg → (∀ a, below (k a) (kg a)) → below (tbind c k) (tbind cg kg).
Proof.
  intros Hc Hk fs fs' b. unfold tbind.
  destruct (c fs) as [fs1 [e|a]] eqn:E; [done|].
  rewrite (Hc _ _ _ E). apply Hk.
Qed.

Lemma below_sharp (host : Host) (size : Z) (name : string) :
  below (sharpResize host size name) (sharpResize goodHost size name).
Proof.
  intros fs fs' a. unfold sharpResize. simpl. by destruct (sharpEnd host name).
Qed.

Lemma below_pngToIco (host : Host) (paths : list string) :
  below (pngToIco host paths) (pngToIco goodHost paths).
Proof.
  intros fs fs' a. unfold pngToIco. simpl.
  destruct (readAll paths (files fs)); [|done]. by destruct (pngToIcoOk host).
Qed.

Lemma below_write (host : Host) (name : string) (img : Image) :
  below (writeFileSync host name img) (writeFileSync goodHost name img).
Proof.
  intros fs fs' a. unfold writeFileSync. simpl. by destruct (writeEnd host name).
Qed.

Lemma below_unlink (host : Host) (name : string) :
  below (unlinkSync host name) (unlinkSync goodHost name).
Proof.
  intros fs fs' a. unfold unlinkSync. simpl.
  destruct (files fs !! name); [|done]. by destruct (unlinkOk host name).
Qed.

Lemma below_forEach {A} (xs : list A) (body bodyg : A → Try unit) :
  (∀ x, below (body x) (bodyg x)) →
  below (forEach xs body) (forEach xs bodyg).
Proof.
  intros Hb. induction xs as [|x xs IH]; [apply below_refl|].
  simpl. apply below_bind; [apply Hb|by intros _].
Qed.

Lemma below_collect {A B} (xs : list A) (body bodyg : A → Try B) :
  (∀ x, below (body x) (bodyg x)) →
  below (collect xs body) (collect xs bodyg).
Proof.
  intros Hb. induction xs as [|x xs IH]; [apply below_refl|].
  simpl. apply below_bind; [apply Hb|intros y].
  apply below_bind; [apply IH|intros ys; apply below_refl].
Qed.

Lemma generateIcons_try_below (host : Host) :
  below (generateIcons_try host) (generateIcons_try goodHost).
Proof.
  unfold generateIcons_try.
  repeat first
    [ apply below_refl
    | apply below_sharp
    | apply below_pngToIco
    | apply below_write
    | apply below_unlink
    | apply below_forEach; intros ?
    | apply below_collect; intros ?
    | apply below_bind; [|intros ?] ].
Qed.

Lemma generateIcons_finished (host : Host) (fs fs' : Fs) :
  generateIcons host fs = (fs', Finished) →
  fs' = {| dirExists := dirExists fs; files := goodFiles (files fs);
           console := console fs ++ successLines |}.
Proof.
  unfold generateIcons.
  destruct (generateIcons_try host fs) as [fs1 [e|[]]] eqn:E; [done|].
  intros [= <-]. apply generateIcons_try_below in E.
  rewrite good_run in E. by injection E.
Qed.

Lemma goodFiles_products (m : gmap string Image) (name : string)
    (img : Image) :
  (name, img) ∈ products → goodFiles m !! name = Some img.
Proof.
  unfold products, goodFiles. intros H.
  repeat (apply elem_of_cons in H as [[= -> ->]|H]; [by dir_lookup|]).
  by apply elem_of_nil in H.
Qed.

Lemma goodFiles_temps (m : gmap string Image) (name : string) :
  name ∈ tempNames → goodFiles m !! name = None.
Proof.
  unfold tempNames, goodFiles. intros H.
  repeat (apply elem_of_cons in H as [->|H]; [by dir_lookup|]).
  by apply elem_of_nil in H.
Qed.

Lemma goodFiles_others (m : gmap string Image) (name : string) :
  name ∉ outputNames ++ tempNames → goodFiles m !! name = m !! name.
Proof.
  unfold outputNames, tempNames, goodFiles. simpl. intros H.
  repeat (apply not_elem_of_cons in H as [? H]).
  by dir_lookup.
Qed.

(** When the script runs to its end, the directory exists and holds the
    eight icons, each of the size its name says (the ICO made of the 16, 32,
    48 and 256 pixel images, in that order); the four temporary files are
    gone; every other file of the directory is as it was; and the console
    got the twelve lines of a full run. *)
Theorem script_finished (host : Host) (fs fs' : Fs) :
  script host fs = (fs', Finished) →
  dirExists fs' = true
  ∧ (∀ name img, (name, img) ∈ products → files fs' !! name = Some img)
  ∧ (∀ name, name ∈ tempNames → files fs' !! name = None)
  ∧ sameOutside (outputNames ++ tempNames) fs fs'
  ∧ console fs' = console fs ++ successLines.
Proof.
  unfold script. intros H.
  assert (∃ fs0, dirExists fs0 = true ∧ files fs0 = files fs
                 ∧ console fs0 = console fs
                 ∧ generateIcons host fs0 = (fs', Finished))
    as (fs0 & Hd & Hf & Hc & Hgen).
  { destruct (dirExists fs) eqn:Ed; [exists fs; by split_and!|].
    destruct (mkdirOk host); [|done]. eexists. split_and!; [..|exact H]; done. }
  apply generateIcons_finished in Hgen as ->. simpl.
  rewrite Hd, Hf, Hc. split_and!; auto.
  - apply goodFiles_products.
  - apply goodFiles_temps.
  - intros name Hn. simpl. by apply goodFiles_others.
Qed.

(** *** What no run touches *)

(** [c] keeps the directory flag, only adds lines to the console, leaves
    the files outside [names] alone, and answers values in [Q]. *)
Definition keeps (names : list string) {A} (Q : A → Prop) (c : Try A) : Prop :=
  ∀ fs,
    dirExists (c fs).1 = dirExists fs
    ∧ (∃ lines, console (c fs).1 = console fs ++ lines)
    ∧ sameOutside names fs (c fs).1
    ∧ ∀ a, (c fs).2 = inr a → Q a.

Section Keeps.
Variable names : list string.

Lemma keeps_weaken {A} (Q Q' : A → Prop) (c : Try A) :
  (∀ a, Q a → Q' a) → keeps names Q c → keeps names Q' c.
Proof.
  intros HQ Hc fs. destruct (Hc fs) as (H1 & H2 & H3 & H4).
  split_and!; auto.
Qed.

Lemma keeps_tret {A} (a : A) : keeps names (λ x, x = a) (tret a).
Proof.
  intros fs. simpl. split_and!; auto.
  - exists []. by rewrite app_nil_r.
  - by intros name _.
  - by intros x [= ->].
Qed.

Lemma keeps_log (line : string) : keeps names (λ _, True) (log line).
Proof.
  intros fs. simpl. split_and!; auto.
  - by exists [line].
  - by intros name _.
Qed.

Lemma keeps_bind {A B} (Q : A → Prop) (R : B → Prop) (c : Try A)
    (k : A → Try B) :
  keeps names Q c → (∀ a, Q a → keeps names R (k a)) →
  keeps names R (tbind c k).
Proof.
  intros Hc Hk fs. destruct (Hc fs) as (H1 & [l1 H2] & H3 & H4).
  unfold tbind. destruct (c fs) as [fs1 [e|a]]; simpl in *.
  - split_and!; eauto. done.
  - destruct (Hk a (H4 a eq_refl) fs1) as (K1 & [l2 K2] & K3 & K4).
    split_and!; auto.
    + congruence.
    + exists (l1 ++ l2). by rewrite K2, H2, app_assoc.
    + intros name Hn. by rewrite K3, H3.
Qed.

Lemma keeps_sharp (host : Host) (size : Z) (name : string) :
  name ∈ names → keeps names (λ _, True) (sharpResize host size name).
Proof.
  intros Hin fs. unfold sharpResize.
  destruct (sharpEnd host name); simpl; split_and!; auto;
    try (exists []; by rewrite app_nil_r); try (by intros n _);
    intros n Hn; simpl; apply lookup_insert_ne; by intros ->.
Qed.

Lemma keeps_pngToIco (host : Host) (paths : list string) :
  keeps names (λ _, True) (pngToIco host paths).
Proof.
  intros fs. unfold pngToIco.
  destruct (readAll paths (files fs)); [destruct (pngToIcoOk host)|]; simpl;
    split_and!; auto; try (exists []; by rewrite app_nil_r); by intros n _.
Qed.

Lemma keeps_write (host : Host) (name : string) (img : Image) :
  name ∈ names → keeps names (λ _, True) (writeFileSync host name img).
Proof.
  intros Hin fs. unfold writeFileSync.
  destruct (writeEnd host name); simpl; split_and!; auto;
    try (exists []; by rewrite app_nil_r); try (by intros n _);
    intros n Hn; simpl; apply lookup_insert_ne; by intros ->.
Qed.

Lemma keeps_unlink (host : Host) (name : string) :
  name ∈ names → keeps names (λ _, True) (unlinkSync host name).
Proof.
  intros Hin fs. unfold unlinkSync.
  destruct (files fs !! name); [destruct (unlinkOk host name)|]; simpl;
    split_and!; auto; try (exists []; by rewrite app_nil_r);
    try by intros n _.
  intros n Hn. simpl. apply lookup_delete_ne. by intros ->.
Qed.

Lemma keeps_forEach {A} (xs : list A) (body : A → Try unit) :
  (∀ x, x ∈ xs → keeps names (λ _, True) (body x)) →
  keeps names (λ _, True) (forEach xs body).
Proof.
  induction xs as [|x xs IH]; intros Hb; simpl.
  - eapply keeps_weaken; [|apply keeps_tret]. done.
  - eapply keeps_bind; [apply Hb; by left|]. intros _ _.
    apply IH. intros y Hy. apply Hb. by right.
Qed.

Lemma keeps_collect {A B} (f : A → B) (xs : list A) (body : A → Try B) :
  (∀ x, x ∈ xs → keeps names (λ y, y = f x) (body x)) →
  keeps names (λ ys, ys = f <$> xs) (collect xs body).
Proof.
  induction xs as [|x xs IH]; intros Hb; simpl.
  - apply keeps_tret.
  - eapply keeps_bind; [apply Hb; by left|]. intros y ->.
    eapply keeps_bind; [apply IH; intros z Hz; apply Hb; by right|].
    intros ys ->. apply keeps_tret.
Qed.
End Keeps.

Lemma pngName_output (size : Z) :
  size ∈ iconSizes → pngName size ∈ outputNames ++ tempNames.
Proof.
  unfold iconSizes. intros H.
  repeat (apply elem_of_cons in H as [->|H];
          [apply list_elem_of_In; vm_compute; tauto|]).
  by apply elem_of_nil in H.
Qed.

Lemma tempName_temp (size : Z) :
  size ∈ icoSizes → tempName size ∈ outputNames ++ tempNames.
Proof.
  unfold icoSizes. intros H.
  repeat (apply elem_of_cons in H as [->|H];
          [apply list_elem_of_In; vm_compute; tauto|]).
  by apply elem_of_nil in H.
Qed.

Lemma known_name (name : string) :
  In name (outputNames ++ tempNames) → name ∈ outputNames ++ tempNames.
Proof. apply list_elem_of_In. Qed.

Lemma generateIcons_try_keeps (host : Host) :
  keeps (outputNames ++ tempNames) (λ _, True) (generateIcons_try host).
Proof.
  unfold generateIcons_try.
  eapply keeps_bind; [apply keeps_log|intros _ _].
  eapply keeps_bind.
  { apply keeps_forEach. intros size Hs.
    eapply keeps_bind; [|intros _ _; apply keeps_log].
    by apply keeps_sharp, pngName_output. }
  intros _ _.
  eapply keeps_bind;
    [apply keeps_sharp, known_name; vm_compute; tauto|intros _ _].
  eapply keeps_bind; [apply keeps_log|intros _ _].
  eapply keeps_bind;
    [apply keeps_sharp, known_name; vm_compute; tauto|intros _ _].
  eapply keeps_bind; [apply keeps_log|intros _ _].
  eapply keeps_bind; [apply keeps_log|intros _ _].
  eapply keeps_bind.
  { apply (keeps_collect _ tempName). intros size Hs.
    eapply keeps_bind; [by apply keeps_sharp, tempName_temp|].
    intros _ _. apply keeps_tret. }
  intros icoPngPaths ->.
  eapply keeps_bind; [apply keeps_log|intros _ _].
  eapply keeps_bind; [apply keeps_pngToIco|intros icoBuffer _].
  eapply keeps_bind;
    [apply keeps_write, known_name; vm_compute; tauto|intros _ _].
  eapply keeps_bind.
  { apply keeps_forEach. intros name Hn. apply keeps_unlink.
    apply list_elem_of_fmap in Hn as (size & -> & Hs).
    by apply tempName_temp. }
  intros _ _.
  eapply keeps_bind; [apply keeps_log|intros _ _].
  eapply keeps_bind;
    [apply keeps_sharp, known_name; vm_compute; tauto|intros _ _].
  eapply keeps_bind; [apply keeps_log|intros _ _].
  apply keeps_log.
Qed.

(** Whatever the calls answer, the script ends in one of three ways: it runs
    to its end, it exits with code 1, or it stops before [generateIcons]
    because the directory is missing and cannot be created, and then
    nothing at all has changed.  In every case the files of the directory
    other than the eight icons and the four temporary files are as they
    were, and the console has only grown. *)
Theorem script_frame (host : Host) (fs : Fs) :
  let fs' := (script host fs).1 in
  let out := (script host fs).2 in
  (out = Finished ∨ out = Exited 1
   ∨ (out = Crashed ∧ fs' = fs ∧ dirExists fs = false ∧ mkdirOk host = false))
  ∧ sameOutside (outputNames ++ tempNames) fs fs'
  ∧ ∃ lines, console fs' = console fs ++ lines.
Proof.
  assert (Hgen : ∀ fs0,
            let fs' := (generateIcons host fs0).1 in
            let out := (generateIcons host fs0).2 in
            (out = Finished ∨ out = Exited 1)
            ∧ sameOutside (outputNames ++ tempNames) fs0 fs'
            ∧ ∃ lines, console fs' = console fs0 ++ lines).
  { intros fs0. unfold generateIcons.
    destruct (generateIcons_try_keeps host fs0) as (_ & [l Hl] & Hs & _).
    destruct (generateIcons_try host fs0) as [fs1 [e|a]]; simpl in *.
    - split_and!; auto. exists (l ++ ["❌ Error generating icons: " +:+ e]).
      by rewrite Hl, app_assoc.
    - split_and!; eauto. }
  unfold script. destruct (dirExists fs) eqn:Ed.
  { destruct (Hgen fs) as ([?|?] & ? & ?); split_and!; auto. }
  destruct (mkdirOk host) eqn:Em.
  - destruct (Hgen {| dirExists := true; files := files fs;
                      console := console fs |}) as ([?|?] & ? & ?);
      split_and!; auto.
  - simpl. split_and!.
    + right; right. done.
    + by intros name _.
    + exists []. by rewrite app_nil_r.
Qed.

(** *** A failure while the ICO file is made *)

(** The directory after the ten resizes. *)
Definition resized (m : gmap string Image) : gmap string Image :=
  <["temp_256.png"%string := Png 256 256]>
    (<["temp_48.png"%string := Png 48 48]>
       (<["temp_32.png"%string := Png 32 32]>
          (<["temp_16.png"%string := Png 16 16]>
             (<["icon.png"%string := Png 1024 1024]>
                (<["128x128@2x.png"%string := Png 256 256]>
                   (<["512x512.png"%string := Png 512 512]>
                      (<["256x256.png"%string := Png 256 256]>
                         (<["128x128.png"%string := Png 128 128]>
                            (<["32x32.png"%string := Png 32 32]> m))))))))).

Lemma ico_failure_run (host : Host) (fs : Fs) :
  (∀ name, sharpEnd host name = Written) →
  pngToIcoOk host = false ∨ writeEnd host "icon.ico" ≠ Written →
  ∃ e lines,
    generateIcons_try host fs
    = ({| dirExists := dirExists fs;
          files :=
            if pngToIcoOk host
            then match writeEnd host "icon.ico" with
                 | CutShort =>
                     <["icon.ico"%string := Truncated]> (resized (files fs))
                 | _ => resized (files fs)
                 end
            else resized (files fs);
          console := lines |}, inl e).
Proof.
  intros Hsharp Hfail. unfold generateIcons_try.
  cbn [forEach collect iconSizes icoSizes]. unfold sharpResize.
  rewrite !Hsharp.
  cbn [tbind tret log set_files files dirExists console].
  names_literal. fold (resized (files fs)).
  destruct (pngToIcoOk host) eqn:Eico.
  - destruct Hfail as [?|Hw]; [done|].
    erewrite tbind_ok.
    2:{ apply pngToIco_ok; [|done].
        cbn [files readAll]. unfold resized. dir_lookup. reflexivity. }
    destruct (writeEnd host "icon.ico") eqn:Ew; [done|..];
      (erewrite tbind_throw; [by eexists _, _|]);
      unfold writeFileSync; by rewrite Ew.
  - erewrite tbind_throw; [by eexists _, _|].
    unfold pngToIco. cbn [files readAll]. unfold resized. dir_lookup.
    by rewrite Eico.
Qed.

(** When every resize succeeds but the ICO file cannot be made ([pngToIco]
    or the write of [icon.ico] fails), the script exits with code 1 and
    leaves its four temporary files in the directory.  [icon.icns] is not
    written.  [icon.ico] is as it was when [pngToIco] fails or the write
    fails before the file is opened, and is a file cut short when the write
    fails later. *)
Theorem ico_failure_leaves_temps (host : Host) (fs : Fs) :
  dirExists fs = true →
  (∀ name, sharpEnd host name = Written) →
  pngToIcoOk host = false ∨ writeEnd host "icon.ico" ≠ Written →
  let fs' := (script host fs).1 in
  (script host fs).2 = Exited 1
  ∧ files fs' !! "temp_16.png"%string = Some (Png 16 16)
  ∧ files fs' !! "temp_32.png"%string = Some (Png 32 32)
  ∧ files fs' !! "temp_48.png"%string = Some (Png 48 48)
  ∧ files fs' !! "temp_256.png"%string = Some (Png 256 256)
  ∧ files fs' !! "icon.icns"%string = files fs !! "icon.icns"%string
  ∧ (pngToIcoOk host = false ∨ writeEnd host "icon.ico" = NotOpened →
     files fs' !! "icon.ico"%string = files fs !! "icon.ico"%string)
  ∧ (pngToIcoOk host = true → writeEnd host "icon.ico" = CutShort →
     files fs' !! "icon.ico"%string = Some Truncated).
Proof.
  intros Hd Hsharp Hfail. unfold script, generateIcons. rewrite Hd.
  destruct (ico_failure_run host fs Hsharp Hfail) as (e & lines & ->).
  cbn [fst snd files]. unfold resized.
  destruct (pngToIcoOk host) eqn:Eico;
    [destruct (writeEnd host "icon.ico") eqn:Ew|];
    split_and!; try done; try (by dir_lookup);
    try (intros [?|?]; try done; by dir_lookup);
    try (intros _ _; by dir_lookup).
Qed.
End IconsFacts.

Lemma script_frame_witness :
  Icons.sameOutside (Icons.outputNames ++ Icons.tempNames)
    {| Icons.dirExists := true;
       Icons.files := {[ "notes.txt"%string := Icons.Png 1 1 ]};
       Icons.console := [] |}
    (Icons.script Icons.noIcoHost
       {| Icons.dirExists := true;
          Icons.files := {[ "notes.txt"%string := Icons.Png 1 1 ]};
          Icons.console := [] |}).1.
Proof.
  exact (proj1 (proj2 (IconsFacts.script_frame Icons.noIcoHost
                         {| Icons.dirExists := true;
                            Icons.files := {[ "notes.txt"%string := Icons.Png 1 1 ]};
                            Icons.console := [] |}))).
Defined.

Lemma ico_failure_leaves_temps_witness :
  let fs := {| Icons.dirExists := true;
               Icons.files := {[ "icon.ico"%string := Icons.Png 64 64 ]};
               Icons.console := [] |} in
  let fs' := (Icons.script Icons.fullDiskHost fs).1 in
  (Icons.script Icons.fullDiskHost fs).2 = Icons.Exited 1
  ∧ Icons.files fs' !! "temp_16.png"%string = Some (Icons.Png 16 16)
  ∧ Icons.files fs' !! "temp_256.png"%string = Some (Icons.Png 256 256)
  ∧ Icons.files fs' !! "icon.icns"%string = None
  ∧ Icons.files fs' !! "icon.ico"%string = Some Icons.Truncated.
Proof.
  intros fs.
  destruct (IconsFacts.ico_failure_leaves_temps Icons.fullDiskHost fs)
    as (H1 & H2 & _ & _ & H3 & H4 & _ & H5);
    [reflexivity|reflexivity|by right|].
  split_and!; [exact H1|exact H2|exact H3|exact H4|by apply H5].
Defined.

Lemma script_finished_witness :
  let fs' := (Icons.script Icons.goodHost Icons.emptyFs).1 in
  Icons.script Icons.goodHost Icons.emptyFs = (fs', Icons.Finished)
  ∧ Icons.dirExists fs' = true
  ∧ (∀ name img, (name, img) ∈ Icons.products →
                 Icons.files fs' !! name = Some img)
  ∧ (∀ name, name ∈ Icons.tempNames → Icons.files fs' !! name = None)
  ∧ Icons.sameOutside (Icons.outputNames ++ Icons.tempNames) Icons.emptyFs fs'
  ∧ Icons.console fs' = Icons.console Icons.emptyFs ++ Icons.successLines.
Proof.
  intros fs'.
  assert (E : Icons.script Icons.goodHost Icons.emptyFs = (fs', Icons.Finished)).
  { unfold fs', Icons.script. cbn [Icons.dirExists Icons.emptyFs Icons.mkdirOk
                                    Icons.goodHost].
    unfold Icons.generateIcons. by rewrite IconsFacts.good_run. }
  split; [exact E|].
  exact (IconsFacts.script_finished Icons.goodHost Icons.emptyFs fs' E).
Defined.
